(** * TimelineAssembler: timeline assembly, clip insertion and CMX3600 export

    A shallow embedding of the assembly engine and the EDL encoder of the
    TimelineAssembler sources: the cloud functions [autoAssembleTimeline]
    and [exportTimelineEDL] with [generateCMX3600EDL], and the client class
    [Timeline] with [autoAssemble], [exportEDL], [_generateCMX3600EDL] and
    [addClip].

    Modelling conventions.
    - A JavaScript number is a rational ([Q]) or [NaN]; the infinities are
      not modelled.  Sums, comparisons and maxima of times are exact.  The
      two timecode formatters, whose [Math.floor] makes rounding visible in
      the printed digits, divide and multiply in binary64: the result of
      [/] and [*] is the exact result rounded to the nearest binary64 value,
      ties to even ([round64]), and [%] is exact, as it is in IEEE 754.
      Integers print in plain decimal (JavaScript does so below 10^21).
    - Database reads are arguments and database writes are results: an
      operation takes the timeline and the asset list it would load and
      returns the timeline it would store.  Authentication, the checks on
      the project and timeline ids, and the upload of the exported text
      come before or after the code modelled here.  A track that is read
      carries its [clips] array, also when that array is empty.
    - [Date.now()] and [Math.random()] are read from an environment.
    - An asset carries its [metadata] object: [duration] is a number or is
      missing, [timestamp] is a date string or is missing, [analysis] is an
      object or is missing, and [tags] holds the values of the descriptive
      keys that [groupBy] may name (strings, integers, booleans, objects);
      [groupBy] is taken to name such a key, not one of the three fields
      before. *)

From Stdlib Require Import ZArith QArith Qround Qminmax Qpower Lia Lqa Ascii String
  Sorted.
From stdpp Require Import base list strings gmap pretty.

(** ** JavaScript primitives *)

Inductive JsNum : Type :=
  | Fin (q : Q)
  | NaN.

(** Truthiness of a number: every number except zero (and [NaN]). *)
Definition truthyQ (q : Q) : bool := negb (Qeq_bool q 0).

(** [x || dflt] where [x] is a number or [undefined]. *)
Definition orDefault (x : option Q) (dflt : Q) : Q :=
  match x with
  | Some q => if truthyQ q then q else dflt
  | None => dflt
  end.

(** Rounding towards zero, and the [%] operator, whose result takes the sign
    of the dividend. *)
Definition Qtrunc (q : Q) : Z := Z.quot (Qnum q) (Zpos (Qden q)).

Definition jsRem (x y : Q) : Q := (x - y * inject_Z (Qtrunc (x / y)))%Q.

(** *** Binary64 arithmetic

    A finite binary64 value is [m * 2^e] with [|m| < 2^53] and
    [e >= -1074].  [round64 q] is the binary64 value nearest to [q], ties
    going to the even significand: [q] is scaled by the unit in the last
    place of its binade (the binade of the least normal value for smaller
    [q], which gives the subnormal values), rounded to an integer and
    scaled back.  Overflow to infinity is not modelled; the formatters
    below never produce a value larger than their arguments. *)
Definition pow2 (e : Z) : Q := (2 ^ e)%Q.

(** [floor (log2 a)] for [a > 0]. *)
Definition ilog2 (a : Q) : Z :=
  let l := (Z.log2 (Qnum a) - Z.log2 (Zpos (Qden a)))%Z in
  if Qle_bool (pow2 l) a then l else (l - 1)%Z.

(** Rounding to the nearest integer, ties to even. *)
Definition roundHalfEven (t : Q) : Z :=
  let f := Qfloor t in
  match (t - inject_Z f ?= 1 # 2)%Q with
  | Lt => f
  | Gt => (f + 1)%Z
  | Eq => if Z.even f then f else (f + 1)%Z
  end.

(** The exponent of the unit in the last place of [a > 0]. *)
Definition ulpExp (a : Q) : Z := (Z.max (ilog2 a) (-1022) - 52)%Z.

Definition round64 (q : Q) : Q :=
  match (q ?= 0)%Q with
  | Eq => 0%Q
  | Gt => let u := pow2 (ulpExp q) in (inject_Z (roundHalfEven (q / u)) * u)%Q
  | Lt =>
      let u := pow2 (ulpExp (- q)) in
      (- (inject_Z (roundHalfEven (- q / u)) * u))%Q
  end.

(** [q] is a binary64 value: rounding leaves it as it is. *)
Definition isDouble (q : Q) : Prop := (round64 q == q)%Q.

(** [x > m] as the [if] of a loop sees it: false when [x] is [NaN]. *)
Definition jsGt (x : JsNum) (m : Q) : bool :=
  match x with
  | Fin e => negb (Qle_bool e m)
  | NaN => false
  end.

Fixpoint zeros (k : nat) : string :=
  match k with
  | O => EmptyString
  | S k' => String "0"%char (zeros k')
  end.

(** [s.padStart(n, '0')] *)
Definition padStart (n : nat) (s : string) : string :=
  zeros (n - String.length s) +:+ s.

Definition newline : string := String (ascii_of_nat 10) EmptyString.

(** *** Plain objects used as string-keyed maps

    An object literal [{}] is a list of own properties in creation order.
    Reading a missing key falls through to [Object.prototype]; enumeration
    ([Object.values]) lists array-index keys first, in ascending numeric
    order, and then the other keys in creation order. *)

Definition digitOf (c : ascii) : option N :=
  let n := N_of_ascii c in
  if ((48 <=? n) && (n <=? 57))%N then Some (n - 48)%N else None.

Fixpoint parseDigits (acc : N) (s : string) : option N :=
  match s with
  | EmptyString => Some acc
  | String c s' =>
      match digitOf c with
      | Some d => parseDigits (acc * 10 + d)%N s'
      | None => None
      end
  end.

(** A key is an array index when it is the canonical decimal form of an
    integer below 2^32 - 1. *)
Definition arrayIndex (s : string) : option N :=
  match s with
  | EmptyString => None
  | String c rest =>
      if Ascii.eqb c "0"%char && negb (String.eqb rest EmptyString) then None
      else match parseDigits 0 s with
           | Some n => if (n <? 4294967295)%N then Some n else None
           | None => None
           end
  end.

Definition objectPrototypeKeys : list string :=
  [ "constructor"; "__defineGetter__"; "__defineSetter__"; "hasOwnProperty";
    "__lookupGetter__"; "__lookupSetter__"; "isPrototypeOf";
    "propertyIsEnumerable"; "toString"; "valueOf"; "__proto__";
    "toLocaleString" ].

Definition inheritedKey (k : string) : bool :=
  bool_decide (k ∈ objectPrototypeKeys).

Fixpoint ownProperty {V} (k : string) (o : list (string * V)) : option V :=
  match o with
  | [] => None
  | (k', v) :: o' => if String.eqb k k' then Some v else ownProperty k o'
  end.

Fixpoint setProperty {V} (k : string) (v : V) (o : list (string * V))
  : list (string * V) :=
  match o with
  | [] => [(k, v)]
  | (k', v') :: o' =>
      if String.eqb k k' then (k', v) :: o' else (k', v') :: setProperty k v o'
  end.

Fixpoint insertIndexed {V} (i : N) (v : V) (l : list (N * V)) : list (N * V) :=
  match l with
  | [] => [(i, v)]
  | (j, w) :: l' =>
      if (i <? j)%N then (i, v) :: (j, w) :: l' else (j, w) :: insertIndexed i v l'
  end.

Definition indexedEntries {V} (o : list (string * V)) : list (N * V) :=
  foldr (fun kv acc =>
           match arrayIndex kv.1 with
           | Some i => insertIndexed i kv.2 acc
           | None => acc
           end) [] o.

Definition namedEntries {V} (o : list (string * V)) : list (string * V) :=
  filter (fun kv => arrayIndex kv.1 = None) o.

(** [Object.values(o)] *)
Definition objectValues {V} (o : list (string * V)) : list V :=
  (indexedEntries o).*2 ++ (namedEntries o).*2.

(** *** [Array.prototype.sort] with a comparator

    [gt a b] says that the comparator returned a positive number for
    [(a, b)]; a [NaN] result counts as zero.  The sort is stable.  This is
    the result of [Array.prototype.sort] when the comparator is a
    consistent order; when it is not, as with [NaN] results between valid
    dates, the result depends on the engine, and the properties below use
    no more of it than that it is a rearrangement. *)
Fixpoint insertSorted {A} (gt : A -> A -> bool) (x : A) (l : list A) : list A :=
  match l with
  | [] => [x]
  | y :: l' => if gt x y then y :: insertSorted gt x l' else x :: y :: l'
  end.

Definition sortBy {A} (gt : A -> A -> bool) (l : list A) : list A :=
  foldr (insertSorted gt) [] l.

(** ** Outcomes *)

Inductive Outcome (A : Type) : Type :=
  | Ok (a : A)
  | Failure (message : string)
  | Throw (kind message : string).
Arguments Ok {A} a.
Arguments Failure {A} message.
Arguments Throw {A} kind message.

Definition bindO {A B} (x : Outcome A) (f : A -> Outcome B) : Outcome B :=
  match x with
  | Ok a => f a
  | Failure m => Failure m
  | Throw k m => Throw k m
  end.

Notation "x ← y ;;; z" := (bindO y (fun x => z))
  (at level 20, y at level 100, z at level 200, only parsing).

Definition mapO {A B} (f : A -> B) (x : Outcome A) : Outcome B :=
  match x with
  | Ok a => Ok (f a)
  | Failure m => Failure m
  | Throw k m => Throw k m
  end.

Notation "f <$$> x" := (mapO (fmap f) x) (at level 61, left associativity).

(** The [try { ... } catch (error) { throw new HttpsError('internal',
    error.message) }] wrapper of the cloud functions. *)
Definition catchInternal {A} (x : Outcome A) : Outcome A :=
  match x with
  | Throw _ m => Throw "internal" m
  | other => other
  end.

(** ** Data model *)

(** A value stored under a descriptive metadata key. *)
Inductive MetaValue : Type :=
  | MStr (s : string)
  | MNum (n : Z)
  | MBool (b : bool)
  | MObj (repr : string).

Definition truthy (v : MetaValue) : bool :=
  match v with
  | MStr s => negb (String.eqb s EmptyString)
  | MNum n => negb (n =? 0)%Z
  | MBool b => b
  | MObj _ => true
  end.

(** Conversion of a value to the property key it denotes. *)
Definition toPropertyKey (v : MetaValue) : string :=
  match v with
  | MStr s => s
  | MNum n => pretty n
  | MBool true => "true"
  | MBool false => "false"
  | MObj repr => repr
  end.

(** [metadata.timestamp]: missing (or empty), present but not a date, or a
    date given in milliseconds since the epoch. *)
Inductive Timestamp : Type :=
  | TsAbsent
  | TsInvalid
  | TsAt (ms : Z).

Record Metadata : Type := {
  duration : option Q;
  timestamp : Timestamp;
  tags : gmap string MetaValue;
  analysis : option (gmap string MetaValue)
}.

Record Asset : Type := {
  asset_id : string;
  uploadTime : option Z;
  metadata : Metadata
}.

Record Transition : Type := {
  tr_type : string;
  tr_duration : Q
}.

Record Transitions : Type := {
  tr_in : option Transition;
  tr_out : option Transition
}.

Record Clip : Type := {
  clip_id : string;
  assetId : string;
  startTime : JsNum;
  endTime : JsNum;
  inPoint : JsNum;
  outPoint : JsNum;
  transitions : Transitions
}.

Record Track : Type := {
  track_id : string;
  track_type : string;
  clips : list Clip
}.

Record Timeline : Type := {
  tl_name : string;
  framerate : Q;
  tl_duration : Q;
  tracks : option (list Track);
  modified : Z
}.

Record Env : Type := {
  now : Z;
  random : nat -> Z
}.

Record AssembleOptions : Type := {
  strategy : option string;
  groupBy : option string;
  addTransitions : option bool
}.

Record ClipData : Type := {
  cd_assetId : string;
  cd_startTime : option Q;
  cd_endTime : option Q;
  cd_inPoint : option Q;
  cd_outPoint : option Q;
  cd_transitions : option Transitions
}.

(** ** Asset ordering *)

(** The time value of the [Date] an asset is compared by; [None] is an
    invalid date.  The cloud function falls back to [uploadTime] when the
    timestamp is falsy, the client class does not. *)
Definition cloudTime (a : Asset) : option Z :=
  match timestamp (metadata a) with
  | TsAt ms => Some ms
  | TsInvalid => None
  | TsAbsent => uploadTime a
  end.

Definition clientTime (a : Asset) : option Z :=
  match timestamp (metadata a) with
  | TsAt ms => Some ms
  | TsInvalid | TsAbsent => None
  end.

(** The comparator [(a, b) => aTime - bTime] returned a positive number. *)
Definition laterThan (time : Asset -> option Z) (a b : Asset) : bool :=
  match time a, time b with
  | Some x, Some y => (0 <? x - y)%Z
  | _, _ => false
  end.

(** The [switch (strategy)] of both assembly paths. *)
Definition sortAssets (time : Asset -> option Z) (strategy : option string)
    (assets : list Asset) : list Asset :=
  match strategy with
  | Some s =>
      if String.eqb s "chronological" then sortBy (laterThan time) assets
      else if String.eqb s "semantic" then assets
      else assets
  | None => assets
  end.

(** ** Asset grouping *)

Definition truthyValue (x : option MetaValue) : option MetaValue :=
  match x with
  | Some v => if truthy v then Some v else None
  | None => None
  end.

(** [autoAssembleTimeline]: [metadata[groupBy]], then
    [metadata.analysis[groupBy]], then ['unknown']. *)
Definition cloudGroupKey (groupBy : string) (a : Asset) : string :=
  match truthyValue (tags (metadata a) !! groupBy) with
  | Some v => toPropertyKey v
  | None =>
      match truthyValue (analysis (metadata a) ≫= (fun an => an !! groupBy)) with
      | Some v => toPropertyKey v
      | None => "unknown"
      end
  end.

(** [Timeline.autoAssemble]: [asset.metadata[groupBy] || 'unknown']. *)
Definition clientGroupKey (groupBy : string) (a : Asset) : string :=
  match truthyValue (tags (metadata a) !! groupBy) with
  | Some v => toPropertyKey v
  | None => "unknown"
  end.

(** The loop filling [groups]: create the array on first sight of a key,
    then push.  A key that [Object.prototype] defines reads as a truthy
    non-array, so no array is created and [push] throws. *)
Fixpoint groupLoop (key : Asset -> string) (groups : list (string * list Asset))
    (assets : list Asset) : Outcome (list (string * list Asset)) :=
  match assets with
  | [] => Ok groups
  | a :: rest =>
      let k := key a in
      match ownProperty k groups with
      | Some members => groupLoop key (setProperty k (members ++ [a]) groups) rest
      | None =>
          if inheritedKey k
          then Throw "TypeError" "groups[groupKey].push is not a function"
          else groupLoop key (setProperty k [a] groups) rest
      end
  end.

(** The grouping step: [if (groupBy) { ... Object.values(groups).flat() }]. *)
Definition groupAssets (key : string -> Asset -> string) (groupBy : option string)
    (sorted : list Asset) : Outcome (list Asset) :=
  match groupBy with
  | Some g =>
      if String.eqb g EmptyString then Ok sorted
      else groups ← groupLoop (key g) [] sorted ;;; Ok (concat (objectValues groups))
  | None => Ok sorted
  end.

(** ** Clip placement *)

(** [asset.metadata.duration || 5] *)
Definition clipDuration (a : Asset) : Q := orDefault (duration (metadata a)) 5.

(** The two policies for the length of an inserted dissolve. *)
Definition clampedTransition (d : Q) : Q := Qmin 1 (d / 4).
Definition flatTransition (d : Q) : Q := 1.

Definition makeClip (env : Env) (transitionDuration : Q -> Q) (addTr : bool)
    (placedCount : nat) (currentTime : Q) (a : Asset) : Clip :=
  let d := clipDuration a in
  {| clip_id := "clip-" +:+ pretty (now env) +:+ "-"
                +:+ pretty (random env placedCount);
     assetId := asset_id a;
     startTime := Fin currentTime;
     endTime := Fin (currentTime + d);
     inPoint := Fin 0;
     outPoint := Fin d;
     transitions :=
       {| tr_in := if addTr && (0 <? placedCount)%nat
                   then Some {| tr_type := "dissolve";
                                tr_duration := transitionDuration d |}
                   else None;
          tr_out := None |} |}.

(** One iteration of the placement loop over [(tracks[0].clips, currentTime)];
    [placedCount] is [tracks[0].clips.length]. *)
Definition placeStep (env : Env) (transitionDuration : Q -> Q) (addTr : bool)
    (st : list Clip * Q) (a : Asset) : list Clip * Q :=
  (st.1 ++ [makeClip env transitionDuration addTr (length st.1) st.2 a],
   (st.2 + clipDuration a)%Q).

Definition placeClips (env : Env) (transitionDuration : Q -> Q) (addTr : bool)
    (assets : list Asset) : list Clip * Q :=
  fold_left (placeStep env transitionDuration addTr) assets ([], 0%Q).

(** The update [{tracks, duration: currentTime, modified}] applied to the
    stored timeline. *)
Definition applyAssembly (env : Env) (tl : Timeline) (r : list Clip * Q) : Timeline :=
  {| tl_name := tl_name tl;
     framerate := framerate tl;
     tl_duration := r.2;
     tracks := Some [ {| track_id := "track-" +:+ pretty (now env);
                         track_type := "video";
                         clips := r.1 |} ];
     modified := now env |}.

(** ** The two assembly entry points *)

(** Cloud function [autoAssembleTimeline], after authentication and the
    load of the timeline and of its assets. *)
Definition autoAssembleTimeline (env : Env) (tl : Timeline) (assets : list Asset)
    (opts : AssembleOptions) : Outcome Timeline :=
  catchInternal
    (if bool_decide (length assets = 0%nat)
     then Throw "failed-precondition" "No assets found for this timeline"
     else
       let sortedAssets := sortAssets cloudTime (strategy opts) assets in
       groupedAssets ← groupAssets cloudGroupKey (groupBy opts) sortedAssets ;;;
       Ok (applyAssembly env tl
             (placeClips env clampedTransition
                (default false (addTransitions opts)) groupedAssets))).

(** Method [Timeline.autoAssemble]; the asset snapshot exists exactly when
    it has a child.  Missing options take the defaults of the signature. *)
Definition autoAssemble (env : Env) (tl : Timeline) (assets : list Asset)
    (opts : AssembleOptions) : Outcome Timeline :=
  let strategy := default "chronological" (strategy opts) in
  let groupBy := default "scene" (groupBy opts) in
  let addTransitions := default false (addTransitions opts) in
  if bool_decide (length assets = 0%nat)
  then Failure "No assets found to assemble"
  else
    let sortedAssets := sortAssets clientTime (Some strategy) assets in
    groupedAssets ← groupAssets clientGroupKey (Some groupBy) sortedAssets ;;;
    Ok (applyAssembly env tl
          (placeClips env flatTransition addTransitions groupedAssets)).

(** ** EDL export *)

(** The local function [formatTC] for a frame rate [fr], on binary64
    values [seconds] and [fr]. *)
Definition formatTC (fr : Q) (seconds : Q) : string :=
  let h := Qfloor (round64 (seconds / 3600)) in
  let m := Qfloor (round64 (jsRem seconds 3600 / 60)) in
  let s := Qfloor (jsRem seconds 60) in
  let f := Qfloor (round64 (jsRem seconds 1 * fr)) in
  padStart 2 (pretty h) +:+ ":" +:+ padStart 2 (pretty m) +:+ ":"
  +:+ padStart 2 (pretty s) +:+ ":" +:+ padStart 2 (pretty f).

Definition formatTCNum (fr : Q) (x : JsNum) : string :=
  match x with
  | Fin seconds => formatTC fr seconds
  | NaN => "NaN:NaN:NaN:NaN"
  end.

(** The body of the inner loop over [(edl, eventNumber)]. *)
Definition emitClip (fr : Q) (st : string * N) (clip : Clip) : string * N :=
  let sourceStart := formatTCNum fr (inPoint clip) in
  let sourceEnd := formatTCNum fr (outPoint clip) in
  let recordStart := formatTCNum fr (startTime clip) in
  let recordEnd := formatTCNum fr (endTime clip) in
  (st.1 +:+ padStart 3 (pretty st.2) +:+ "  AX       V     C        "
        +:+ sourceStart +:+ " " +:+ sourceEnd +:+ " "
        +:+ recordStart +:+ " " +:+ recordEnd +:+ newline
        +:+ "* FROM CLIP NAME: " +:+ assetId clip +:+ newline +:+ newline,
   (st.2 + 1)%N).

Definition emitTrack (fr : Q) (st : string * N) (track : Track) : string * N :=
  fold_left (emitClip fr) (clips track) st.

Definition generateEDLWith (fr : Q) (name : string) (trs : list Track) : string :=
  (fold_left (emitTrack fr) trs
     ("TITLE: " +:+ name +:+ newline +:+ "FCM: NON-DROP FRAME" +:+ newline
      +:+ newline, 1%N)).1.

(** Cloud [generateCMX3600EDL]: frames use [timeline.framerate || 24]. *)
Definition generateCMX3600EDL (tl : Timeline) (trs : list Track) : string :=
  generateEDLWith (orDefault (Some (framerate tl)) 24) (tl_name tl) trs.

(** Client [_generateCMX3600EDL]: frames use [timeline.framerate]. *)
Definition _generateCMX3600EDL (tl : Timeline) (trs : list Track) : string :=
  generateEDLWith (framerate tl) (tl_name tl) trs.

Definition noTracksMessageClient : string :=
  "Cannot export EDL: Timeline has no tracks or clips".
Definition noTracksMessageCloud : string := "Timeline has no tracks or clips".

(** Method [Timeline.exportEDL]; the outcome is the EDL text it uploads. *)
Definition exportEDL (format : option string) (tl : Timeline) : Outcome string :=
  match tracks tl with
  | None | Some [] => Throw "Error" noTracksMessageClient
  | Some trs =>
      let fmt := default "CMX3600" format in
      if String.eqb fmt "CMX3600" then Ok (_generateCMX3600EDL tl trs)
      else Throw "Error" ("Unsupported EDL format: " +:+ fmt)
  end.

(** Cloud function [exportTimelineEDL]. *)
Definition exportTimelineEDL (format : option string) (tl : Timeline)
  : Outcome string :=
  catchInternal
    (match tracks tl with
     | None | Some [] => Throw "failed-precondition" noTracksMessageCloud
     | Some trs =>
         match format with
         | Some fmt =>
             if String.eqb fmt "CMX3600" then Ok (generateCMX3600EDL tl trs)
             else Throw "invalid-argument" ("Unsupported EDL format: " +:+ fmt)
         | None => Throw "invalid-argument" "Unsupported EDL format: undefined"
         end
     end).

(** ** Adding one clip *)

(** [timeline.tracks.findIndex(track => track.id === trackId)] *)
Fixpoint findIndex (trackId : string) (trs : list Track) : option nat :=
  match trs with
  | [] => None
  | t :: rest =>
      if String.eqb (track_id t) trackId then Some O
      else S <$> findIndex trackId rest
  end.

Definition clipOfData (env : Env) (clipData : ClipData) : Clip :=
  {| clip_id := "clip-" +:+ pretty (now env);
     assetId := cd_assetId clipData;
     startTime := Fin (orDefault (cd_startTime clipData) 0);
     endTime :=
       match cd_endTime clipData with
       | Some e =>
           if truthyQ e then Fin e
           else match cd_startTime clipData with
                | Some s => Fin (s + 5)
                | None => NaN
                end
       | None =>
           match cd_startTime clipData with
           | Some s => Fin (s + 5)
           | None => NaN
           end
       end;
     inPoint := Fin (orDefault (cd_inPoint clipData) 0);
     outPoint := Fin (orDefault (cd_outPoint clipData) 5);
     transitions :=
       default {| tr_in := None; tr_out := None |} (cd_transitions clipData) |}.

Definition pushClip (clip : Clip) (t : Track) : Track :=
  {| track_id := track_id t; track_type := track_type t;
     clips := clips t ++ [clip] |}.

(** The duration recomputation: [maxEndTime] over every clip of every track. *)
Definition maxStep (maxEndTime : Q) (clip : Clip) : Q :=
  match endTime clip with
  | Fin e => if jsGt (Fin e) maxEndTime then e else maxEndTime
  | NaN => maxEndTime
  end.

Definition recalcDuration (trs : list Track) : Q :=
  fold_left (fun maxEndTime track => fold_left maxStep (clips track) maxEndTime)
    trs 0%Q.

(** Method [Timeline.addClip]: the stored timeline and the created clip. *)
Definition addClip (env : Env) (tl : Timeline) (trackId : string)
    (clipData : ClipData) : Outcome (Timeline * Clip) :=
  match tracks tl with
  | None => Throw "Error" "Timeline has no tracks"
  | Some trs =>
      match findIndex trackId trs with
      | None => Throw "Error" ("Track with ID " +:+ trackId +:+ " not found")
      | Some trackIndex =>
          let clip := clipOfData env clipData in
          let trs' := alter (pushClip clip) trackIndex trs in
          Ok ({| tl_name := tl_name tl;
                 framerate := framerate tl;
                 tl_duration := recalcDuration trs';
                 tracks := Some trs';
                 modified := now env |}, clip)
      end
  end.

(** ** Specification-level notions *)

(** The resolved clip duration as the specification words it:
    [metadata.duration] when present and [> 0], otherwise 5 seconds. *)
Definition resolvedDuration (a : Asset) : Q :=
  match duration (metadata a) with
  | Some d => if Qlt_le_dec 0 d then d else 5
  | None => 5
  end.

(** Data-model constraint on assets: a duration, when present, is [>= 0]. *)
Definition wellFormedAsset (a : Asset) : Prop :=
  match duration (metadata a) with
  | Some d => (0 <= d)%Q
  | None => True
  end.

Definition Qsum (l : list Q) : Q := foldr Qplus 0%Q l.

(** [x <= y] on numbers; it does not hold when either side is [NaN]. *)
Definition jsLe (x y : JsNum) : Prop :=
  match x, y with
  | Fin a, Fin b => (a <= b)%Q
  | _, _ => False
  end.

(** The [endTime] of the last clip, 0 when there is none. *)
Definition lastEndTime (cs : list Clip) : JsNum :=
  match last cs with
  | Some c => endTime c
  | None => Fin 0
  end.

Definition allClips (tl : Timeline) : list Clip :=
  concat (clips <$> default [] (tracks tl)).

Definition nonOverlapping (cs : list Clip) : Prop :=
  forall i j c1 c2, i <> j -> cs !! i = Some c1 -> cs !! j = Some c2 ->
    jsLe (endTime c1) (startTime c2) \/ jsLe (endTime c2) (startTime c1).

Definition sortedByStartTime (cs : list Clip) : Prop :=
  forall i j c1 c2, (i < j)%nat -> cs !! i = Some c1 -> cs !! j = Some c2 ->
    jsLe (startTime c1) (startTime c2).

(** Closed form of the placement loop: the clips it appends when it starts
    with [n] clips placed and [currentTime = t] (lemma [fold_placeStep]). *)
Fixpoint placedFrom (env : Env) (transitionDuration : Q -> Q) (addTr : bool)
    (n : nat) (t : Q) (assets : list Asset) : list Clip :=
  match assets with
  | [] => []
  | a :: rest =>
      makeClip env transitionDuration addTr n t a
      :: placedFrom env transitionDuration addTr (S n) (t + clipDuration a)%Q rest
  end.

(** Group keys in order of first appearance, and the grouping the
    specification describes: groups concatenated in that order, each one
    keeping the input order of its members. *)
Fixpoint firstAppearances (ks : list string) : list string :=
  match ks with
  | [] => []
  | k :: rest => k :: filter (fun k' => k' <> k) (firstAppearances rest)
  end.

Definition groupsOf (key : Asset -> string) (l : list Asset)
  : list (string * list Asset) :=
  (fun k => (k, filter (fun a => key a = k) l)) <$> firstAppearances (key <$> l).

Definition groupByFirstAppearance (key : Asset -> string) (l : list Asset)
  : list Asset :=
  concat (groupsOf key l).*2.

(** The group key as the specification words it: the first defined value of
    [metadata[groupBy]], [metadata.analysis[groupBy]], else ["unknown"]. *)
Definition lookupChain (groupBy : string) (a : Asset) : list (option MetaValue) :=
  [ tags (metadata a) !! groupBy;
    analysis (metadata a) ≫= (fun an => an !! groupBy) ].

Fixpoint firstSuchKey (accept : MetaValue -> bool) (chain : list (option MetaValue))
  : string :=
  match chain with
  | [] => "unknown"
  | Some v :: rest => if accept v then toPropertyKey v else firstSuchKey accept rest
  | None :: rest => firstSuchKey accept rest
  end.

Definition firstDefinedKey (groupBy : string) (a : Asset) : string :=
  firstSuchKey (fun _ => true) (lookupChain groupBy a).

Definition firstTruthyKey (groupBy : string) (a : Asset) : string :=
  firstSuchKey truthy (lookupChain groupBy a).

(** Floored remainder, and the timecode as the specification words it. *)
Definition Qmod (x y : Q) : Q := (x - y * inject_Z (Qfloor (x / y)))%Q.

Definition timecodeFields (seconds fr : Q) : Z * Z * Z * Z :=
  (Qfloor (seconds / 3600),
   Qfloor (Qmod seconds 3600 / 60),
   Qfloor (Qmod seconds 60),
   Qfloor (Qmod seconds 1 * fr)).

Definition renderTimecode (fields : Z * Z * Z * Z) : string :=
  let '(hh, mm, ss, ff) := fields in
  padStart 2 (pretty hh) +:+ ":" +:+ padStart 2 (pretty mm) +:+ ":"
  +:+ padStart 2 (pretty ss) +:+ ":" +:+ padStart 2 (pretty ff).

Definition succeeded {A} (x : Outcome A) : bool :=
  match x with
  | Ok _ => true
  | Failure _ | Throw _ _ => false
  end.

(** Data-model constraint on a stored clip: its end time is a number [>= 0]. *)
Definition validEndTime (c : Clip) : Prop := jsLe (Fin 0) (endTime c).

(** [m] is the greatest [endTime] among [cs]. *)
Definition isMaxEndTime (m : Q) (cs : list Clip) : Prop :=
  (exists c e, c ∈ cs /\ endTime c = Fin e /\ (e == m)%Q)
  /\ (forall c, c ∈ cs -> jsLe (endTime c) (Fin m)).

(** ** Sample inputs *)

Definition sampleEnv : Env :=
  {| now := 1700000000000; random := fun i => Z.of_nat i |}.

Definition emptyTimeline : Timeline :=
  {| tl_name := "Demo"; framerate := 24; tl_duration := 0; tracks := None;
     modified := 0 |}.

Definition sceneAsset (name : string) (d : option Q) (scene : MetaValue) : Asset :=
  {| asset_id := name;
     uploadTime := None;
     metadata := {| duration := d; timestamp := TsAbsent;
                    tags := {[ "scene" := scene ]}; analysis := None |} |}.

Definition plainAsset (name : string) (d : option Q) : Asset :=
  {| asset_id := name;
     uploadTime := None;
     metadata := {| duration := d; timestamp := TsAbsent;
                    tags := ∅; analysis := None |} |}.

Definition options (s : option string) (g : option string) (t : bool)
  : AssembleOptions :=
  {| strategy := s; groupBy := g; addTransitions := Some t |}.

Definition twoAssets : list Asset :=
  [ plainAsset "A" (Some 2%Q); plainAsset "B" None ].

Definition shortAssets : list Asset :=
  [ plainAsset "A" (Some 2%Q); plainAsset "B" (Some 2%Q) ].

Definition numberedScenes : list Asset :=
  [ sceneAsset "A" None (MNum 2); sceneAsset "B" None (MNum 1) ].

Definition cliplessTimeline : Timeline :=
  {| tl_name := "Demo"; framerate := 24; tl_duration := 0;
     tracks := Some [ {| track_id := "track-1"; track_type := "video";
                         clips := [] |} ];
     modified := 0 |}.

Definition sceneZeroAsset : Asset :=
  {| asset_id := "A";
     uploadTime := None;
     metadata := {| duration := None; timestamp := TsAbsent;
                    tags := {[ "scene" := MNum 0 ]};
                    analysis := Some {[ "scene" := MStr "beach" ]} |} |}.

Definition withStrategy (s : string) (opts : AssembleOptions) : AssembleOptions :=
  {| strategy := Some s; groupBy := groupBy opts;
     addTransitions := addTransitions opts |}.

Definition longClip : Clip :=
  {| clip_id := "clip-1"; assetId := "asset-1";
     startTime := Fin 0; endTime := Fin 10; inPoint := Fin 0; outPoint := Fin 10;
     transitions := {| tr_in := None; tr_out := None |} |}.

Definition oneClipTimeline : Timeline :=
  {| tl_name := "Demo"; framerate := 24; tl_duration := 10;
     tracks := Some [ {| track_id := "track-1"; track_type := "video";
                         clips := [longClip] |};
                      {| track_id := "track-2"; track_type := "audio";
                         clips := [] |} ];
     modified := 0 |}.

Definition earlyClipData : ClipData :=
  {| cd_assetId := "asset-2"; cd_startTime := Some 1%Q; cd_endTime := Some 4%Q;
     cd_inPoint := None; cd_outPoint := Some 3%Q; cd_transitions := None |}.

Definition interleavedScenes : list Asset :=
  [ sceneAsset "A" None (MStr "x"); sceneAsset "B" None (MStr "y");
    sceneAsset "C" None (MStr "x") ].



(** A timeline at 30 frames per second with one clip of a second and a
    half. *)
Definition shortClip : Clip :=
  {| clip_id := "clip-1"; assetId := "asset-1";
     startTime := Fin 0; endTime := Fin (3 # 2);
     inPoint := Fin 0; outPoint := Fin (3 # 2);
     transitions := {| tr_in := None; tr_out := None |} |}.

Definition thirtyFpsTimeline : Timeline :=
  {| tl_name := "Demo"; framerate := 30; tl_duration := 3 # 2;
     tracks := Some [ {| track_id := "track-1"; track_type := "video";
                         clips := [shortClip] |} ];
     modified := 0 |}.

(** A timeline holding a track that was made at the clock value of
    [sampleEnv]. *)
Definition sameMillisecondTimeline : Timeline :=
  {| tl_name := "Demo"; framerate := 24; tl_duration := 10;
     tracks := Some [ {| track_id := "track-1700000000000";
                         track_type := "audio"; clips := [longClip] |} ];
     modified := 0 |}.

(** The binary64 values nearest to 0.3, to 0.03 and to 4.35. *)
Definition threeTenths : Q := 5404319552844595 # 18014398509481984.

Definition fourPointThreeFive : Q := 2448832297382707 # 562949953421312.

Definition threeHundredths : Q := 1080863910568919 # 36028797018963968.

(** ** Further operations of the sources *)

(** [formatTime] of the timeline editor: hours, minutes, seconds and
    hundredths, on a binary64 value [seconds]. *)
Definition formatTime (seconds : Q) : string :=
  let h := Qfloor (round64 (seconds / 3600)) in
  let m := Qfloor (round64 (jsRem seconds 3600 / 60)) in
  let s := Qfloor (jsRem seconds 60) in
  let ms := Qfloor (round64 (jsRem seconds 1 * 100)) in
  padStart 2 (pretty h) +:+ ":" +:+ padStart 2 (pretty m) +:+ ":"
  +:+ padStart 2 (pretty s) +:+ "." +:+ padStart 2 (pretty ms).

(** The file name of an exported EDL:
    [name.replace(/[^a-z0-9]/gi, '_').toLowerCase()], then [_], the clock and
    [.edl].  A name is given by its code units below 256; without the [u]
    flag the class matches ASCII letters and digits only. *)
Definition isAlnum (c : ascii) : bool :=
  let n := N_of_ascii c in
  ((48 <=? n) && (n <=? 57) || (65 <=? n) && (n <=? 90)
   || (97 <=? n) && (n <=? 122))%N.

Definition toLowerCaseChar (c : ascii) : ascii :=
  let n := N_of_ascii c in
  if ((65 <=? n) && (n <=? 90)
      || (192 <=? n) && (n <=? 222) && negb (n =? 215))%N
  then ascii_of_N (n + 32)
  else c.

Fixpoint mapChars (f : ascii -> ascii) (s : string) : string :=
  match s with
  | EmptyString => EmptyString
  | String c rest => String (f c) (mapChars f rest)
  end.

Definition sanitizeName (name : string) : string :=
  mapChars toLowerCaseChar
    (mapChars (fun c => if isAlnum c then c else "_"%char) name).

Definition edlFileName (env : Env) (name : string) : string :=
  sanitizeName name +:+ "_" +:+ pretty (now env) +:+ ".edl".

(** Method [Timeline.addTrack]: the stored timeline and the new track. *)
Definition addTrack (env : Env) (type : option string) (tl : Timeline)
  : Timeline * Track :=
  let tracks0 := default [] (tracks tl) in
  let newTrack := {| track_id := "track-" +:+ pretty (now env);
                     track_type := default "video" type;
                     clips := [] |} in
  ({| tl_name := tl_name tl;
      framerate := framerate tl;
      tl_duration := tl_duration tl;
      tracks := Some (tracks0 ++ [newTrack]);
      modified := now env |}, newTrack).

(** [s.split(sep)] for a one-character separator. *)
Fixpoint splitOn (sep : ascii) (s : string) : list string :=
  match s with
  | EmptyString => [EmptyString]
  | String c rest =>
      if Ascii.eqb c sep then EmptyString :: splitOn sep rest
      else match splitOn sep rest with
           | seg :: segs => String c seg :: segs
           | [] => [String c EmptyString]
           end
  end.

(** The guard of [processMediaUpload]: the project id, the timeline id and
    the file name it goes on with, or [None] when it returns at once. *)
Definition processMediaUploadTarget (contentType filePath : string)
  : option (string * string * string) :=
  if negb (String.prefix "video/" contentType)
     && negb (String.prefix "audio/" contentType)
  then None
  else
    let pathSegments := splitOn "/" filePath in
    if (length pathSegments <? 6)%nat
       || negb (bool_decide (pathSegments !! 0%nat = Some "projects"))
       || negb (bool_decide (pathSegments !! 2%nat = Some "timelines"))
       || negb (bool_decide (pathSegments !! 4%nat = Some "media"))
    then None
    else
      match pathSegments !! 1%nat, pathSegments !! 3%nat, pathSegments !! 5%nat with
      | Some projectId, Some timelineId, Some fileName =>
          Some (projectId, timelineId, fileName)
      | _, _, _ => None
      end.

(** The zoom buttons of the editor; [pixelsPerSecond] starts at 50. *)
Definition zoomIn (pixelsPerSecond : Q) : Q := (pixelsPerSecond * (12 # 10))%Q.

Definition zoomOut (pixelsPerSecond : Q) : Q :=
  Qmax 10 (pixelsPerSecond / (12 # 10)).

Inductive ZoomButton : Type :=
  | ZoomInButton
  | ZoomOutButton.

Definition pressZoom (pixelsPerSecond : Q) (button : ZoomButton) : Q :=
  match button with
  | ZoomInButton => zoomIn pixelsPerSecond
  | ZoomOutButton => zoomOut pixelsPerSecond
  end.



(** *** The files of a cloud export

    The rest of [exportTimelineEDL], after the EDL text is generated: the
    temporary file, the upload to the bucket, the optional copy to Google
    Drive and the history record.  The file system is a map from paths to
    contents; the bucket upload and the signed URL are taken to succeed
    whenever the uploaded file exists.  What Google Drive answers is left
    to the environment: [driveAnswer] is given the file name, the folder and
    the content read from the path, [None] when no file is there. *)
Record ExportEnv : Type := {
  clock : Env;
  tmpdir : string;
  signedUrl : string -> string;
  driveAnswer : string -> string -> option string -> Outcome string
}.

Record ExportWorld : Type := {
  tempFiles : gmap string string;
  bucket : gmap string string;
  driveRequests : list (string * string * option string);
  exportHistory : list (string * string * option string)
}.

Record Destination : Type := {
  dest_type : string;
  dest_folderId : string
}.

Definition noSuchFile : string := "ENOENT: no such file or directory".

Definition writeFileSync (path content : string) (w : ExportWorld) : ExportWorld :=
  {| tempFiles := <[path := content]> (tempFiles w); bucket := bucket w;
     driveRequests := driveRequests w; exportHistory := exportHistory w |}.

Definition unlinkSync (path : string) (w : ExportWorld)
  : ExportWorld * Outcome unit :=
  match tempFiles w !! path with
  | Some _ =>
      ({| tempFiles := delete path (tempFiles w); bucket := bucket w;
          driveRequests := driveRequests w; exportHistory := exportHistory w |},
       Ok tt)
  | None => (w, Throw "Error" noSuchFile)
  end.

(** [bucket.upload(path, {destination})] *)
Definition bucketUpload (path destination : string) (w : ExportWorld)
  : ExportWorld * Outcome unit :=
  match tempFiles w !! path with
  | Some body =>
      ({| tempFiles := tempFiles w; bucket := <[destination := body]> (bucket w);
          driveRequests := driveRequests w; exportHistory := exportHistory w |},
       Ok tt)
  | None => (w, Throw "Error" noSuchFile)
  end.

(** [drive.files.create] with [fs.createReadStream(path)] as its body: the
    request is logged with the content found at [path]. *)
Definition driveCreate (xenv : ExportEnv) (path fileName folderId : string)
    (w : ExportWorld) : ExportWorld * Outcome string :=
  let body := tempFiles w !! path in
  ({| tempFiles := tempFiles w; bucket := bucket w;
      driveRequests := driveRequests w ++ [(folderId, fileName, body)];
      exportHistory := exportHistory w |},
   driveAnswer xenv fileName folderId body).

Definition saveToGoogleDrive (xenv : ExportEnv)
    (filePath fileName content folderId : string) (w : ExportWorld)
  : ExportWorld * Outcome string :=
  let cleanupTemp := String.eqb filePath EmptyString in
  let tempFilePath :=
    if cleanupTemp then tmpdir xenv +:+ "/" +:+ fileName else filePath in
  let w1 := if cleanupTemp then writeFileSync tempFilePath content w else w in
  match driveCreate xenv tempFilePath fileName folderId w1 with
  | (w2, Ok id) =>
      if cleanupTemp
      then match unlinkSync tempFilePath w2 with
           | (w3, Ok _) => (w3, Ok id)
           | (w3, Failure m) => (w3, Failure m)
           | (w3, Throw k m) => (w3, Throw k m)
           end
      else (w2, Ok id)
  | (w2, Failure m) => (w2, Failure m)
  | (w2, Throw k m) =>
      if cleanupTemp && bool_decide (is_Some (tempFiles w2 !! tempFilePath))
      then ((unlinkSync tempFilePath w2).1, Throw k m)
      else (w2, Throw k m)
  end.

Definition wantsDrive (destination : option Destination) : option string :=
  match destination with
  | Some d =>
      if String.eqb (dest_type d) "googleDrive"
         && negb (String.eqb (dest_folderId d) EmptyString)
      then Some (dest_folderId d)
      else None
  | None => None
  end.

Definition recordExport (format url : string) (driveFileId : option string)
    (w : ExportWorld) : ExportWorld :=
  {| tempFiles := tempFiles w; bucket := bucket w;
     driveRequests := driveRequests w;
     exportHistory := exportHistory w ++ [(format, url, driveFileId)] |}.

(** The steps after the [switch (format)], inside the [try]. *)
Definition storeExport (xenv : ExportEnv) (projectId timelineId format : string)
    (destination : option Destination) (tl : Timeline) (edlContent : string)
    (w : ExportWorld) : ExportWorld * Outcome (string * option string) :=
  let edlFileName := edlFileName (clock xenv) (tl_name tl) in
  let edlFilePath :=
    "projects/" +:+ projectId +:+ "/timelines/" +:+ timelineId +:+ "/exports/"
    +:+ edlFileName in
  let tempFilePath := tmpdir xenv +:+ "/" +:+ edlFileName in
  let w1 := writeFileSync tempFilePath edlContent w in
  match bucketUpload tempFilePath edlFilePath w1 with
  | (w2, Ok _) =>
      let downloadUrl := signedUrl xenv edlFilePath in
      match unlinkSync tempFilePath w2 with
      | (w3, Ok _) =>
          match wantsDrive destination with
          | Some folderId =>
              match saveToGoogleDrive xenv tempFilePath edlFileName edlContent
                      folderId w3 with
              | (w4, Ok id) =>
                  (recordExport format downloadUrl (Some id) w4,
                   Ok (downloadUrl, Some id))
              | (w4, Failure m) => (w4, Failure m)
              | (w4, Throw k m) => (w4, Throw k m)
              end
          | None =>
              (recordExport format downloadUrl None w3, Ok (downloadUrl, None))
          end
      | (w3, Failure m) => (w3, Failure m)
      | (w3, Throw k m) => (w3, Throw k m)
      end
  | (w2, Failure m) => (w2, Failure m)
  | (w2, Throw k m) => (w2, Throw k m)
  end.

(** [exportTimelineEDL] with its effects: the world it leaves and what it
    returns ([url] and [driveFileId]) or throws. *)
Definition exportTimelineEDLRun (xenv : ExportEnv) (projectId timelineId : string)
    (format : option string) (destination : option Destination)
    (tl : Timeline) (w : ExportWorld)
  : ExportWorld * Outcome (string * option string) :=
  match exportTimelineEDL format tl with
  | Ok edlContent =>
      let r := storeExport xenv projectId timelineId (default EmptyString format)
                 destination tl edlContent w in
      (r.1, catchInternal r.2)
  | Failure m => (w, Failure m)
  | Throw k m => (w, Throw k m)
  end.

(** ** Notions used by the further properties *)

(** [a] is dated no later than [b]; both dates are valid. *)
Definition notLater (time : Asset -> option Z) (a b : Asset) : Prop :=
  exists x y, time a = Some x /\ time b = Some y /\ (x <= y)%Z.

Definition withAddTransitions (b : bool) (opts : AssembleOptions)
  : AssembleOptions :=
  {| strategy := strategy opts; groupBy := groupBy opts;
     addTransitions := Some b |}.

(** A clip, a track and a timeline with every transition removed. *)
Definition plainCut (c : Clip) : Clip :=
  {| clip_id := clip_id c; assetId := assetId c;
     startTime := startTime c; endTime := endTime c;
     inPoint := inPoint c; outPoint := outPoint c;
     transitions := {| tr_in := None; tr_out := None |} |}.

Definition plainCutTrack (t : Track) : Track :=
  {| track_id := track_id t; track_type := track_type t;
     clips := plainCut <$> clips t |}.

Definition withoutTransitions (tl : Timeline) : Timeline :=
  {| tl_name := tl_name tl; framerate := framerate tl;
     tl_duration := tl_duration tl;
     tracks := (fun trs : list Track => plainCutTrack <$> trs) <$> tracks tl;
     modified := modified tl |}.

(** The text of one EDL event, and of the events of a clip sequence
    numbered from [n]. *)
Definition edlHeader (name : string) : string :=
  "TITLE: " +:+ name +:+ newline +:+ "FCM: NON-DROP FRAME" +:+ newline
  +:+ newline.

Definition eventBlock (fr : Q) (n : N) (c : Clip) : string :=
  padStart 3 (pretty n) +:+ "  AX       V     C        "
  +:+ formatTCNum fr (inPoint c) +:+ " " +:+ formatTCNum fr (outPoint c) +:+ " "
  +:+ formatTCNum fr (startTime c) +:+ " " +:+ formatTCNum fr (endTime c)
  +:+ newline
  +:+ "* FROM CLIP NAME: " +:+ assetId c +:+ newline +:+ newline.

Fixpoint eventBlocks (fr : Q) (n : N) (cs : list Clip) : string :=
  match cs with
  | [] => EmptyString
  | c :: rest => eventBlock fr n c +:+ eventBlocks fr (n + 1)%N rest
  end.

(** What the placement loop records for one asset: the asset id, the whole
    source ([inPoint = 0], [outPoint = clipDuration]), an [endTime] that is
    [startTime + clipDuration], and no [out] transition. *)
Definition clipOfAsset (c : Clip) (a : Asset) : Prop :=
  assetId c = asset_id a /\
  inPoint c = Fin 0 /\
  outPoint c = Fin (clipDuration a) /\
  tr_out (transitions c) = None /\
  exists s, startTime c = Fin s /\ endTime c = Fin (s + clipDuration a).

(** The time a timecode stands for: whole seconds plus [ff] frames. *)
Definition timecodeSeconds (fields : Z * Z * Z * Z) (fr : Q) : Q :=
  let '(hh, mm, ss, ff) := fields in
  (inject_Z (3600 * hh + 60 * mm + ss) + inject_Z ff / fr)%Q.

Definition renderDisplayTime (fields : Z * Z * Z * Z) : string :=
  let '(hh, mm, ss, cc) := fields in
  padStart 2 (pretty hh) +:+ ":" +:+ padStart 2 (pretty mm) +:+ ":"
  +:+ padStart 2 (pretty ss) +:+ "." +:+ padStart 2 (pretty cc).

Fixpoint allChars (p : ascii -> bool) (s : string) : bool :=
  match s with
  | EmptyString => true
  | String c rest => p c && allChars p rest
  end.

(** A lower-case ASCII letter, a digit or an underscore. *)
Definition fileNameChar (c : ascii) : bool :=
  let n := N_of_ascii c in
  ((48 <=? n) && (n <=? 57) || (97 <=? n) && (n <=? 122) || (n =? 95))%N.

Definition noSlash (s : string) : bool :=
  allChars (fun c => negb (Ascii.eqb c "/"%char)) s.

(** An object path of the storage bucket below a timeline. *)
Definition storagePath (projectId timelineId folder rest : string) : string :=
  "projects/" +:+ projectId +:+ "/timelines/" +:+ timelineId +:+ "/"
  +:+ folder +:+ "/" +:+ rest.

Definition datedAsset (name : string) (ms : Z) : Asset :=
  {| asset_id := name;
     uploadTime := None;
     metadata := {| duration := None; timestamp := TsAt ms;
                    tags := ∅; analysis := None |} |}.

Definition datedAssets : list Asset :=
  [ datedAsset "A" 1000; datedAsset "B" 1130; datedAsset "C" 1415;
    datedAsset "D" 900; datedAsset "E" 1130 ].

(** The world after the upload and the removal of the temporary file. *)
Definition afterUpload (tempFilePath edlFilePath text : string)
    (w : ExportWorld) : ExportWorld :=
  {| tempFiles := delete tempFilePath (<[tempFilePath := text]> (tempFiles w));
     bucket := <[edlFilePath := text]> (bucket w);
     driveRequests := driveRequests w;
     exportHistory := exportHistory w |}.

(** * Properties *)

(** ** Helper lemmas on numbers *)

Lemma truthyQ_false (q : Q) : truthyQ q = false <-> (q == 0)%Q.
Proof.
  unfold truthyQ. rewrite negb_false_iff. apply Qeq_bool_iff.
Qed.

Lemma truthyQ_true (q : Q) : truthyQ q = true <-> ~ (q == 0)%Q.
Proof.
  rewrite <- truthyQ_false. destruct (truthyQ q); split; congruence.
Qed.

Lemma clipDuration_resolved (a : Asset) :
  wellFormedAsset a -> clipDuration a = resolvedDuration a.
Proof.
  unfold wellFormedAsset, clipDuration, resolvedDuration, orDefault.
  destruct (duration (metadata a)) as [d|]; [|reflexivity].
  intros Hd. destruct (truthyQ d) eqn:Ht, (Qlt_le_dec 0 d) as [Hlt|Hle];
    try reflexivity.
  - apply truthyQ_true in Ht. exfalso. apply Ht. lra.
  - apply truthyQ_false in Ht. lra.
Qed.

(** Outside the data model the two notions part: a negative duration is
    truthy, so the placement loop keeps it. *)
Lemma negative_duration_is_kept :
  clipDuration (plainAsset "A" (Some (-3)%Q)) = (-3)%Q /\
  resolvedDuration (plainAsset "A" (Some (-3)%Q)) = 5%Q.
Proof. split; reflexivity. Qed.

Lemma resolvedDuration_pos (a : Asset) : (0 < resolvedDuration a)%Q.
Proof.
  unfold resolvedDuration. destruct (duration (metadata a)) as [d|]; [|lra].
  destruct (Qlt_le_dec 0 d); lra.
Qed.

Lemma clipDuration_pos (a : Asset) : wellFormedAsset a -> (0 < clipDuration a)%Q.
Proof.
  intros Hwf. rewrite (clipDuration_resolved a Hwf). apply resolvedDuration_pos.
Qed.

(** ** The placement loop *)

Section placement.
Context (env : Env) (td : Q -> Q) (b : bool).

Lemma fold_placeStep (assets : list Asset) (cs : list Clip) (t : Q) :
  fold_left (placeStep env td b) assets (cs, t) =
  (cs ++ placedFrom env td b (length cs) t assets,
   fold_left (fun acc a => (acc + clipDuration a)%Q) assets t).
Proof.
  revert cs t. induction assets as [|a rest IH]; intros cs t; simpl.
  - by rewrite app_nil_r.
  - destruct (placeStep env td b (cs, t) a) as [cs' t'] eqn:E.
    unfold placeStep in E. simpl in E. injection E as <- <-.
    rewrite IH, length_app, <- app_assoc. simpl.
    by rewrite Nat.add_1_r.
Qed.

Lemma placeClips_unfold (assets : list Asset) :
  placeClips env td b assets =
  (placedFrom env td b 0 0 assets,
   fold_left (fun acc a => (acc + clipDuration a)%Q) assets 0%Q).
Proof. unfold placeClips. by rewrite fold_placeStep. Qed.

Lemma running_time_sum (assets : list Asset) (t : Q) :
  (fold_left (fun acc a => acc + clipDuration a) assets t
   == t + Qsum (clipDuration <$> assets))%Q.
Proof.
  revert t. induction assets as [|a rest IH]; intros t.
  - cbn [fold_left fmap list_fmap Qsum foldr]. lra.
  - cbn [fold_left]. rewrite IH. rewrite fmap_cons. unfold Qsum. cbn [foldr].
    fold (Qsum (clipDuration <$> rest)). lra.
Qed.

Lemma Qsum_resolved (assets : list Asset) :
  Forall wellFormedAsset assets ->
  clipDuration <$> assets = resolvedDuration <$> assets.
Proof.
  induction 1 as [|a rest Ha _ IH]; [reflexivity|].
  by rewrite !fmap_cons, IH, (clipDuration_resolved a Ha).
Qed.

Lemma Qsum_perm (l1 l2 : list Q) : l1 ≡ₚ l2 -> (Qsum l1 == Qsum l2)%Q.
Proof.
  unfold Qsum. induction 1; cbn [foldr]; lra.
Qed.

Lemma lastEndTime_placedFrom n t (assets : list Asset) :
  assets <> [] ->
  lastEndTime (placedFrom env td b n t assets) =
  Fin (fold_left (fun acc a => (acc + clipDuration a)%Q) assets t).
Proof.
  revert n t. induction assets as [|a rest IH]; intros n t Hne; [done|].
  destruct rest as [|a' rest'].
  - reflexivity.
  - specialize (IH (S n) (t + clipDuration a)%Q ltac:(done)).
    unfold lastEndTime in *. simpl in *. exact IH.
Qed.

Lemma assetId_placedFrom n t (assets : list Asset) :
  assetId <$> placedFrom env td b n t assets = asset_id <$> assets.
Proof.
  revert n t. induction assets as [|a rest IH]; intros n t; [done|].
  cbn [placedFrom]. by rewrite !fmap_cons, IH.
Qed.

Lemma placement_duration (assets : list Asset) :
  Forall wellFormedAsset assets ->
  ((placeClips env td b assets).2 == Qsum (resolvedDuration <$> assets))%Q /\
  lastEndTime (placeClips env td b assets).1 = Fin (placeClips env td b assets).2.
Proof.
  intros Hwf. rewrite placeClips_unfold. cbn [fst snd]. split.
  - rewrite running_time_sum, (Qsum_resolved _ Hwf). lra.
  - destruct assets as [|a rest]; [reflexivity|].
    by apply lastEndTime_placedFrom.
Qed.

Lemma placedFrom_bounds n t (assets : list Asset) c :
  Forall wellFormedAsset assets ->
  c ∈ placedFrom env td b n t assets ->
  exists s e, startTime c = Fin s /\ endTime c = Fin e /\
              (t <= s)%Q /\ (s <= e)%Q.
Proof.
  intros Hwf. revert n t.
  induction Hwf as [|a rest Ha _ IH]; intros n t Hin; cbn [placedFrom] in Hin.
  - by apply elem_of_nil in Hin.
  - pose proof (clipDuration_pos a Ha) as Hd.
    apply elem_of_cons in Hin as [->|Hin].
    + exists t, (t + clipDuration a)%Q. simpl. split_and!; try done; lra.
    + destruct (IH _ _ Hin) as (s & e & Hs & He & Hts & Hse).
      exists s, e. split_and!; try done. lra.
Qed.

Lemma placedFrom_chain n t (assets : list Asset) i j c1 c2 :
  Forall wellFormedAsset assets ->
  (i < j)%nat ->
  placedFrom env td b n t assets !! i = Some c1 ->
  placedFrom env td b n t assets !! j = Some c2 ->
  jsLe (endTime c1) (startTime c2).
Proof.
  intros Hwf. revert n t i j.
  induction Hwf as [|a rest Ha Hrest IH]; intros n t i j Hij H1 H2;
    cbn [placedFrom] in *; [done|].
  destruct j as [|j]; [lia|]. cbn in H2.
  destruct i as [|i]; cbn in H1.
  - injection H1 as <-.
    apply list_elem_of_lookup_2 in H2.
    destruct (placedFrom_bounds _ _ _ _ Hrest H2) as (s & e & Hs & _ & Hts & _).
    rewrite Hs. simpl. exact Hts.
  - eapply (IH _ _ i j); [lia|done..].
Qed.

Lemma placedFrom_lookup n t (assets : list Asset) k c a :
  placedFrom env td b n t assets !! k = Some c ->
  assets !! k = Some a ->
  assetId c = asset_id a /\
  outPoint c = Fin (clipDuration a) /\
  tr_out (transitions c) = None /\
  tr_in (transitions c) =
    if b && (0 <? n + k)%nat
    then Some {| tr_type := "dissolve"; tr_duration := td (clipDuration a) |}
    else None.
Proof.
  revert n t k. induction assets as [|a' rest IH]; intros n t k Hc Ha; [done|].
  cbn [placedFrom] in Hc. destruct k as [|k]; cbn in Hc, Ha.
  - injection Hc as <-. injection Ha as <-. rewrite Nat.add_0_r. by simpl.
  - replace (n + S k)%nat with (S n + k)%nat by lia. by eapply IH.
Qed.

Lemma length_placedFrom n t (assets : list Asset) :
  length (placedFrom env td b n t assets) = length assets.
Proof.
  revert n t. induction assets as [|a rest IH]; intros n t; [done|].
  cbn [placedFrom length]. by rewrite IH.
Qed.

End placement.

(** ** Ordering and grouping keep every asset exactly once *)

Lemma insertSorted_perm {A} (gt : A -> A -> bool) (x : A) (l : list A) :
  insertSorted gt x l ≡ₚ x :: l.
Proof.
  induction l as [|y l IH]; simpl; [done|].
  destruct (gt x y); [|done].
  rewrite IH. apply Permutation_swap.
Qed.

Lemma sortBy_perm {A} (gt : A -> A -> bool) (l : list A) : sortBy gt l ≡ₚ l.
Proof.
  unfold sortBy. induction l as [|x l IH]; simpl; [done|].
  by rewrite insertSorted_perm, IH.
Qed.

Lemma sortAssets_perm time strategy (assets : list Asset) :
  sortAssets time strategy assets ≡ₚ assets.
Proof.
  unfold sortAssets. destruct strategy as [s|]; [|done].
  destruct (String.eqb s "chronological"); [apply sortBy_perm|].
  by destruct (String.eqb s "semantic").
Qed.

Lemma concat_setProperty_push {V} (k : string) (x : V) (members : list V)
    (o : list (string * list V)) :
  ownProperty k o = Some members ->
  concat (setProperty k (members ++ [x]) o).*2 ≡ₚ concat o.*2 ++ [x].
Proof.
  induction o as [|[k' v'] o IH]; simpl; [done|].
  destruct (String.eqb k k').
  - intros [= ->]. simpl. rewrite <- !app_assoc.
    apply Permutation_app_head, Permutation_app_comm.
  - intros H. simpl. rewrite (IH H). by rewrite app_assoc.
Qed.

Lemma concat_setProperty_new {V} (k : string) (x : V)
    (o : list (string * list V)) :
  ownProperty k o = None ->
  concat (setProperty k [x] o).*2 ≡ₚ concat o.*2 ++ [x].
Proof.
  induction o as [|[k' v'] o IH]; simpl; [done|].
  destruct (String.eqb k k'); [done|].
  intros H. simpl. rewrite (IH H). by rewrite app_assoc.
Qed.

Lemma groupLoop_perm key (assets : list Asset) groups groups' :
  groupLoop key groups assets = Ok groups' ->
  concat groups'.*2 ≡ₚ concat groups.*2 ++ assets.
Proof.
  revert groups. induction assets as [|a rest IH]; intros groups; simpl.
  - intros [= <-]. by rewrite app_nil_r.
  - destruct (ownProperty (key a) groups) as [members|] eqn:Hown.
    + intros H. rewrite (IH _ H), (concat_setProperty_push _ _ _ _ Hown).
      by rewrite <- app_assoc.
    + destruct (inheritedKey (key a)); [done|].
      intros H. rewrite (IH _ H), (concat_setProperty_new _ _ _ Hown).
      by rewrite <- app_assoc.
Qed.

Lemma concat_insertIndexed {V} (i : N) (v : list V) (l : list (N * list V)) :
  concat (insertIndexed i v l).*2 ≡ₚ v ++ concat l.*2.
Proof.
  induction l as [|[j w] l IH]; simpl; [done|].
  destruct (i <? j)%N; simpl; [done|].
  rewrite IH, !app_assoc. apply Permutation_app_tail, Permutation_app_comm.
Qed.

Lemma concat_objectValues {V} (o : list (string * list V)) :
  concat (objectValues o) ≡ₚ concat o.*2.
Proof.
  unfold objectValues, indexedEntries, namedEntries.
  induction o as [|[k v] o IH]; [done|].
  rewrite filter_cons. cbn [foldr fst snd].
  destruct (arrayIndex k) as [i|] eqn:Hk.
  - rewrite decide_False by done.
    rewrite concat_app, concat_insertIndexed, <- app_assoc, <- concat_app, IH.
    done.
  - rewrite decide_True by done.
    rewrite fmap_cons, concat_app, concat_cons. cbn [snd].
    rewrite app_assoc, (Permutation_app_comm _ v), <- app_assoc, <- concat_app.
    by rewrite IH.
Qed.

Lemma groupAssets_perm key groupBy (sorted placed : list Asset) :
  groupAssets key groupBy sorted = Ok placed -> placed ≡ₚ sorted.
Proof.
  unfold groupAssets. destruct groupBy as [g|]; [|by intros [= <-]].
  destruct (String.eqb g EmptyString); [by intros [= <-]|].
  destruct (groupLoop (key g) [] sorted) as [groups| |] eqn:Hloop; simpl; try done.
  intros [= <-]. rewrite concat_objectValues.
  by rewrite (groupLoop_perm _ _ _ _ Hloop).
Qed.

(** ** What a successful assembly returns *)

Lemma autoAssembleTimeline_Ok env tl (assets : list Asset) opts tl' :
  autoAssembleTimeline env tl assets opts = Ok tl' ->
  exists placed,
    placed ≡ₚ assets /\
    groupAssets cloudGroupKey (groupBy opts)
      (sortAssets cloudTime (strategy opts) assets) = Ok placed /\
    tl' = applyAssembly env tl
            (placeClips env clampedTransition
               (default false (addTransitions opts)) placed).
Proof.
  unfold autoAssembleTimeline. case_bool_decide; [done|].
  destruct (groupAssets _ _ _) as [placed| |] eqn:Hg; simpl; try done.
  intros [= <-]. exists placed. split_and!; [|done..].
  by rewrite (groupAssets_perm _ _ _ _ Hg), sortAssets_perm.
Qed.

Lemma autoAssemble_Ok env tl (assets : list Asset) opts tl' :
  autoAssemble env tl assets opts = Ok tl' ->
  exists placed,
    placed ≡ₚ assets /\
    groupAssets clientGroupKey (Some (default "scene" (groupBy opts)))
      (sortAssets clientTime
         (Some (default "chronological" (strategy opts))) assets) = Ok placed /\
    tl' = applyAssembly env tl
            (placeClips env flatTransition
               (default false (addTransitions opts)) placed).
Proof.
  unfold autoAssemble. case_bool_decide; [done|].
  destruct (groupAssets _ _ _) as [placed| |] eqn:Hg; simpl; try done.
  intros [= <-]. exists placed. split_and!; [|done..].
  by rewrite (groupAssets_perm _ _ _ _ Hg), sortAssets_perm.
Qed.

(** Either assembly path, once it has returned a timeline, placed some
    rearrangement [placed] of the assets. *)
Ltac invert_assembly H placed Hperm :=
  destruct H as [H|H];
  [ apply autoAssembleTimeline_Ok in H as (placed & Hperm & _ & ->)
  | apply autoAssemble_Ok in H as (placed & Hperm & _ & ->) ].

Lemma allClips_applyAssembly env tl (r : list Clip * Q) :
  allClips (applyAssembly env tl r) = r.1.
Proof. unfold allClips. simpl. by rewrite app_nil_r. Qed.

(** C1. With [addTransitions = false], the duration of the assembled
    timeline is the sum, in placement order, of the resolved durations of
    the assets ([metadata.duration] when present and [> 0], else 5), and it
    is the [endTime] of the last placed clip (0 for an empty sequence).
    The first part is the placement loop on any sequence, the second part
    the timeline returned by [autoAssembleTimeline] or by
    [Timeline.autoAssemble], whose placement order is a rearrangement of
    the assets.  Assets obey the data model: a duration is never negative. *)
Theorem assembled_duration_is_sum env tl (assets : list Asset) opts
    (Hwf : Forall wellFormedAsset assets)
    (Hno : default false (addTransitions opts) = false) :
  (forall td,
     ((placeClips env td false assets).2
      == Qsum (resolvedDuration <$> assets))%Q /\
     lastEndTime (placeClips env td false assets).1
     = Fin (placeClips env td false assets).2) /\
  (forall tl',
     autoAssembleTimeline env tl assets opts = Ok tl' \/
     autoAssemble env tl assets opts = Ok tl' ->
     exists placed,
       placed ≡ₚ assets /\
       assetId <$> allClips tl' = asset_id <$> placed /\
       (tl_duration tl' == Qsum (resolvedDuration <$> placed))%Q /\
       lastEndTime (allClips tl') = Fin (tl_duration tl')).
Proof.
  split; [intros td; by apply placement_duration|].
  intros tl' Hrun.
  assert (exists td placed, placed ≡ₚ assets /\
            tl' = applyAssembly env tl (placeClips env td false placed))
    as (td & placed & Hperm & ->).
  { invert_assembly Hrun placed Hp; rewrite Hno; by eexists _, placed. }
  exists placed. split; [done|].
  assert (Forall wellFormedAsset placed) as Hwf'.
  { eapply Permutation_Forall; [symmetry; exact Hperm|exact Hwf]. }
  rewrite allClips_applyAssembly.
  destruct (placement_duration env td false placed Hwf') as [Hsum Hlast].
  split_and!; [|done..].
  rewrite placeClips_unfold. apply assetId_placedFrom.
Qed.

(** ** Non-overlap of the placed clips *)

(** C2. In every timeline produced by assembly, two distinct clips of a
    track never overlap (one ends no later than the other starts), and the
    clips of a track are stored in ascending order of [startTime].  Assets
    obey the data model: a duration is never negative. *)
Theorem assembled_clips_do_not_overlap env tl (assets : list Asset) opts tl'
    (Hwf : Forall wellFormedAsset assets)
    (Hrun : autoAssembleTimeline env tl assets opts = Ok tl' \/
            autoAssemble env tl assets opts = Ok tl') :
  forall track, track ∈ default [] (tracks tl') ->
    nonOverlapping (clips track) /\ sortedByStartTime (clips track).
Proof.
  assert (exists td b placed, Forall wellFormedAsset placed /\
            tl' = applyAssembly env tl (placeClips env td b placed))
    as (td & b & placed & Hwf' & ->).
  { invert_assembly Hrun placed Hp; eexists _, _, placed; (split; [|done]);
      (eapply Permutation_Forall; [symmetry; exact Hp|exact Hwf]). }
  intros track Hin. simpl in Hin. apply list_elem_of_singleton in Hin as ->.
  cbn [clips]. rewrite placeClips_unfold. cbn [fst].
  assert (forall i j c1 c2, (i < j)%nat ->
            placedFrom env td b 0 0 placed !! i = Some c1 ->
            placedFrom env td b 0 0 placed !! j = Some c2 ->
            jsLe (endTime c1) (startTime c2)) as Hchain.
  { intros i j c1 c2. by apply placedFrom_chain. }
  split.
  - intros i j c1 c2 Hne H1 H2.
    destruct (Nat.lt_total i j) as [Hlt|[->|Hlt]]; [|done|].
    + left. by apply (Hchain i j).
    + right. by apply (Hchain j i).
  - intros i j c1 c2 Hlt H1 H2.
    pose proof (Hchain i j c1 c2 Hlt H1 H2) as Hle.
    apply list_elem_of_lookup_2 in H1.
    destruct (placedFrom_bounds _ _ _ _ _ _ _ Hwf' H1)
      as (s & e & Hs & He & _ & Hse).
    rewrite Hs. rewrite He in Hle.
    destruct (startTime c2) as [s2|]; simpl in *; [lra|done].
Qed.

Lemma assembled_duration_is_sum_witness :
  Forall wellFormedAsset twoAssets /\
  default false (addTransitions (options None None false)) = false /\
  exists tl',
    autoAssembleTimeline sampleEnv emptyTimeline twoAssets
      (options None None false) = Ok tl' /\
    exists placed,
      placed ≡ₚ twoAssets /\
      assetId <$> allClips tl' = asset_id <$> placed /\
      (tl_duration tl' == Qsum (resolvedDuration <$> placed))%Q /\
      lastEndTime (allClips tl') = Fin (tl_duration tl').
Proof.
  assert (Forall wellFormedAsset twoAssets) as Hwf.
  { constructor; [unfold wellFormedAsset; simpl; lra|].
    constructor; [exact I|]. constructor. }
  split; [exact Hwf|]. split; [reflexivity|].
  eexists. split; [vm_compute; reflexivity|].
  apply (proj2 (assembled_duration_is_sum sampleEnv emptyTimeline twoAssets
                  (options None None false) Hwf eq_refl)).
  left. vm_compute. reflexivity.
Defined.

Lemma assembled_clips_do_not_overlap_witness :
  Forall wellFormedAsset twoAssets /\
  exists tl',
    autoAssemble sampleEnv emptyTimeline twoAssets (options None None true)
    = Ok tl' /\
    forall track, track ∈ default [] (tracks tl') ->
      nonOverlapping (clips track) /\ sortedByStartTime (clips track).
Proof.
  assert (Forall wellFormedAsset twoAssets) as Hwf.
  { constructor; [unfold wellFormedAsset; simpl; lra|].
    constructor; [exact I|]. constructor. }
  split; [exact Hwf|].
  eexists. split; [vm_compute; reflexivity|].
  apply (assembled_clips_do_not_overlap sampleEnv emptyTimeline twoAssets
           (options None None true) _ Hwf).
  right. vm_compute. reflexivity.
Defined.

(** ** Transitions *)

(** The cloud function follows the clamped policy: under
    [addTransitions = true] the first clip has no [in] transition, every
    later clip has a dissolve of [min(1, clipDuration / 4)], and no clip has
    an [out] transition. *)
Lemma autoAssembleTimeline_transitions env tl (assets : list Asset) opts tl' :
  addTransitions opts = Some true ->
  autoAssembleTimeline env tl assets opts = Ok tl' ->
  exists placed,
    placed ≡ₚ assets /\
    length (allClips tl') = length placed /\
    forall k c a,
      allClips tl' !! k = Some c -> placed !! k = Some a ->
      outPoint c = Fin (clipDuration a) /\
      tr_out (transitions c) = None /\
      tr_in (transitions c) =
        match k with
        | O => None
        | S _ => Some {| tr_type := "dissolve";
                         tr_duration := Qmin 1 (clipDuration a / 4) |}
        end.
Proof.
  intros Hadd Hrun.
  apply autoAssembleTimeline_Ok in Hrun as (placed & Hperm & _ & ->).
  exists placed. rewrite allClips_applyAssembly, placeClips_unfold, Hadd.
  cbn [fst default]. split; [done|]. split; [apply length_placedFrom|].
  intros k c a Hc Ha.
  destruct (placedFrom_lookup _ _ _ _ _ _ _ _ _ Hc Ha) as (_ & Hout & Hto & Hti).
  split_and!; [done..|]. rewrite Hti. by destruct k.
Qed.

(** The client method applies the flat policy: every clip after the first
    gets a dissolve of one second, whatever its duration. *)
Lemma autoAssemble_transitions env tl (assets : list Asset) opts tl' :
  addTransitions opts = Some true ->
  autoAssemble env tl assets opts = Ok tl' ->
  exists placed,
    placed ≡ₚ assets /\
    length (allClips tl') = length placed /\
    forall k c a,
      allClips tl' !! k = Some c -> placed !! k = Some a ->
      outPoint c = Fin (clipDuration a) /\
      tr_out (transitions c) = None /\
      tr_in (transitions c) =
        match k with
        | O => None
        | S _ => Some {| tr_type := "dissolve"; tr_duration := 1 |}
        end.
Proof.
  intros Hadd Hrun.
  apply autoAssemble_Ok in Hrun as (placed & Hperm & _ & ->).
  exists placed. rewrite allClips_applyAssembly, placeClips_unfold, Hadd.
  cbn [fst default]. split; [done|]. split; [apply length_placedFrom|].
  intros k c a Hc Ha.
  destruct (placedFrom_lookup _ _ _ _ _ _ _ _ _ Hc Ha) as (_ & Hout & Hto & Hti).
  split_and!; [done..|]. rewrite Hti. by destruct k.
Qed.

(** C3 (client path). [Timeline.autoAssemble] with [addTransitions = true]
    over two assets of 2 seconds gives the second clip a dissolve of 1
    second, whereas [min(1, clipDuration / 4)] is half a second: the method
    applies a flat duration where [autoAssembleTimeline] clamps. *)
Theorem autoAssemble_transition_not_clamped :
  exists tl' c,
    autoAssemble sampleEnv emptyTimeline shortAssets (options None None true)
    = Ok tl' /\
    allClips tl' !! 1%nat = Some c /\
    outPoint c = Fin 2 /\
    tr_in (transitions c) = Some {| tr_type := "dissolve"; tr_duration := 1 |} /\
    (clampedTransition 2 == 1 # 2)%Q /\
    ~ (1 == clampedTransition 2)%Q.
Proof.
  eexists _, _. split; [vm_compute; reflexivity|].
  split; [reflexivity|]. split; [reflexivity|]. split; [reflexivity|].
  split; [reflexivity|]. intros H. vm_compute in H. discriminate H.
Qed.

(** ** Grouping *)

Lemma elem_of_firstAppearances (ks : list string) (k : string) :
  k ∈ firstAppearances ks <-> k ∈ ks.
Proof.
  induction ks as [|k0 ks IH]; cbn [firstAppearances]; [done|].
  rewrite !elem_of_cons, list_elem_of_filter, IH.
  destruct (decide (k = k0)); tauto.
Qed.

Lemma NoDup_firstAppearances (ks : list string) : NoDup (firstAppearances ks).
Proof.
  induction ks as [|k0 ks IH]; cbn [firstAppearances]; [constructor|].
  constructor; [|by apply NoDup_filter].
  rewrite list_elem_of_filter. tauto.
Qed.

Lemma firstAppearances_snoc (ks : list string) (k : string) :
  firstAppearances (ks ++ [k]) =
  if decide (k ∈ ks) then firstAppearances ks else firstAppearances ks ++ [k].
Proof.
  induction ks as [|k0 ks IH]; [done|].
  cbn [app firstAppearances]. rewrite IH.
  destruct (decide (k ∈ ks)) as [Hin|Hnin].
  - rewrite decide_True; [done|]. by right.
  - rewrite filter_app, filter_cons, filter_nil.
    destruct (decide (k = k0)) as [->|Hne].
    + rewrite decide_False by tauto.
      rewrite decide_True by left. by rewrite app_nil_r.
    + rewrite decide_True by done.
      rewrite decide_False; [done|].
      rewrite elem_of_cons. tauto.
Qed.

Lemma ownProperty_keyed {V} (f : string -> V) (ks : list string) (k : string) :
  ownProperty k ((fun k' => (k', f k')) <$> ks) =
  if decide (k ∈ ks) then Some (f k) else None.
Proof.
  induction ks as [|k0 ks IH]; [done|].
  rewrite fmap_cons. cbn [ownProperty].
  destruct (String.eqb_spec k k0) as [->|Hne].
  - by rewrite decide_True by left.
  - rewrite IH. destruct (decide (k ∈ ks)) as [Hin|Hnin].
    + by rewrite decide_True by (by right).
    + rewrite decide_False; [done|]. rewrite elem_of_cons. tauto.
Qed.

Lemma setProperty_keyed_new {V} (f : string -> V) (ks : list string) k v :
  k ∉ ks ->
  setProperty k v ((fun k' => (k', f k')) <$> ks) =
  ((fun k' => (k', f k')) <$> ks) ++ [(k, v)].
Proof.
  induction ks as [|k0 ks IH]; intros Hnin; [done|].
  rewrite fmap_cons. cbn [setProperty].
  apply not_elem_of_cons in Hnin as [Hne Hnin].
  destruct (String.eqb_spec k k0) as [->|_]; [done|].
  by rewrite IH.
Qed.

Lemma setProperty_keyed_old {V} (f : string -> V) (ks : list string) k v :
  NoDup ks -> k ∈ ks ->
  setProperty k v ((fun k' => (k', f k')) <$> ks) =
  (fun k' => (k', if decide (k' = k) then v else f k')) <$> ks.
Proof.
  induction 1 as [|k0 ks Hk0 Hnd IH]; intros Hin; [by apply elem_of_nil in Hin|].
  rewrite !fmap_cons. cbn [setProperty].
  destruct (String.eqb_spec k k0) as [->|Hne].
  - rewrite decide_True by done. f_equal.
    apply list_fmap_ext. intros i k' Hk'.
    rewrite decide_False; [done|].
    intros ->. apply Hk0. by eapply list_elem_of_lookup_2.
  - rewrite decide_False by done. f_equal. apply IH.
    apply elem_of_cons in Hin as [?|?]; done.
Qed.

Lemma filter_key_absent (key : Asset -> string) (l : list Asset) (k : string) :
  k ∉ key <$> l -> filter (fun a => key a = k) l = [].
Proof.
  induction l as [|a l IH]; [done|].
  rewrite fmap_cons, not_elem_of_cons, filter_cons. intros [Hne Hnin].
  rewrite decide_False by done. by apply IH.
Qed.

(** One pass of the grouping loop when no key collides with
    [Object.prototype]. *)
Lemma groupsOf_snoc key (l : list Asset) (a : Asset) :
  groupsOf key (l ++ [a]) =
  match ownProperty (key a) (groupsOf key l) with
  | Some members => setProperty (key a) (members ++ [a]) (groupsOf key l)
  | None => setProperty (key a) [a] (groupsOf key l)
  end.
Proof.
  unfold groupsOf. rewrite ownProperty_keyed, fmap_app. cbn [fmap list_fmap].
  rewrite firstAppearances_snoc.
  destruct (decide (key a ∈ firstAppearances (key <$> l))) as [Hin|Hnin].
  - rewrite decide_True by (by apply elem_of_firstAppearances).
    rewrite setProperty_keyed_old by (done || apply NoDup_firstAppearances).
    apply list_fmap_ext. intros i k _. f_equal.
    rewrite filter_app, filter_cons, filter_nil.
    destruct (decide (k = key a)) as [->|Hne].
    + by rewrite decide_True by done.
    + rewrite decide_False by done. by rewrite app_nil_r.
  - rewrite decide_False by (by rewrite <- elem_of_firstAppearances).
    rewrite setProperty_keyed_new by done.
    rewrite fmap_app. cbn [fmap list_fmap]. f_equal.
    + apply list_fmap_ext. intros i k Hk. f_equal.
      rewrite filter_app, filter_cons, filter_nil.
      rewrite decide_False; [by rewrite app_nil_r|].
      intros Heq. apply Hnin. rewrite Heq. by eapply list_elem_of_lookup_2.
    + do 2 f_equal.
      rewrite filter_app, filter_cons, filter_nil, decide_True by done.
      rewrite filter_key_absent; [done|].
      by rewrite <- elem_of_firstAppearances.
Qed.

Lemma groupLoop_ordinary key (seen rest : list Asset) :
  (forall a, a ∈ rest -> inheritedKey (key a) = false) ->
  groupLoop key (groupsOf key seen) rest = Ok (groupsOf key (seen ++ rest)).
Proof.
  revert seen. induction rest as [|a rest IH]; intros seen Hkeys.
  - by rewrite app_nil_r.
  - cbn [groupLoop].
    rewrite (Hkeys a) by left.
    replace (seen ++ a :: rest) with ((seen ++ [a]) ++ rest)
      by (by rewrite <- app_assoc).
    rewrite <- IH by (intros a' Ha'; apply Hkeys; by right).
    rewrite groupsOf_snoc.
    by destruct (ownProperty (key a) (groupsOf key seen)).
Qed.

Lemma objectValues_named {V} (o : list (string * V)) :
  Forall (fun kv => arrayIndex kv.1 = None) o -> objectValues o = o.*2.
Proof.
  intros Hnamed.
  assert (indexedEntries o = [] /\ namedEntries o = o) as [Hi Hn].
  { unfold indexedEntries, namedEntries.
    induction Hnamed as [|[k v] o Hk _ [IHi IHn]]; [done|].
    rewrite filter_cons, decide_True by done.
    cbn [foldr fst]. cbn [fst] in Hk. by rewrite Hk, IHi, IHn. }
  unfold objectValues. by rewrite Hi, Hn.
Qed.

(** Where every group key is an ordinary name (neither an array index nor
    a property of [Object.prototype]) the grouping step is the stable
    partition of the specification: groups in order of first appearance,
    members in input order. *)
Lemma grouping_by_first_appearance key (g : string) (l : list Asset) :
  g <> EmptyString ->
  (forall a, a ∈ l ->
     inheritedKey (key g a) = false /\ arrayIndex (key g a) = None) ->
  groupAssets key (Some g) l = Ok (groupByFirstAppearance (key g) l).
Proof.
  intros Hg Hkeys. unfold groupAssets.
  destruct (String.eqb_spec g EmptyString) as [?|_]; [done|].
  change (@nil (string * list Asset)) with (groupsOf (key g) []).
  rewrite groupLoop_ordinary by (intros a Ha; by apply Hkeys).
  cbn [bindO app]. unfold groupByFirstAppearance.
  rewrite objectValues_named; [done|].
  unfold groupsOf. apply Forall_fmap, Forall_forall. intros k Hk. cbn.
  apply elem_of_firstAppearances, list_elem_of_fmap in Hk as (a & -> & Ha).
  by apply Hkeys.
Qed.

(** Assembly returns a timeline for every non-empty asset list none of
    whose group keys collides with [Object.prototype]. *)
Lemma groupAssets_succeeds key groupBy (l : list Asset) :
  (forall g a, a ∈ l -> inheritedKey (key g a) = false) ->
  succeeded (groupAssets key groupBy l) = true.
Proof.
  intros Hkeys. unfold groupAssets. destruct groupBy as [g|]; [|done].
  destruct (String.eqb g EmptyString); [done|].
  change (@nil (string * list Asset)) with (groupsOf (key g) []).
  by rewrite groupLoop_ordinary by (intros a Ha; by apply Hkeys).
Qed.

Lemma assembly_succeeds env tl (assets : list Asset) opts :
  assets <> [] ->
  (forall g a, a ∈ assets ->
     inheritedKey (cloudGroupKey g a) = false /\
     inheritedKey (clientGroupKey g a) = false) ->
  succeeded (autoAssembleTimeline env tl assets opts) = true /\
  succeeded (autoAssemble env tl assets opts) = true.
Proof.
  intros Hne Hkeys. unfold autoAssembleTimeline, autoAssemble.
  rewrite !bool_decide_eq_false_2 by (by destruct assets).
  split.
  - pose proof (groupAssets_succeeds cloudGroupKey (groupBy opts)
                  (sortAssets cloudTime (strategy opts) assets)) as Hg.
    destruct (groupAssets cloudGroupKey _ _); [done|..];
      apply Hg; intros g a Ha; rewrite sortAssets_perm in Ha; by apply Hkeys.
  - pose proof (groupAssets_succeeds clientGroupKey
                  (Some (default "scene" (groupBy opts)))
                  (sortAssets clientTime
                     (Some (default "chronological" (strategy opts))) assets))
      as Hg.
    destruct (groupAssets clientGroupKey _ _); [done|..];
      apply Hg; intros g a Ha; rewrite sortAssets_perm in Ha; by apply Hkeys.
Qed.

(** Without a [groupBy] key the grouping step returns its input. *)
Lemma grouping_absent_is_identity key (l : list Asset) :
  groupAssets key None l = Ok l.
Proof. reflexivity. Qed.

(** The interleaved example of the specification:
    [A(scene=x), B(scene=y), C(scene=x)] groups to [A, C, B]. *)
Lemma grouping_interleaved_example :
  asset_id <$$> groupAssets cloudGroupKey (Some "scene") interleavedScenes
  = Ok ["A"; "C"; "B"] /\
  asset_id <$$> groupAssets clientGroupKey (Some "scene") interleavedScenes
  = Ok ["A"; "C"; "B"].
Proof. split; vm_compute; reflexivity. Qed.

(** C4 (numeric group keys). For [A(scene=2), B(scene=1)] the grouping
    step of both assembly paths returns [B, A], while the groups in order
    of first appearance are [A, B]: the groups are held in a plain object,
    whose integer-like keys enumerate in ascending numeric order. *)
Theorem grouping_reorders_numeric_keys :
  asset_id <$$> groupAssets cloudGroupKey (Some "scene") numberedScenes
  = Ok ["B"; "A"] /\
  asset_id <$$> groupAssets clientGroupKey (Some "scene") numberedScenes
  = Ok ["B"; "A"] /\
  asset_id <$> groupByFirstAppearance (cloudGroupKey "scene") numberedScenes
  = ["A"; "B"] /\
  asset_id <$> groupByFirstAppearance (clientGroupKey "scene") numberedScenes
  = ["A"; "B"].
Proof. split_and!; vm_compute; reflexivity. Qed.

(** ** Timecodes *)

Lemma Qtrunc_floor (q : Q) : (0 <= q)%Q -> Qtrunc q = Qfloor q.
Proof.
  destruct q as [n d]. unfold Qle, Qtrunc, Qfloor. cbn [Qnum Qden].
  intros Hn. apply Z.quot_div_nonneg; lia.
Qed.

Lemma jsRem_Qmod (x y : Q) : (0 <= x)%Q -> (0 < y)%Q -> jsRem x y = Qmod x y.
Proof.
  intros Hx Hy. unfold jsRem, Qmod. rewrite Qtrunc_floor; [done|].
  apply Qmult_le_0_compat; [done|]. apply Qinv_le_0_compat. lra.
Qed.

Lemma Qmod_range (x y : Q) : (0 < y)%Q -> (0 <= Qmod x y)%Q /\ (Qmod x y < y)%Q.
Proof.
  intros Hy. unfold Qmod.
  pose proof (Qfloor_le (x / y)) as Hlo.
  pose proof (Qlt_floor (x / y)) as Hhi.
  rewrite inject_Z_plus in Hhi.
  assert (y * (x / y) == x)%Q as Hxy by (apply Qmult_div_r; lra).
  set (f := inject_Z (Qfloor (x / y))) in *.
  assert (y * f <= y * (x / y))%Q as H1.
  { rewrite !(Qmult_comm y). apply Qmult_le_compat_r; lra. }
  assert (y * (x / y) < y * (f + inject_Z 1))%Q as H2.
  { rewrite !(Qmult_comm y). apply Qmult_lt_compat_r; lra. }
  rewrite Hxy in H1, H2.
  assert (y * (f + inject_Z 1) == y * f + y)%Q as H3 by (unfold inject_Z; ring).
  rewrite H3 in H2. split; lra.
Qed.

Lemma Qfloor_range (q : Q) (n : Z) :
  (0 <= q)%Q -> (q < inject_Z n)%Q -> (0 <= Qfloor q < n)%Z.
Proof.
  intros H0 Hn. split.
  - change 0%Z with (Qfloor 0). by apply Qfloor_resp_le.
  - rewrite Zlt_Qlt. eapply Qle_lt_trans; [apply Qfloor_le|done].
Qed.

(** The fields of a timecode are in range: minutes and seconds below 60,
    frames below the frame rate, nothing negative. *)
Lemma timecodeFields_ranges (seconds : Q) (fps : positive) :
  (0 <= seconds)%Q ->
  let '(hh, mm, ss, ff) := timecodeFields seconds (inject_Z (Zpos fps)) in
  (0 <= hh)%Z /\ (0 <= mm < 60)%Z /\ (0 <= ss < 60)%Z /\ (0 <= ff < Zpos fps)%Z.
Proof.
  intros Hsec. unfold timecodeFields.
  destruct (Qmod_range seconds 3600 ltac:(lra)) as [Hm0 Hm1].
  destruct (Qmod_range seconds 60 ltac:(lra)) as [Hs0 Hs1].
  destruct (Qmod_range seconds 1 ltac:(lra)) as [Hf0 Hf1].
  split; [|split; [|split]].
  - change 0%Z with (Qfloor 0). apply Qfloor_resp_le.
    apply Qmult_le_0_compat; [done|]. apply Qinv_le_0_compat. lra.
  - apply Qfloor_range.
    + apply Qmult_le_0_compat; [done|]. apply Qinv_le_0_compat. lra.
    + apply Qlt_shift_div_r; [lra|]. exact Hm1.
  - by apply Qfloor_range.
  - apply Qfloor_range.
    + apply Qmult_le_0_compat; [done|]. unfold Qle. simpl. lia.
    + rewrite <- (Qmult_1_l (inject_Z (Z.pos fps))) at 2.
      apply Qmult_lt_compat_r; [|done]. unfold Qlt. simpl. lia.
Qed.

(** *** Binary64 rounding *)

Lemma pow2_pos e : (0 < pow2 e)%Q.
Proof. apply Qpower_0_lt. lra. Qed.

Lemma pow2_add a b : (pow2 (a + b) == pow2 a * pow2 b)%Q.
Proof. apply Qpower_plus. lra. Qed.

Lemma pow2_le a b : (a <= b)%Z -> (pow2 a <= pow2 b)%Q.
Proof. intros H. apply Qpower_le_compat_l; [done|lra]. Qed.

Lemma pow2_lt a b : (a < b)%Z -> (pow2 a < pow2 b)%Q.
Proof. intros H. apply Qpower_lt_compat_l; [done|lra]. Qed.

Lemma pow2_lt_inv a b : (pow2 a < pow2 b)%Q -> (a < b)%Z.
Proof. intros H. apply (Qpower_lt_compat_l_inv 2); [done|lra]. Qed.

Lemma pow2_Z e : (0 <= e)%Z -> (pow2 e == inject_Z (2 ^ e))%Q.
Proof. intros H. unfold pow2. by rewrite Zpower_Qpower. Qed.

Lemma ilog2_spec (a : Q) :
  (0 < a)%Q -> (pow2 (ilog2 a) <= a)%Q /\ (a < pow2 (ilog2 a + 1))%Q.
Proof.
  intros Ha. destruct a as [p q]. unfold ilog2. cbn [Qnum Qden].
  assert (0 < p)%Z as Hp by (unfold Qlt in Ha; simpl in Ha; lia).
  set (lp := Z.log2 p). set (lq := Z.log2 (Z.pos q)).
  destruct (Z.log2_spec p Hp) as [Hp0 Hp1]. fold lp in Hp0, Hp1.
  destruct (Z.log2_spec (Z.pos q) ltac:(lia)) as [Hq0 Hq1]. fold lq in Hq0, Hq1.
  assert (0 <= lp)%Z as Hlp by apply Z.log2_nonneg.
  assert (0 <= lq)%Z as Hlq by apply Z.log2_nonneg.
  set (a := (p # q)%Q) in *.
  assert (a * inject_Z (Z.pos q) == inject_Z p)%Q as Hpq.
  { unfold a, Qeq, Qmult, inject_Z. simpl. lia. }
  assert (pow2 lp <= inject_Z p)%Q as Hp0'.
  { rewrite pow2_Z by done. by rewrite <- Zle_Qle. }
  assert (inject_Z p < pow2 (lp + 1))%Q as Hp1'.
  { rewrite pow2_Z by lia. rewrite <- Zlt_Qlt. by rewrite <- Z.add_1_r in Hp1. }
  assert (pow2 lq <= inject_Z (Z.pos q))%Q as Hq0'.
  { rewrite pow2_Z by done. by rewrite <- Zle_Qle. }
  assert (inject_Z (Z.pos q) < pow2 (lq + 1))%Q as Hq1'.
  { rewrite pow2_Z by lia. rewrite <- Zlt_Qlt. by rewrite <- Z.add_1_r in Hq1. }
  assert (pow2 (lp + 1) == pow2 (lp - lq + 1) * pow2 lq)%Q as E1.
  { rewrite <- pow2_add. by replace (lp - lq + 1 + lq)%Z with (lp + 1)%Z by lia. }
  assert (pow2 lp == pow2 (lp - lq - 1) * pow2 (lq + 1))%Q as E2.
  { rewrite <- pow2_add. by replace (lp - lq - 1 + (lq + 1))%Z with lp by lia. }
  pose proof (pow2_pos lq) as Plq. pose proof (pow2_pos (lq + 1)) as Plq1.
  pose proof (pow2_pos (lp - lq - 1)) as Pl1.
  set (iq := inject_Z (Z.pos q)) in *. set (ip := inject_Z p) in *.
  assert (a < pow2 (lp - lq + 1))%Q as Hhi by nra.
  assert (pow2 (lp - lq - 1) <= a)%Q as Hlo by nra.
  destruct (Qle_bool (pow2 (lp - lq)) a) eqn:Hb.
  - apply Qle_bool_iff in Hb. done.
  - assert (~ (pow2 (lp - lq) <= a)%Q) as Hn.
    { intros H. apply Qle_bool_iff in H. congruence. }
    replace (lp - lq - 1 + 1)%Z with (lp - lq)%Z by lia. split; [done|lra].
Qed.

Lemma ilog2_ge (a : Q) (e : Z) : (0 < a)%Q -> (pow2 e <= a)%Q -> (e <= ilog2 a)%Z.
Proof.
  intros Ha He. destruct (ilog2_spec a Ha) as [_ Hhi].
  assert (pow2 e < pow2 (ilog2 a + 1))%Q as H by lra.
  apply pow2_lt_inv in H. lia.
Qed.

Lemma ilog2_lt (a : Q) (e : Z) : (0 < a)%Q -> (a < pow2 e)%Q -> (ilog2 a < e)%Z.
Proof.
  intros Ha He. destruct (ilog2_spec a Ha) as [Hlo _].
  assert (pow2 (ilog2 a) < pow2 e)%Q as H by lra.
  by apply pow2_lt_inv in H.
Qed.

(** Rounding to the nearest integer, ties to even. *)
Lemma roundHalfEven_cases (t : Q) :
  let f := Qfloor t in
  (roundHalfEven t = f /\ (t - inject_Z f <= 1 # 2)%Q) \/
  (roundHalfEven t = (f + 1)%Z /\ (1 # 2 <= t - inject_Z f)%Q).
Proof.
  intros f. unfold roundHalfEven. fold f.
  destruct (Qcompare_spec (t - inject_Z f) (1 # 2)) as [He|Hl|Hg].
  - destruct (Z.even f); [left|right]; (split; [done|lra]).
  - left. split; [done|lra].
  - right. split; [done|lra].
Qed.

Lemma Qfloor_bounds (x : Q) :
  (inject_Z (Qfloor x) <= x)%Q /\ (x < inject_Z (Qfloor x) + 1)%Q.
Proof.
  split; [apply Qfloor_le|].
  pose proof (Qlt_floor x) as H. by rewrite inject_Z_plus in H.
Qed.

Lemma Qfloor_ge (t : Q) (k : Z) : (inject_Z k <= t)%Q -> (k <= Qfloor t)%Z.
Proof.
  intros H. rewrite <- (Qfloor_Z k). by apply Qfloor_resp_le.
Qed.

Lemma Qfloor_lt (t : Q) (k : Z) : (t < inject_Z k)%Q -> (Qfloor t < k)%Z.
Proof.
  intros H. rewrite Zlt_Qlt. eapply Qle_lt_trans; [apply Qfloor_le|done].
Qed.

Lemma roundHalfEven_ge (t : Q) (k : Z) :
  (inject_Z k <= t)%Q -> (k <= roundHalfEven t)%Z.
Proof.
  intros H. apply Qfloor_ge in H.
  destruct (roundHalfEven_cases t) as [[-> _]|[-> _]]; lia.
Qed.

Lemma roundHalfEven_le (t : Q) (k : Z) :
  (t <= inject_Z k)%Q -> (roundHalfEven t <= k)%Z.
Proof.
  intros H. destruct (Qfloor_bounds t) as [Hlo Hhi].
  destruct (roundHalfEven_cases t) as [[-> _]|[-> Hhalf]].
  - rewrite Zle_Qle. lra.
  - assert (inject_Z (Qfloor t) < inject_Z k)%Q as Hlt by lra.
    rewrite <- Zlt_Qlt in Hlt. lia.
Qed.

Lemma roundHalfEven_near (t : Q) (k : Z) :
  (inject_Z k <= t)%Q ->
  (inject_Z (roundHalfEven t) - t <= t - inject_Z k)%Q.
Proof.
  intros H. pose proof (Qfloor_ge _ _ H) as Hk. rewrite Zle_Qle in Hk.
  destruct (Qfloor_bounds t) as [Hlo Hhi].
  destruct (roundHalfEven_cases t) as [[-> _]|[-> Hhalf]].
  - lra.
  - rewrite inject_Z_plus. change (inject_Z 1) with 1%Q. lra.
Qed.

Lemma roundHalfEven_half (t : Q) :
  (inject_Z (roundHalfEven t) - t <= 1 # 2)%Q.
Proof.
  destruct (Qfloor_bounds t) as [Hlo Hhi].
  destruct (roundHalfEven_cases t) as [[-> _]|[-> Hhalf]].
  - lra.
  - rewrite inject_Z_plus. change (inject_Z 1) with 1%Q. lra.
Qed.

Lemma roundHalfEven_Z (k : Z) : roundHalfEven (inject_Z k) = k.
Proof.
  apply Z.le_antisymm.
  - apply roundHalfEven_le. lra.
  - apply roundHalfEven_ge. lra.
Qed.

Lemma roundHalfEven_eqZ (t : Q) (k : Z) : (t == inject_Z k)%Q -> roundHalfEven t = k.
Proof.
  intros H. apply Z.le_antisymm.
  - apply roundHalfEven_le. lra.
  - apply roundHalfEven_ge. lra.
Qed.

Lemma round64_pos (y : Q) :
  (0 < y)%Q ->
  round64 y = (inject_Z (roundHalfEven (y / pow2 (ulpExp y))) * pow2 (ulpExp y))%Q.
Proof.
  intros Hy. unfold round64.
  by replace (y ?= 0)%Q with Gt by (symmetry; by apply Qgt_alt).
Qed.

Lemma round64_zero (y : Q) : (y == 0)%Q -> round64 y = 0%Q.
Proof.
  intros Hy. unfold round64.
  by replace (y ?= 0)%Q with Eq by (symmetry; by apply Qeq_alt).
Qed.

Lemma div_mul_pow2 (y : Q) (e : Z) : (y / pow2 e * pow2 e == y)%Q.
Proof. pose proof (pow2_pos e). field. lra. Qed.

(** Every binary64 value [z >= 0] is, seen from [y], on the grid of [y]'s
    binade or below the start of that binade. *)
Lemma double_aligned (y z : Q) :
  (0 < y)%Q -> (0 <= z)%Q -> isDouble z ->
  exists K : Z,
    (z <= inject_Z K * pow2 (ulpExp y))%Q /\
    (z <= y -> inject_Z K * pow2 (ulpExp y) <= y)%Q /\
    (y <= z -> inject_Z K * pow2 (ulpExp y) == z)%Q.
Proof.
  intros Hy Hz Hd. pose proof (pow2_pos (ulpExp y)) as Hu.
  destruct (Qlt_le_dec 0 z) as [Hz0|Hz0].
  - unfold isDouble in Hd. rewrite (round64_pos z Hz0) in Hd.
    set (R := roundHalfEven (z / pow2 (ulpExp z))) in Hd.
    destruct (Z_le_gt_dec (ulpExp y) (ulpExp z)) as [Hle|Hgt].
    + exists (R * 2 ^ (ulpExp z - ulpExp y))%Z.
      assert (inject_Z (R * 2 ^ (ulpExp z - ulpExp y)) * pow2 (ulpExp y) == z)%Q
        as HK.
      { rewrite inject_Z_mult, <- pow2_Z by lia.
        rewrite <- Qmult_assoc, <- pow2_add.
        by replace (ulpExp z - ulpExp y + ulpExp y)%Z with (ulpExp z) by lia. }
      split_and!; [lra|lra|done].
    + exists (2 ^ 52)%Z.
      destruct (ilog2_spec y Hy) as [Hylo Hyhi].
      destruct (ilog2_spec z Hz0) as [Hzlo Hzhi].
      unfold ulpExp in Hgt |- *.
      assert (-1022 < ilog2 y)%Z as Hnorm by lia.
      assert (ilog2 z + 1 <= ilog2 y)%Z as Hbin by lia.
      replace (Z.max (ilog2 y) (-1022))%Z with (ilog2 y) by lia.
      assert (inject_Z (2 ^ 52) * pow2 (ilog2 y - 52) == pow2 (ilog2 y))%Q as HK.
      { rewrite <- pow2_Z by lia. rewrite <- pow2_add.
        by replace (52 + (ilog2 y - 52))%Z with (ilog2 y) by lia. }
      pose proof (pow2_le _ _ Hbin) as Hmono.
      split_and!; [lra|lra|lra].
  - exists 0%Z. change (inject_Z 0) with 0%Q. split_and!; lra.
Qed.

Lemma round64_ge_double (y z : Q) :
  (0 <= z)%Q -> isDouble z -> (z <= y)%Q -> (z <= round64 y)%Q.
Proof.
  intros Hz Hd Hzy. destruct (Qlt_le_dec 0 y) as [Hy|Hy].
  - destruct (double_aligned y z Hy Hz Hd) as (K & H1 & H2 & _).
    specialize (H2 Hzy). rewrite (round64_pos y Hy).
    pose proof (pow2_pos (ulpExp y)) as Hu. set (u := pow2 (ulpExp y)) in *.
    assert (inject_Z K <= y / u)%Q as Hk by (by apply Qle_shift_div_l).
    apply roundHalfEven_ge in Hk. rewrite Zle_Qle in Hk.
    set (R := inject_Z (roundHalfEven (y / u))) in *. nra.
  - rewrite round64_zero by lra. lra.
Qed.

Lemma round64_le_double (y z : Q) :
  (0 <= y)%Q -> isDouble z -> (y <= z)%Q -> (round64 y <= z)%Q.
Proof.
  intros Hy0 Hd Hyz. destruct (Qlt_le_dec 0 y) as [Hy|Hy].
  - destruct (double_aligned y z Hy ltac:(lra) Hd) as (K & H1 & _ & H3).
    specialize (H3 Hyz). rewrite (round64_pos y Hy).
    pose proof (pow2_pos (ulpExp y)) as Hu. set (u := pow2 (ulpExp y)) in *.
    assert (y / u <= inject_Z K)%Q as Hk by (apply Qle_shift_div_r; [done|lra]).
    apply roundHalfEven_le in Hk. rewrite Zle_Qle in Hk.
    set (R := inject_Z (roundHalfEven (y / u))) in *. nra.
  - rewrite round64_zero by lra. lra.
Qed.

Lemma round64_near (y z : Q) :
  (0 <= z)%Q -> isDouble z -> (z <= y)%Q -> (round64 y - y <= y - z)%Q.
Proof.
  intros Hz Hd Hzy. destruct (Qlt_le_dec 0 y) as [Hy|Hy].
  - destruct (double_aligned y z Hy Hz Hd) as (K & H1 & H2 & _).
    specialize (H2 Hzy). rewrite (round64_pos y Hy).
    pose proof (pow2_pos (ulpExp y)) as Hu.
    pose proof (div_mul_pow2 y (ulpExp y)) as Hdiv.
    set (u := pow2 (ulpExp y)) in *.
    assert (inject_Z K <= y / u)%Q as Hk by (by apply Qle_shift_div_l).
    apply roundHalfEven_near in Hk.
    set (R := inject_Z (roundHalfEven (y / u))) in *. set (t := (y / u)%Q) in *.
    nra.
  - rewrite round64_zero by lra. lra.
Qed.

(** A value strictly nearer to the binary64 value [a] below it than to [b]
    is not rounded up to [b]. *)
Lemma round64_lt (y a b : Q) :
  (0 <= a)%Q -> isDouble a -> (0 <= y)%Q -> (a < b)%Q -> (2 * y < a + b)%Q ->
  (round64 y < b)%Q.
Proof.
  intros Ha Hd Hy Hab Hmid. destruct (Qlt_le_dec a y) as [Hay|Hya].
  - pose proof (round64_near y a Ha Hd ltac:(lra)). lra.
  - pose proof (round64_le_double y a Hy Hd Hya). lra.
Qed.

(** Multiples of a power of two with at most 53 significant bits. *)
Lemma isDouble_multiple (q : Q) (A j : Z) :
  (0 <= q)%Q -> (q == inject_Z A * pow2 j)%Q -> (-1074 <= j)%Z ->
  (q < pow2 (j + 53))%Q -> isDouble q.
Proof.
  intros Hq HA Hj Hlt. unfold isDouble.
  destruct (Qlt_le_dec 0 q) as [Hq0|Hq0]; [|rewrite round64_zero; lra].
  rewrite (round64_pos q Hq0).
  pose proof (ilog2_lt q _ Hq0 Hlt) as Hlog.
  assert (ulpExp q <= j)%Z as Hexp by (unfold ulpExp; lia).
  set (e := ulpExp q) in *.
  assert (q / pow2 e == inject_Z (A * 2 ^ (j - e)))%Q as Hint.
  { rewrite inject_Z_mult, <- pow2_Z by lia. rewrite HA.
    replace j with ((j - e) + e)%Z at 1 by lia. rewrite pow2_add.
    pose proof (pow2_pos e). field. lra. }
  rewrite (roundHalfEven_eqZ _ _ Hint), <- Hint. apply div_mul_pow2.
Qed.

Lemma isDouble_Z (n : Z) : (0 <= n < 2 ^ 53)%Z -> isDouble (inject_Z n).
Proof.
  intros Hn. apply (isDouble_multiple _ n 0).
  - rewrite <- (Zle_Qle 0). lia.
  - change (pow2 0) with 1%Q. lra.
  - lia.
  - rewrite pow2_Z by lia. rewrite <- Zlt_Qlt. simpl (0 + 53)%Z. lia.
Qed.

(** A binary64 value at or above [2^j] lies on the grid of step [2^(j-52)]. *)
Lemma isDouble_grid (x : Q) (j : Z) :
  isDouble x -> (-1022 <= j)%Z -> (pow2 j <= x)%Q ->
  exists N : Z, (x == inject_Z N * pow2 (j - 52))%Q.
Proof.
  intros Hd Hj Hx. pose proof (pow2_pos j) as Hp.
  assert (0 < x)%Q as Hx0 by lra.
  unfold isDouble in Hd. rewrite (round64_pos x Hx0) in Hd.
  pose proof (ilog2_ge x j Hx0 Hx) as Hlog.
  assert (j - 52 <= ulpExp x)%Z as Hexp by (unfold ulpExp; lia).
  set (R := roundHalfEven (x / pow2 (ulpExp x))) in Hd.
  exists (R * 2 ^ (ulpExp x - (j - 52)))%Z.
  rewrite inject_Z_mult, <- pow2_Z by lia.
  rewrite <- Qmult_assoc, <- pow2_add.
  replace (ulpExp x - (j - 52) + (j - 52))%Z with (ulpExp x) by lia.
  by symmetry.
Qed.

(** Every binary64 value lies on the finest grid, of step [2^-1074]; a
    value below [2^(j+53)] with [j >= -1074] lies on the grid of its own. *)
Lemma isDouble_own_grid (x : Q) :
  isDouble x -> (0 < x)%Q ->
  exists N : Z, (x == inject_Z N * pow2 (ulpExp x))%Q /\
                (-1074 <= ulpExp x)%Z /\ (x < pow2 (ulpExp x + 53))%Q.
Proof.
  intros Hd Hx0. unfold isDouble in Hd. rewrite (round64_pos x Hx0) in Hd.
  eexists. split; [symmetry; exact Hd|]. split; [unfold ulpExp; lia|].
  destruct (ilog2_spec x Hx0) as [_ Hhi].
  eapply Qlt_le_trans; [exact Hhi|]. apply pow2_le. unfold ulpExp. lia.
Qed.

Lemma inject_Z_minus (a b : Z) : (inject_Z (a - b) == inject_Z a - inject_Z b)%Q.
Proof. unfold Z.sub. rewrite inject_Z_plus, inject_Z_opp. ring. Qed.

Lemma inject_Z_pos (d : Z) : (0 < d)%Z -> (0 < inject_Z d)%Q.
Proof. intros H. by rewrite <- (Zlt_Qlt 0). Qed.

(** The remainder of a binary64 value by an integer is a binary64 value:
    [%] does not round. *)
Lemma Qmod_isDouble (x : Q) (d : Z) :
  isDouble x -> (0 <= x)%Q -> (0 < d < 2 ^ 53)%Z ->
  isDouble (Qmod x (inject_Z d)).
Proof.
  intros Hd Hx Hdr. pose proof (inject_Z_pos d ltac:(lia)) as HD.
  destruct (Qmod_range x (inject_Z d) HD) as [Hr0 Hr1].
  assert (0 <= Qfloor (x / inject_Z d))%Z as HF.
  { apply Qfloor_ge. apply Qle_shift_div_l; [done|].
    change (inject_Z 0) with 0%Q. lra. }
  assert (Qmod x (inject_Z d) <= x)%Q as Hrx.
  { unfold Qmod. rewrite Zle_Qle in HF. change (inject_Z 0) with 0%Q in HF.
    set (F := inject_Z (Qfloor (x / inject_Z d))) in *. nra. }
  destruct (Qlt_le_dec 0 x) as [Hx0|Hx0].
  - destruct (isDouble_own_grid x Hd Hx0) as (N & HN & Hj & Hlt).
    set (j := ulpExp x) in *. set (F := Qfloor (x / inject_Z d)) in *.
    destruct (Z_le_gt_dec 0 j) as [Hj0|Hj0].
    + apply (isDouble_multiple _ (N * 2 ^ j - d * F) 0); [done| |lia|].
      * unfold Qmod. fold F. rewrite HN, pow2_Z by done.
        change (pow2 0) with 1%Q.
        rewrite inject_Z_minus, !inject_Z_mult. ring.
      * eapply Qlt_trans; [exact Hr1|]. rewrite pow2_Z by lia.
        rewrite <- Zlt_Qlt. simpl (0 + 53)%Z. lia.
    + apply (isDouble_multiple _ (N - d * F * 2 ^ (- j)) j); [done| |done|lra].
      unfold Qmod. fold F. rewrite HN at 1.
      rewrite inject_Z_minus, !inject_Z_mult, <- pow2_Z by lia.
      assert (pow2 (- j) * pow2 j == 1)%Q as Hinv.
      { rewrite <- pow2_add. by replace (- j + j)%Z with 0%Z by lia. }
      set (a := pow2 (- j)) in *. set (b := pow2 j) in *.
      transitivity (inject_Z N * b - inject_Z d * inject_Z F * (a * b))%Q;
        [rewrite Hinv|]; ring.
  - apply (isDouble_multiple _ 0 0); [done| |lia|].
    + change (inject_Z 0) with 0%Q. lra.
    + pose proof (pow2_pos (0 + 53)). lra.
Qed.

Lemma Zlog2_le_pow2 (n e : Z) : (0 < n <= 2 ^ e)%Z -> (0 <= e)%Z -> (Z.log2 n <= e)%Z.
Proof.
  intros Hn He. rewrite <- (Z.log2_pow2 e He). apply Z.log2_le_mono. lia.
Qed.

(** An integer [n >= 1] and the binary64 value just below it on the grid of
    its binade. *)
Lemma below_integer_isDouble (n : Z) :
  (0 < n)%Z -> (Z.log2 n <= 52)%Z ->
  let a := (inject_Z n - pow2 (Z.log2 n - 52))%Q in
  isDouble a /\ (0 <= a)%Q /\ (a < inject_Z n)%Q.
Proof.
  intros Hn Hk a. set (k := Z.log2 n) in *.
  destruct (Z.log2_spec n Hn) as [Hlo Hhi]. fold k in Hlo, Hhi.
  assert (0 <= k)%Z as Hk0 by apply Z.log2_nonneg.
  pose proof (pow2_pos (k - 52)) as Hp.
  assert (pow2 (k - 52) <= 1)%Q as Hp1.
  { change 1%Q with (pow2 0). apply pow2_le. lia. }
  assert (1 <= inject_Z n)%Q as Hn1 by (rewrite <- (Zle_Qle 1); lia).
  assert (inject_Z (2 ^ (52 - k)) * pow2 (k - 52) == 1)%Q as Hinv.
  { rewrite <- pow2_Z by lia. rewrite <- pow2_add.
    by replace (52 - k + (k - 52))%Z with 0%Z by lia. }
  split_and!; [|unfold a; lra|unfold a; lra].
  apply (isDouble_multiple _ (n * 2 ^ (52 - k) - 1) (k - 52)).
  - unfold a. lra.
  - unfold a. rewrite inject_Z_minus, inject_Z_mult.
    change (inject_Z 1) with 1%Q.
    set (b := pow2 (k - 52)) in *. set (c := inject_Z (2 ^ (52 - k))) in *.
    transitivity (inject_Z n * (c * b) - b)%Q; [rewrite Hinv|]; ring.
  - lia.
  - replace (k - 52 + 53)%Z with (Z.succ k) by lia.
    rewrite pow2_Z by lia.
    assert (inject_Z n < inject_Z (2 ^ Z.succ k))%Q by (by rewrite <- Zlt_Qlt).
    unfold a. lra.
Qed.

(** Division by an integer [d] between [2^c] and [2^(c+1)] never rounds a
    binary64 quotient up to the next integer: the floor of the rounded
    quotient is the floor of the exact one. *)
Lemma floor_round64_div (x : Q) (d c : Z) :
  isDouble x -> (0 <= x)%Q -> (0 <= c <= 52)%Z -> (2 ^ c < d < 2 ^ (c + 1))%Z ->
  (x < inject_Z d * pow2 (52 - c))%Q ->
  Qfloor (round64 (x / inject_Z d)) = Qfloor (x / inject_Z d).
Proof.
  intros Hd Hx Hc Hdc Hbound.
  assert (0 < 2 ^ c)%Z as Hpc by (apply Z.pow_pos_nonneg; lia).
  pose proof (inject_Z_pos d ltac:(lia)) as HD. set (D := inject_Z d) in *.
  set (y := (x / D)%Q).
  assert (y * D == x)%Q as Hy by (unfold y; field; lra).
  assert (0 <= y)%Q as Hy0 by (apply Qle_shift_div_l; [done|lra]).
  destruct (Qfloor_bounds y) as [Hflo Hfhi]. set (f := Qfloor y) in *.
  assert (0 <= f)%Z as Hf0 by (apply Qfloor_ge; change (inject_Z 0) with 0%Q; lra).
  assert (y < pow2 (52 - c))%Q as Hylt by (apply Qlt_shift_div_r; [done|lra]).
  assert (f < 2 ^ (52 - c))%Z as Hflt.
  { rewrite Zlt_Qlt, <- pow2_Z by lia. lra. }
  assert (2 ^ (52 - c) <= 2 ^ 52)%Z as Hpow by (apply Z.pow_le_mono_r; lia).
  set (n := (f + 1)%Z). set (k := Z.log2 n).
  assert (0 <= k)%Z as Hk0 by apply Z.log2_nonneg.
  assert (k <= 52 - c)%Z as Hk by (apply Zlog2_le_pow2; lia).
  destruct (Z.log2_spec n ltac:(lia)) as [Hnlo Hnhi]. fold k in Hnlo, Hnhi.
  assert (inject_Z n == inject_Z f + 1)%Q as Hn.
  { unfold n. rewrite inject_Z_plus. by change (inject_Z 1) with 1%Q. }
  (* the lower bound *)
  assert (inject_Z f <= round64 y)%Q as Hlower.
  { apply round64_ge_double; [|apply isDouble_Z; lia|done].
    rewrite <- (Zle_Qle 0). lia. }
  (* the upper bound *)
  destruct (below_integer_isDouble n ltac:(lia) ltac:(fold k; lia))
    as (Ha & Ha0 & Han). fold k in Ha, Ha0, Han.
  assert (pow2 (k - 52) == 2 * pow2 (k - 53))%Q as Hhalf.
  { change 2%Q with (pow2 1). rewrite <- pow2_add.
    by replace (1 + (k - 53))%Z with (k - 52)%Z by lia. }
  assert (x < D * inject_Z n)%Q as Hxn by nra.
  assert (x < D * (inject_Z n - pow2 (k - 53)))%Q as Hmid.
  { pose proof (pow2_pos (k - 53)) as He. pose proof (pow2_pos k) as HPk.
    destruct (Qlt_le_dec x (pow2 (k + c))) as [Hsmall|Hbig].
    - assert (pow2 (k + c) == pow2 k * inject_Z (2 ^ c))%Q as E1.
      { rewrite <- pow2_Z by lia. apply pow2_add. }
      assert (pow2 (k - 53) == pow2 k * (1 # 9007199254740992))%Q as E2.
      { change (1 # 9007199254740992)%Q with (pow2 (-53)). apply pow2_add. }
      assert (inject_Z (2 ^ c) + 1 <= D)%Q as E3.
      { unfold D. change 1%Q with (inject_Z 1).
        rewrite <- inject_Z_plus, <- Zle_Qle. lia. }
      assert (inject_Z (2 ^ c) <= 4503599627370496)%Q as E4.
      { change 4503599627370496%Q with (inject_Z (2 ^ 52)).
        rewrite <- Zle_Qle. apply Z.pow_le_mono_r; lia. }
      assert (pow2 k <= inject_Z n)%Q as E5.
      { rewrite pow2_Z by done. by rewrite <- Zle_Qle. }
      assert (0 < inject_Z (2 ^ c))%Q as E6 by (by apply inject_Z_pos).
      set (Pc := inject_Z (2 ^ c)) in *. set (Pk := pow2 k) in *.
      set (N := inject_Z n) in *.
      assert (Pk * Pc <= D * (Pk - Pk * (1 # 9007199254740992)))%Q as E7.
      { assert (Pc <= (Pc + 1) * (1 - (1 # 9007199254740992)))%Q as E8 by lra.
        assert ((Pc + 1) * (1 - (1 # 9007199254740992))
                <= D * (1 - (1 # 9007199254740992)))%Q as E9 by nra.
        assert (Pc <= D * (1 - (1 # 9007199254740992)))%Q as E10 by lra.
        nra. }
      rewrite E2. rewrite E1 in Hsmall.
      assert (D * (Pk - Pk * (1 # 9007199254740992))
              <= D * (N - Pk * (1 # 9007199254740992)))%Q as E11 by nra.
      lra.
    - destruct (isDouble_grid x (k + c) Hd ltac:(lia) Hbig) as (N & HN).
      set (g := pow2 (k + c - 52)) in *. pose proof (pow2_pos (k + c - 52)) as Hg.
      fold g in Hg.
      set (M := (d * n * 2 ^ (52 - k - c))%Z).
      assert (D * inject_Z n == inject_Z M * g)%Q as HM.
      { unfold M, g, D. rewrite !inject_Z_mult, <- pow2_Z by lia.
        rewrite <- Qmult_assoc, <- pow2_add.
        replace (52 - k - c + (k + c - 52))%Z with 0%Z by lia.
        change (pow2 0) with 1%Q. ring. }
      assert (N < M)%Z as HNM.
      { rewrite Zlt_Qlt. rewrite HN, HM in Hxn.
        set (iN := inject_Z N) in *. set (iM := inject_Z M) in *. nra. }
      assert (inject_Z N + 1 <= inject_Z M)%Q as HNM'.
      { change 1%Q with (inject_Z 1). rewrite <- inject_Z_plus, <- Zle_Qle. lia. }
      assert (D * pow2 (k - 53) < g)%Q as Hstep.
      { assert (D < pow2 (c + 1))%Q as HDc.
        { rewrite pow2_Z by lia. unfold D. rewrite <- Zlt_Qlt. lia. }
        assert (g == pow2 (c + 1) * pow2 (k - 53))%Q as Eg.
        { unfold g. rewrite <- pow2_add.
          by replace (c + 1 + (k - 53))%Z with (k + c - 52)%Z by lia. }
        rewrite Eg. set (e := pow2 (k - 53)) in *. nra. }
      set (iN := inject_Z N) in *. set (iM := inject_Z M) in *.
      set (e := pow2 (k - 53)) in *. set (nQ := inject_Z n) in *.
      assert (x + g <= D * nQ)%Q by nra. nra. }
  assert (round64 y < inject_Z n)%Q as Hupper.
  { apply (round64_lt y _ _ Ha0 Ha Hy0 Han).
    assert (y < inject_Z n - pow2 (k - 53))%Q as Hy1.
    { apply Qlt_shift_div_r; [done|]. lra. }
    lra. }
  apply Qfloor_lt in Hupper. apply Qfloor_ge in Hlower. unfold n in Hupper.
  fold y. lia.
Qed.

(** The relative error of rounding a value in the normal range. *)
Lemma round64_rel (y : Q) :
  (pow2 (-1022) <= y)%Q -> (round64 y - y <= y * pow2 (-53))%Q.
Proof.
  intros Hnorm. pose proof (pow2_pos (-1022)) as Hp.
  assert (0 < y)%Q as Hy by lra.
  rewrite (round64_pos y Hy).
  pose proof (ilog2_ge y _ Hy Hnorm) as Hlog.
  assert (ulpExp y = ilog2 y - 52)%Z as -> by (unfold ulpExp; lia).
  destruct (ilog2_spec y Hy) as [Hlo _].
  pose proof (pow2_pos (ilog2 y - 52)) as Hu.
  pose proof (div_mul_pow2 y (ilog2 y - 52)) as Hdiv.
  pose proof (roundHalfEven_half (y / pow2 (ilog2 y - 52))) as Hhalf.
  assert (pow2 (ilog2 y - 52) == pow2 (ilog2 y) * pow2 (-52))%Q as Eu
    by apply pow2_add.
  change (pow2 (-52)) with (1 # 4503599627370496)%Q in Eu.
  change (pow2 (-53)) with (1 # 9007199254740992)%Q in *.
  set (u := pow2 (ilog2 y - 52)) in *. set (t := (y / u)%Q) in *.
  set (R := inject_Z (roundHalfEven t)) in *. set (P := pow2 (ilog2 y)) in *.
  nra.
Qed.

(** The largest binary64 value below 1 is [1 - 2^-53]. *)
Lemma isDouble_below_one (x : Q) :
  isDouble x -> (x < 1)%Q -> (x <= 1 - pow2 (-53))%Q.
Proof.
  intros Hd Hx. change (pow2 (-53)) with (1 # 9007199254740992)%Q.
  destruct (Qlt_le_dec x (1 # 2)) as [Hs|Hb]; [lra|].
  destruct (isDouble_grid x (-1) Hd ltac:(lia) Hb) as (N & HN).
  change (pow2 (-1 - 52)) with (1 # 9007199254740992)%Q in HN.
  assert (N < 2 ^ 53)%Z as HNlt.
  { rewrite Zlt_Qlt. change (inject_Z (2 ^ 53)) with 9007199254740992%Q. lra. }
  assert (inject_Z N <= 9007199254740991)%Q as HNle.
  { change 9007199254740991%Q with (inject_Z (2 ^ 53 - 1)).
    rewrite <- Zle_Qle. lia. }
  lra.
Qed.

Lemma isDouble_half : isDouble (1 # 2).
Proof.
  apply (isDouble_multiple _ 1 (-1)); [lra| |lia|].
  - change (pow2 (-1)) with (1 # 2)%Q. change (inject_Z 1) with 1%Q. lra.
  - pose proof (pow2_lt (-1) (-1 + 53) ltac:(lia)) as H.
    change (pow2 (-1)) with (1 # 2)%Q in H. lra.
Qed.

(** The frame field: the floor of the rounded product is the floor of the
    exact product or one more, stays below the frame rate, and overshoots
    the exact product by a rounding error at most. *)
Lemma frame_field (frac : Q) (fr : Z) :
  isDouble frac -> (0 <= frac)%Q -> (frac < 1)%Q -> (0 < fr < 2 ^ 53)%Z ->
  let y := (frac * inject_Z fr)%Q in
  (Qfloor y <= Qfloor (round64 y) <= Qfloor y + 1)%Z /\
  (0 <= Qfloor y)%Z /\
  (Qfloor (round64 y) < fr)%Z /\
  (inject_Z (Qfloor (round64 y)) - y <= y * pow2 (-53))%Q /\
  (isDouble y -> Qfloor (round64 y) = Qfloor y).
Proof.
  intros Hd Hf0 Hf1 Hfr y.
  pose proof (inject_Z_pos fr ltac:(lia)) as HF. set (F := inject_Z fr) in *.
  assert (0 <= y)%Q as Hy0 by (unfold y; nra).
  assert (y < F)%Q as HyF by (unfold y; nra).
  destruct (Qfloor_bounds y) as [Hlo Hhi]. set (ff := Qfloor y) in *.
  assert (0 <= ff)%Z as Hff0 by (apply Qfloor_ge; change (inject_Z 0) with 0%Q; lra).
  assert (ff < fr)%Z as Hfflt by (by apply Qfloor_lt).
  assert (inject_Z (ff + 1) == inject_Z ff + 1)%Q as Hff1.
  { rewrite inject_Z_plus. by change (inject_Z 1) with 1%Q. }
  assert (inject_Z ff <= round64 y)%Q as Hlower.
  { apply round64_ge_double; [|apply isDouble_Z; lia|done].
    rewrite <- (Zle_Qle 0). lia. }
  assert (round64 y <= inject_Z (ff + 1))%Q as Hupper.
  { apply round64_le_double; [done|apply isDouble_Z; lia|lra]. }
  assert (round64 y < F)%Q as Hbelow.
  { set (k := Z.log2 fr). assert (0 <= k)%Z as Hk0 by apply Z.log2_nonneg.
    destruct (Z.log2_spec fr ltac:(lia)) as [Hklo Hkhi]. fold k in Hklo, Hkhi.
    assert (k <= 52)%Z as Hk.
    { assert (k < 53)%Z; [|lia]. apply Z.log2_lt_pow2; lia. }
    destruct (Z.eq_dec fr (2 ^ k)%Z) as [Heq|Hne].
    - destruct (Qlt_le_dec 0 frac) as [Hpos|Hzero].
      + destruct (isDouble_own_grid frac Hd Hpos) as (N & HN & Hj & Hlt).
        set (j := ulpExp frac) in *.
        assert (F == pow2 k)%Q as EF.
        { unfold F. rewrite Heq. by rewrite pow2_Z. }
        assert (isDouble y) as Hdy.
        { apply (isDouble_multiple _ N (j + k)); [done| |lia|].
          - unfold y. rewrite EF, HN, pow2_add. ring.
          - replace (j + k + 53)%Z with ((j + 53) + k)%Z by lia.
            rewrite pow2_add. unfold y. rewrite EF.
            pose proof (pow2_pos k). set (Pk := pow2 k) in *. nra. }
        unfold isDouble in Hdy. lra.
      + assert (y == 0)%Q as Ey by (unfold y; nra).
        rewrite (round64_zero y Ey). lra.
    - destruct (below_integer_isDouble fr ltac:(lia) ltac:(fold k; lia))
        as (Ha & Ha0 & Han). fold k in Ha, Ha0, Han.
      apply (round64_lt y _ _ Ha0 Ha Hy0 Han).
      pose proof (isDouble_below_one frac Hd Hf1) as Hone.
      assert (pow2 (k - 52) == 2 * (pow2 k * pow2 (-53)))%Q as Ek.
      { rewrite <- pow2_add. change 2%Q with (pow2 1). rewrite <- pow2_add.
        by replace (1 + (k + -53))%Z with (k - 52)%Z by lia. }
      assert (pow2 k + 1 <= F)%Q as EF.
      { rewrite pow2_Z by done. unfold F. change 1%Q with (inject_Z 1).
        rewrite <- inject_Z_plus, <- Zle_Qle. lia. }
      rewrite Ek. change (pow2 (-53)) with (1 # 9007199254740992)%Q in *.
      pose proof (pow2_pos k). set (Pk := pow2 k) in *.
      assert (y <= (1 - (1 # 9007199254740992)) * F)%Q as Hy1
        by (unfold y; nra).
      fold F. lra. }
  split_and!.
  - by apply Qfloor_ge.
  - rewrite <- (Qfloor_Z (ff + 1)). by apply Qfloor_resp_le.
  - done.
  - by apply Qfloor_lt.
  - pose proof (Qfloor_le (round64 y)) as Hfl.
    pose proof (pow2_pos (-53)) as He.
    destruct (Qlt_le_dec y (pow2 (-1022))) as [Htiny|Hnorm].
    + assert (y <= 1 # 2)%Q as Hhalf.
      { pose proof (pow2_le (-1022) (-1) ltac:(lia)) as H.
        change (pow2 (-1)) with (1 # 2)%Q in H. lra. }
      pose proof (round64_le_double y _ Hy0 isDouble_half Hhalf) as Hr.
      assert (Qfloor (round64 y) < 1)%Z as Hz.
      { apply Qfloor_lt. change (inject_Z 1) with 1%Q. lra. }
      assert (inject_Z (Qfloor (round64 y)) <= 0)%Q as Hz'.
      { rewrite <- (Zle_Qle _ 0). lia. }
      set (e := pow2 (-53)) in *. nra.
    + pose proof (round64_rel y Hnorm). lra.
  - intros Hdy. unfold isDouble in Hdy. by rewrite Hdy.
Qed.

(** *** The fields of a timecode *)

(** On a binary64 value below [2^52] the hours and minutes that the
    formatters compute are the exact ones, the two divisions
    notwithstanding; [%] does not round. *)
Lemma rounded_whole_fields (x : Q) :
  isDouble x -> (0 <= x)%Q -> (x < pow2 52)%Q ->
  Qfloor (round64 (x / 3600)) = Qfloor (x / 3600) /\
  Qfloor (round64 (jsRem x 3600 / 60)) = Qfloor (Qmod x 3600 / 60) /\
  jsRem x 60 = Qmod x 60 /\
  jsRem x 1 = Qmod x 1 /\
  isDouble (Qmod x 1).
Proof.
  intros Hd Hx Hmax.
  rewrite !jsRem_Qmod by (done || lra).
  destruct (Qmod_range x 3600 ltac:(lra)) as [Hm0 Hm1].
  split_and!; [| |done|done|].
  - apply (floor_round64_div x 3600 11 Hd Hx); [lia|lia|].
    change (pow2 52) with 4503599627370496%Q in Hmax.
    change (pow2 (52 - 11)) with 2199023255552%Q.
    change (inject_Z 3600) with 3600%Q. lra.
  - apply (floor_round64_div (Qmod x 3600) 60 5); [|done|lia|lia|].
    + by apply (Qmod_isDouble x 3600).
    + change (pow2 (52 - 5)) with 140737488355328%Q.
      change (inject_Z 60) with 60%Q. lra.
  - by apply (Qmod_isDouble x 1).
Qed.

(** What [formatTC] prints on a binary64 value: exact hours, minutes and
    seconds, and the floor of the rounded product as the frame. *)
Lemma formatTC_fields (fr x : Q) :
  isDouble x -> (0 <= x)%Q -> (x < pow2 52)%Q ->
  formatTC fr x
  = renderTimecode (Qfloor (x / 3600), Qfloor (Qmod x 3600 / 60),
                    Qfloor (Qmod x 60), Qfloor (round64 (Qmod x 1 * fr))).
Proof.
  intros Hd Hx Hmax.
  destruct (rounded_whole_fields x Hd Hx Hmax) as (Hh & Hm & Hs & Hf & _).
  unfold formatTC, renderTimecode. by rewrite Hh, Hm, Hs, Hf.
Qed.

(** C5 (as stated).  On the binary64 value nearest to 0.3, at 30 frames
    per second, [formatTC] prints frame [09] where the stated
    [FF = floor((seconds mod 1) * framerate)] is 8: the product
    [0.3 * 30] is rounded up to 9 before the floor is taken. *)
Theorem formatTC_rounds_frame_up :
  isDouble threeTenths /\
  (0 <= threeTenths)%Q /\
  formatTC 30 threeTenths = "00:00:00:09" /\
  renderTimecode (timecodeFields threeTenths 30) = "00:00:00:08" /\
  formatTC 30 threeTenths <> renderTimecode (timecodeFields threeTenths 30).
Proof.
  split_and!; [vm_compute; reflexivity|by vm_compute|vm_compute; reflexivity..|].
  by vm_compute.
Qed.

(** Nor is the frame the one of the decimal number that was written: 4.35
    seconds at 20 frames per second is frame 7, and the binary64 value
    nearest to 4.35, which lies below it, is printed with frame [06]. *)
Lemma formatTC_of_a_decimal :
  (round64 (435 # 100) == fourPointThreeFive)%Q /\
  formatTC 20 fourPointThreeFive = "00:00:04:06" /\
  renderTimecode (timecodeFields (435 # 100) 20) = "00:00:04:07".
Proof. split_and!; vm_compute; reflexivity. Qed.

(** C5 (amended).  For every binary64 value [0 <= seconds < 2^52] and
    integer frame rate [1 <= framerate < 2^53], the formatter of both EDL
    generators returns [HH:MM:SS:FF] with [HH = floor(seconds / 3600)],
    [MM = floor((seconds mod 3600) / 60)], [SS = floor(seconds mod 60)],
    each padded with zeros to two digits, and with [FF] the floor of the
    product [(seconds mod 1) * framerate] rounded to binary64: that is
    [floor((seconds mod 1) * framerate)] or one more, it stays below the
    frame rate, and it is [floor((seconds mod 1) * framerate)] whenever the
    product is itself a binary64 value.  It maps [(15, 24)] to
    [00:00:15:00] and [(3661.5, 24)] to [01:01:01:12]. *)
Theorem formatTC_is_rounded_timecode (seconds : Q) (fps : positive)
    (Hdbl : isDouble seconds) (Hsec : (0 <= seconds)%Q)
    (Hmax : (seconds < pow2 52)%Q) (Hfps : (Zpos fps < 2 ^ 53)%Z) :
  let framerate := inject_Z (Zpos fps) in
  let '(hh, mm, ss, ff) := timecodeFields seconds framerate in
  let ff' := Qfloor (round64 (Qmod seconds 1 * framerate)) in
  formatTC framerate seconds = renderTimecode (hh, mm, ss, ff') /\
  formatTC (orDefault (Some framerate) 24) seconds
  = renderTimecode (hh, mm, ss, ff') /\
  (ff <= ff' <= ff + 1)%Z /\
  (ff' < Zpos fps)%Z /\
  (isDouble (Qmod seconds 1 * framerate) -> ff' = ff) /\
  formatTC 24 15 = "00:00:15:00" /\
  formatTC 24 (7323 # 2) = "01:01:01:12".
Proof.
  intros framerate. unfold timecodeFields. cbv zeta.
  assert (orDefault (Some framerate) 24 = framerate) as ->.
  { unfold orDefault.
    destruct (truthyQ framerate) eqn:Ht; [done|].
    apply truthyQ_false in Ht. unfold framerate, Qeq in Ht. simpl in Ht. lia. }
  destruct (rounded_whole_fields seconds Hdbl Hsec Hmax) as (_ & _ & _ & _ & Hfrac).
  destruct (Qmod_range seconds 1 ltac:(lra)) as [Hf0 Hf1].
  destruct (frame_field (Qmod seconds 1) (Zpos fps) Hfrac Hf0 Hf1 ltac:(lia))
    as (Hnear & _ & Hbelow & _ & Hexact).
  fold framerate in Hnear, Hbelow, Hexact.
  split_and!.
  - exact (formatTC_fields framerate seconds Hdbl Hsec Hmax).
  - exact (formatTC_fields framerate seconds Hdbl Hsec Hmax).
  - exact (proj1 Hnear).
  - exact (proj2 Hnear).
  - exact Hbelow.
  - exact Hexact.
  - vm_compute. reflexivity.
  - vm_compute. reflexivity.
Qed.

Lemma formatTC_is_rounded_timecode_witness :
  isDouble threeTenths /\ (0 <= threeTenths)%Q /\ (threeTenths < pow2 52)%Q /\
  (30 < 2 ^ 53)%Z /\
  formatTC (inject_Z 30) threeTenths
  = renderTimecode (0, 0, 0, Qfloor (round64 (Qmod threeTenths 1 * inject_Z 30)))%Z /\
  (8 <= Qfloor (round64 (Qmod threeTenths 1 * inject_Z 30)) <= 8 + 1)%Z.
Proof.
  assert (isDouble threeTenths) as Hdbl by (vm_compute; reflexivity).
  assert (0 <= threeTenths)%Q as Hsec by (by vm_compute).
  assert (threeTenths < pow2 52)%Q as Hmax by (by vm_compute).
  assert (30 < 2 ^ 53)%Z as Hfps by lia.
  refine (conj Hdbl (conj Hsec (conj Hmax (conj Hfps (conj _ _))))).
  - exact (proj1 (formatTC_is_rounded_timecode threeTenths 30 Hdbl Hsec Hmax Hfps)).
  - exact (proj1 (proj2 (proj2
             (formatTC_is_rounded_timecode threeTenths 30 Hdbl Hsec Hmax Hfps)))).
Defined.

(** The record and source timecodes of an exported event are produced by
    that formatter. *)
Lemma emitClip_uses_formatTC fr (edl : string) (n : N) (c : Clip) s e i o :
  startTime c = Fin s -> endTime c = Fin e ->
  inPoint c = Fin i -> outPoint c = Fin o ->
  emitClip fr (edl, n) c =
  (edl +:+ padStart 3 (pretty n) +:+ "  AX       V     C        "
       +:+ formatTC fr i +:+ " " +:+ formatTC fr o +:+ " "
       +:+ formatTC fr s +:+ " " +:+ formatTC fr e +:+ newline
       +:+ "* FROM CLIP NAME: " +:+ assetId c +:+ newline +:+ newline,
   (n + 1)%N).
Proof.
  intros Hs He Hi Ho. unfold emitClip. cbn [fst snd].
  by rewrite Hs, He, Hi, Ho.
Qed.

(** ** EDL export: the guard on empty timelines *)

(** Both exporters raise their no-tracks error exactly when the timeline
    has no track list or an empty one. *)
Lemma export_guard format tl :
  (exportEDL format tl = Throw "Error" noTracksMessageClient
   <-> default [] (tracks tl) = []) /\
  (exportTimelineEDL format tl = Throw "internal" noTracksMessageCloud
   <-> default [] (tracks tl) = []).
Proof.
  unfold exportEDL, exportTimelineEDL.
  destruct (tracks tl) as [[|t trs]|]; cbn [default catchInternal].
  - by split.
  - split; (split; [|done]).
    + destruct (String.eqb _ _); [done|].
      intros H. cbv [noTracksMessageClient noTracksMessageCloud] in H.
      cbn in H. discriminate H.
    + destruct format as [fmt|]; cbn [catchInternal].
      * destruct (String.eqb _ _); [done|].
        intros H. cbv [noTracksMessageClient noTracksMessageCloud] in H.
      cbn in H. discriminate H.
      * intros H. cbv [noTracksMessageCloud] in H. discriminate H.
  - by split.
Qed.

(** A timeline holding at least one clip never raises the no-tracks error. *)
Lemma export_with_a_clip format tl :
  allClips tl <> [] ->
  exportEDL format tl <> Throw "Error" noTracksMessageClient /\
  exportTimelineEDL format tl <> Throw "internal" noTracksMessageCloud.
Proof.
  intros Hclips.
  assert (default [] (tracks tl) <> []) as Hne.
  { intros Hnil. apply Hclips. unfold allClips. by rewrite Hnil. }
  destruct (export_guard format tl) as [Hc Hs].
  split; intros H; apply Hne; [by apply Hc|by apply Hs].
Qed.

(** C6 (tracks without clips). A timeline whose single track holds no
    clip has no clip at all, yet both exporters accept it and return the
    two header lines alone instead of raising the no-clips error. *)
Theorem export_accepts_clipless_tracks :
  allClips cliplessTimeline = [] /\
  exportEDL (Some "CMX3600") cliplessTimeline
  = Ok ("TITLE: Demo" +:+ newline +:+ "FCM: NON-DROP FRAME" +:+ newline
        +:+ newline) /\
  exportTimelineEDL (Some "CMX3600") cliplessTimeline
  = Ok ("TITLE: Demo" +:+ newline +:+ "FCM: NON-DROP FRAME" +:+ newline
        +:+ newline).
Proof. split_and!; vm_compute; reflexivity. Qed.

(** ** Assembly: strategies and empty input *)

(** C7 as stated does not hold: with the strategy ["random"] both
    assembly paths succeed. *)
Lemma unknown_strategy_is_accepted :
  succeeded (autoAssembleTimeline sampleEnv emptyTimeline twoAssets
               (options (Some "random") None false)) = true /\
  succeeded (autoAssemble sampleEnv emptyTimeline twoAssets
               (options (Some "random") None false)) = true.
Proof. split; vm_compute; reflexivity. Qed.

(** C7, amended. A strategy other than ["chronological"] and ["semantic"]
    is not rejected: the assets stay in input order and both assembly paths
    behave exactly as they do for ["semantic"]. *)
Theorem unknown_strategy_keeps_input_order env tl (assets : list Asset) opts
    (s : string)
    (Hchrono : s <> "chronological") (Hsem : s <> "semantic") :
  (forall time, sortAssets time (Some s) assets = assets) /\
  autoAssembleTimeline env tl assets (withStrategy s opts)
  = autoAssembleTimeline env tl assets (withStrategy "semantic" opts) /\
  autoAssemble env tl assets (withStrategy s opts)
  = autoAssemble env tl assets (withStrategy "semantic" opts).
Proof.
  assert (forall time, sortAssets time (Some s) assets = assets) as Hsort.
  { intros time. unfold sortAssets.
    destruct (String.eqb_spec s "chronological") as [?|_]; [done|].
    by destruct (String.eqb s "semantic"). }
  split; [exact Hsort|].
  unfold autoAssembleTimeline, autoAssemble, withStrategy.
  cbn [strategy groupBy addTransitions default].
  by rewrite !Hsort.
Qed.

Lemma unknown_strategy_keeps_input_order_witness :
  "random" <> "chronological" /\ "random" <> "semantic" /\
  autoAssemble sampleEnv emptyTimeline twoAssets
    (withStrategy "random" (options None None false))
  = autoAssemble sampleEnv emptyTimeline twoAssets
      (withStrategy "semantic" (options None None false)).
Proof.
  assert ("random" <> "chronological") as H1 by discriminate.
  assert ("random" <> "semantic") as H2 by discriminate.
  split; [exact H1|]. split; [exact H2|].
  exact (proj2 (proj2 (unknown_strategy_keeps_input_order sampleEnv
                         emptyTimeline twoAssets (options None None false)
                         "random" H1 H2))).
Defined.

(** C8. Whatever the options, assembling an empty asset sequence fails:
    the cloud function throws its no-assets error and the client method
    returns its no-assets failure; neither returns a timeline. *)
Theorem assembly_of_no_assets_fails env tl opts :
  autoAssembleTimeline env tl [] opts
  = Throw "internal" "No assets found for this timeline" /\
  autoAssemble env tl [] opts = Failure "No assets found to assemble" /\
  succeeded (autoAssembleTimeline env tl [] opts) = false /\
  succeeded (autoAssemble env tl [] opts) = false.
Proof. by split_and!. Qed.

(** ** Group keys *)

(** C9 as stated does not hold: for an asset whose [scene] is the number 0
    and whose analysis names the scene ["beach"], the first defined value
    of the chain gives the key ["0"], but the cloud function groups the
    asset under ["beach"]. *)
Lemma falsy_group_value_is_skipped :
  firstDefinedKey "scene" sceneZeroAsset = "0" /\
  cloudGroupKey "scene" sceneZeroAsset = "beach" /\
  cloudGroupKey "scene" sceneZeroAsset <> firstDefinedKey "scene" sceneZeroAsset.
Proof. split_and!; [vm_compute; reflexivity..|vm_compute; discriminate]. Qed.

(** C9, amended. In [autoAssembleTimeline] the group key of an asset is
    the first truthy value of the chain [metadata[groupBy]],
    [metadata.analysis[groupBy]], and ["unknown"] when neither is truthy; a
    value that is defined but falsy is passed over. *)
Theorem group_key_is_first_truthy (groupBy : string) (a : Asset) :
  cloudGroupKey groupBy a = firstTruthyKey groupBy a.
Proof.
  unfold cloudGroupKey, firstTruthyKey, lookupChain, truthyValue.
  cbn [firstSuchKey].
  destruct (tags (metadata a) !! groupBy) as [v|];
    [destruct (truthy v); [done|]|];
    (destruct (analysis (metadata a) ≫= _) as [w|];
       [by destruct (truthy w)|done]).
Qed.

(** Where every value found along the chain is truthy, that key is the
    first defined value, as the specification words it. *)
Lemma group_key_is_first_defined (groupBy : string) (a : Asset) :
  (forall v, Some v ∈ lookupChain groupBy a -> truthy v = true) ->
  cloudGroupKey groupBy a = firstDefinedKey groupBy a.
Proof.
  unfold cloudGroupKey, firstDefinedKey, lookupChain, truthyValue.
  cbn [firstSuchKey]. intros Htruthy.
  destruct (tags (metadata a) !! groupBy) as [v|].
  - by rewrite Htruthy by left.
  - destruct (analysis (metadata a) ≫= _) as [w|]; [|done].
    by rewrite Htruthy by (right; left).
Qed.

(** ** Adding a clip *)

Lemma fold_left_concat {A B} (f : B -> A -> B) (ls : list (list A)) (b : B) :
  fold_left f (concat ls) b = fold_left (fun acc l => fold_left f l acc) ls b.
Proof.
  revert b. induction ls as [|l ls IH]; intros b; [done|].
  cbn [concat fold_left]. by rewrite fold_left_app, IH.
Qed.

Lemma recalcDuration_concat (trs : list Track) :
  recalcDuration trs = fold_left maxStep (concat (clips <$> trs)) 0%Q.
Proof.
  unfold recalcDuration. rewrite fold_left_concat.
  generalize 0%Q. induction trs as [|t trs IH]; intros m; [done|].
  cbn [fmap list_fmap fold_left]. apply IH.
Qed.

Lemma maxStep_cases (m : Q) (c : Clip) :
  (maxStep m c = m /\ forall e, endTime c = Fin e -> (e <= m)%Q) \/
  (endTime c = Fin (maxStep m c) /\ (m <= maxStep m c)%Q).
Proof.
  unfold maxStep, jsGt. destruct (endTime c) as [e|].
  - destruct (Qle_bool e m) eqn:Hle; cbn [negb].
    + left. split; [done|]. intros e' [= <-]. by apply Qle_bool_iff.
    + right. split; [done|].
      apply Qlt_le_weak, Qnot_le_lt. intros Hle'.
      apply Qle_bool_iff in Hle'. congruence.
  - left. split; [done|]. by intros e.
Qed.

Lemma fold_maxStep (cs : list Clip) (m : Q) :
  (m <= fold_left maxStep cs m)%Q /\
  (forall c e, c ∈ cs -> endTime c = Fin e -> (e <= fold_left maxStep cs m)%Q) /\
  (fold_left maxStep cs m = m \/
   exists c, c ∈ cs /\ endTime c = Fin (fold_left maxStep cs m)).
Proof.
  revert m. induction cs as [|c cs IH]; intros m; cbn [fold_left].
  - split; [lra|]. split; [|by left]. intros c e Hc. by apply elem_of_nil in Hc.
  - destruct (IH (maxStep m c)) as (Hge & Hub & Hatt).
    destruct (maxStep_cases m c) as [[Heq Hle]|[Hend Hle]].
    + rewrite Heq in *. split; [done|]. split.
      * intros c' e Hc' He. apply elem_of_cons in Hc' as [->|Hc'].
        -- specialize (Hle e He). lra.
        -- by eapply Hub.
      * destruct Hatt as [?|(c' & Hc' & He)]; [by left|].
        right. exists c'. split; [by right|done].
    + split; [lra|]. split.
      * intros c' e Hc' He. apply elem_of_cons in Hc' as [->|Hc'].
        -- rewrite Hend in He. injection He as <-. done.
        -- by eapply Hub.
      * right. destruct Hatt as [Heq|(c' & Hc' & He)].
        -- exists c. split; [by left|]. by rewrite Heq.
        -- exists c'. split; [by right|done].
Qed.

Lemma fold_maxStep_perm (cs1 cs2 : list Clip) (m : Q) :
  cs1 ≡ₚ cs2 -> (fold_left maxStep cs1 m == fold_left maxStep cs2 m)%Q.
Proof.
  intros Hperm.
  destruct (fold_maxStep cs1 m) as (Hge1 & Hub1 & Hatt1).
  destruct (fold_maxStep cs2 m) as (Hge2 & Hub2 & Hatt2).
  apply Qle_antisym.
  - destruct Hatt1 as [->|(c & Hc & He)]; [done|].
    rewrite Hperm in Hc. by eapply Hub2.
  - destruct Hatt2 as [->|(c & Hc & He)]; [done|].
    rewrite <- Hperm in Hc. by eapply Hub1.
Qed.

Lemma findIndex_lt (trackId : string) (trs : list Track) (i : nat) :
  findIndex trackId trs = Some i -> (i < length trs)%nat.
Proof.
  revert i. induction trs as [|t trs IH]; intros i; cbn [findIndex]; [done|].
  destruct (String.eqb (track_id t) trackId).
  - intros [= <-]. simpl. lia.
  - destruct (findIndex trackId trs) as [j|]; [|done].
    intros [= <-]. specialize (IH j eq_refl). simpl. lia.
Qed.

Lemma clips_after_push (clip : Clip) (i : nat) (trs : list Track) :
  (i < length trs)%nat ->
  concat (clips <$> alter (pushClip clip) i trs)
  ≡ₚ clip :: concat (clips <$> trs).
Proof.
  revert i. induction trs as [|t trs IH]; intros i Hi; [simpl in Hi; lia|].
  destruct i as [|i]; cbn.
  - rewrite <- app_assoc. cbn. by rewrite <- Permutation_middle.
  - rewrite IH by (simpl in Hi; lia). by rewrite <- Permutation_middle.
Qed.

(** [addClip] succeeds exactly when the timeline has a track list and the
    track id is found in it. *)
Lemma addClip_succeeds env tl (trackId : string) clipData :
  succeeded (addClip env tl trackId clipData) = true <->
  exists trs i, tracks tl = Some trs /\ findIndex trackId trs = Some i.
Proof.
  unfold addClip. destruct (tracks tl) as [trs|] eqn:Htrs.
  - destruct (findIndex trackId trs) as [i|] eqn:Hidx; cbn [succeeded].
    + split; [|done]. intros _. by exists trs, i.
    + split; [done|]. intros (trs' & i & [= <-] & Hi). congruence.
  - split; [done|]. intros (trs & i & [=] & _).
Qed.

(** When the clip that [addClip] builds has a number [>= 0] as its end
    time, and so have the clips already stored, the duration after a
    successful [addClip] is the greatest [endTime] among all clips of all
    tracks, the new clip included; so it is right also when the new clip
    ends before an existing one. *)
Lemma addClip_duration_is_max_of_valid env tl (trackId : string) clipData tl' clip
    (Hrun : addClip env tl trackId clipData = Ok (tl', clip))
    (Hold : Forall validEndTime (allClips tl))
    (Hnew : validEndTime clip) :
  clip ∈ allClips tl' /\
  isMaxEndTime (tl_duration tl') (allClips tl') /\
  tl_duration tl' = fold_left maxStep (allClips tl') 0%Q.
Proof.
  unfold addClip in Hrun.
  destruct (tracks tl) as [trs|] eqn:Htrs; [|done].
  destruct (findIndex trackId trs) as [i|] eqn:Hidx; [|done].
  injection Hrun as <- <-. apply findIndex_lt in Hidx.
  set (clip := clipOfData env clipData) in *.
  unfold allClips in *. rewrite Htrs in Hold. cbn [tracks default tl_duration] in *.
  pose proof (clips_after_push clip i trs Hidx) as Hperm.
  set (cs := concat (clips <$> alter (pushClip clip) i trs)) in *.
  assert (clip ∈ cs) as Hin by (rewrite Hperm; left).
  assert (Forall validEndTime cs) as Hvalid.
  { eapply Permutation_Forall; [symmetry; exact Hperm|]. by constructor. }
  rewrite recalcDuration_concat. fold cs.
  split; [done|]. split; [|done].
  destruct (fold_maxStep cs 0%Q) as (Hge & Hub & Hatt).
  assert (forall c, c ∈ cs -> jsLe (endTime c) (Fin (fold_left maxStep cs 0%Q)))
    as Hall.
  { intros c Hc. rewrite Forall_forall in Hvalid. specialize (Hvalid c Hc).
    unfold validEndTime in Hvalid. destruct (endTime c) as [e|] eqn:He; [|done].
    simpl. by eapply Hub. }
  split; [|exact Hall].
  destruct Hatt as [Heq|(c & Hc & He)].
  - rewrite Forall_forall in Hvalid. specialize (Hvalid clip Hin).
    specialize (Hall clip Hin). unfold validEndTime in Hvalid.
    destruct (endTime clip) as [e|] eqn:He; [|done].
    exists clip, e. split; [done|]. split; [done|].
    simpl in Hvalid, Hall. rewrite Heq in *. lra.
  - exists c, (fold_left maxStep cs 0%Q). by split_and!.
Qed.

Lemma addClip_duration_is_max_of_valid_witness :
  Forall validEndTime (allClips oneClipTimeline) /\
  exists tl' clip,
    addClip sampleEnv oneClipTimeline "track-2" earlyClipData = Ok (tl', clip) /\
    validEndTime clip /\
    endTime clip = Fin 4 /\
    tl_duration tl' = 10%Q /\
    isMaxEndTime (tl_duration tl') (allClips tl').
Proof.
  assert (Forall validEndTime (allClips oneClipTimeline)) as Hold.
  { constructor; [|constructor]. unfold validEndTime. simpl. lra. }
  split; [exact Hold|].
  eexists _, _. split; [vm_compute; reflexivity|].
  assert (validEndTime (clipOfData sampleEnv earlyClipData)) as Hnew.
  { unfold validEndTime. simpl. lra. }
  split; [exact Hnew|]. split; [reflexivity|]. split; [reflexivity|].
  exact (proj1 (proj2 (addClip_duration_is_max_of_valid sampleEnv
                         oneClipTimeline "track-2" earlyClipData _ _ eq_refl
                         Hold Hnew))).
Defined.

(** The end time of the clip that [addClip] builds is a number exactly when
    [clipData] has a non-zero [endTime] or has a [startTime]:
    [clipData.endTime || (clipData.startTime + 5)] is [NaN] otherwise,
    although the [startTime] of the same clip defaults to 0. *)
Lemma clipOfData_endTime env clipData :
  (endTime (clipOfData env clipData) = NaN <->
   cd_startTime clipData = None /\
   (orDefault (cd_endTime clipData) 0 == 0)%Q) /\
  startTime (clipOfData env clipData)
  = Fin (orDefault (cd_startTime clipData) 0).
Proof.
  split; [|done]. unfold clipOfData, orDefault. cbn [endTime].
  destruct (cd_endTime clipData) as [e|]; [destruct (truthyQ e) eqn:Ht|].
  - split; [done|]. intros [_ He]. apply truthyQ_false in He. congruence.
  - destruct (cd_startTime clipData); split; (done || by intros []).
  - destruct (cd_startTime clipData); split; (done || by intros []).
Qed.



(** * Further properties of the code *)

(** ** Chronological ordering *)

Lemma elem_of_insertSorted {A} (gt : A -> A -> bool) (x z : A) (l : list A) :
  z ∈ insertSorted gt x l <-> z = x \/ z ∈ l.
Proof. by rewrite insertSorted_perm, elem_of_cons. Qed.

Lemma laterThan_false_valid time (a b : Asset) :
  is_Some (time a) -> is_Some (time b) ->
  laterThan time a b = false -> notLater time a b.
Proof.
  intros [x Hx] [y Hy]. unfold laterThan, notLater. rewrite Hx, Hy.
  intros H. exists x, y. split_and!; [done..|]. apply Z.ltb_ge in H. lia.
Qed.

Lemma laterThan_true_valid time (a b : Asset) :
  laterThan time a b = true -> notLater time b a /\ time a <> time b.
Proof.
  unfold laterThan, notLater.
  destruct (time a) as [x|], (time b) as [y|]; try done.
  intros H. apply Z.ltb_lt in H. split.
  - exists y, x. split_and!; [done..|]. lia.
  - intros [= ->]. lia.
Qed.

Lemma notLater_trans time (a b c : Asset) :
  notLater time a b -> notLater time b c -> notLater time a c.
Proof.
  intros (x & y & Hx & Hy & Hxy) (y' & z & Hy' & Hz & Hyz).
  exists x, z. split_and!; [done..|]. rewrite Hy in Hy'. injection Hy' as <-. lia.
Qed.

Lemma insertSorted_sorted time (x : Asset) (l : list Asset) :
  is_Some (time x) -> Forall (fun a => is_Some (time a)) l ->
  StronglySorted (notLater time) l ->
  StronglySorted (notLater time) (insertSorted (laterThan time) x l).
Proof.
  intros Hx Hl Hs. induction Hs as [|y l Hs IH Hy]; cbn [insertSorted].
  - repeat constructor.
  - apply Forall_cons in Hl as [Hvy Hl].
    destruct (laterThan time x y) eqn:Hgt.
    + apply laterThan_true_valid in Hgt as [Hyx _].
      constructor; [by apply IH|].
      apply Forall_forall. intros z Hz.
      apply elem_of_insertSorted in Hz as [->|Hz]; [done|].
      rewrite Forall_forall in Hy. by apply Hy.
    + apply (laterThan_false_valid _ _ _ Hx Hvy) in Hgt.
      constructor; [by constructor|].
      constructor; [done|].
      eapply Forall_impl; [exact Hy|]. intros z Hz.
      by eapply notLater_trans.
Qed.

Lemma sortBy_sorted time (l : list Asset) :
  Forall (fun a => is_Some (time a)) l ->
  StronglySorted (notLater time) (sortBy (laterThan time) l).
Proof.
  unfold sortBy. induction 1 as [|x l Hx Hl IH]; cbn [foldr]; [constructor|].
  apply insertSorted_sorted; [done| |done].
  fold (sortBy (laterThan time) l). by rewrite sortBy_perm.
Qed.

Lemma insertSorted_stable time (t : Z) (x : Asset) (l : list Asset) :
  filter (fun a => time a = Some t) (insertSorted (laterThan time) x l)
  = filter (fun a => time a = Some t) (x :: l).
Proof.
  induction l as [|y l IH]; cbn [insertSorted]; [done|].
  destruct (laterThan time x y) eqn:Hgt; [|done].
  apply laterThan_true_valid in Hgt as [_ Hne].
  rewrite filter_cons, IH, !filter_cons.
  destruct (decide (time y = Some t)) as [Hy|Hy],
           (decide (time x = Some t)) as [Hx|Hx]; try done.
  congruence.
Qed.

Lemma sortBy_stable time (t : Z) (l : list Asset) :
  filter (fun a => time a = Some t) (sortBy (laterThan time) l)
  = filter (fun a => time a = Some t) l.
Proof.
  unfold sortBy. induction l as [|x l IH]; cbn [foldr]; [done|].
  by rewrite insertSorted_stable, !filter_cons, IH.
Qed.

(** X1. When every asset has a valid date, the ["chronological"] strategy
    of either assembly path returns the same assets in ascending order of
    date, and assets of equal date keep their input order. *)
Theorem chronological_sort_is_stable_ascending time (assets : list Asset)
    (Hvalid : Forall (fun a => is_Some (time a)) assets) :
  let sorted := sortAssets time (Some "chronological") assets in
  sorted ≡ₚ assets /\
  StronglySorted (notLater time) sorted /\
  forall t, filter (fun a => time a = Some t) sorted
            = filter (fun a => time a = Some t) assets.
Proof.
  cbn [sortAssets String.eqb Ascii.eqb Bool.eqb]. cbv zeta.
  change (String.eqb "chronological" "chronological") with true. cbv iota.
  split_and!; [apply sortBy_perm|by apply sortBy_sorted|].
  intros t. apply sortBy_stable.
Qed.

Lemma chronological_sort_is_stable_ascending_witness :
  Forall (fun a => is_Some (cloudTime a)) datedAssets /\
  asset_id <$> sortAssets cloudTime (Some "chronological") datedAssets
  = ["D"; "A"; "B"; "E"; "C"] /\
  StronglySorted (notLater cloudTime)
    (sortAssets cloudTime (Some "chronological") datedAssets).
Proof.
  assert (Forall (fun a => is_Some (cloudTime a)) datedAssets) as Hvalid.
  { repeat (constructor; [by eexists|]). constructor. }
  split; [exact Hvalid|]. split; [vm_compute; reflexivity|].
  exact (proj1 (proj2 (chronological_sort_is_stable_ascending cloudTime
                         datedAssets Hvalid))).
Defined.

(** ** Shape of an assembled timeline *)

Section placed_clips.
Context (env : Env) (td : Q -> Q) (b : bool).

Lemma placedFrom_shape n t (assets : list Asset) :
  Forall2 clipOfAsset (placedFrom env td b n t assets) assets.
Proof.
  revert n t. induction assets as [|a rest IH]; intros n t; cbn [placedFrom].
  - constructor.
  - constructor; [|apply IH].
    unfold clipOfAsset. cbn. split_and!; try done. by exists t.
Qed.

Lemma placedFrom_head n t (assets : list Asset) c :
  head (placedFrom env td b n t assets) = Some c -> startTime c = Fin t.
Proof. destruct assets; cbn; [done|]. by intros [= <-]. Qed.

Lemma placedFrom_adjacent n t (assets : list Asset) k c1 c2 :
  placedFrom env td b n t assets !! k = Some c1 ->
  placedFrom env td b n t assets !! S k = Some c2 ->
  startTime c2 = endTime c1.
Proof.
  revert n t k. induction assets as [|a rest IH]; intros n t k H1 H2; [done|].
  cbn [placedFrom] in *. destruct k as [|k].
  - injection H1 as <-. destruct rest as [|a' rest]; [done|].
    cbn [placedFrom] in H2. by injection H2 as <-.
  - by eapply IH.
Qed.

Lemma placedFrom_plainCut td' n t (assets : list Asset) :
  plainCut <$> placedFrom env td b n t assets
  = placedFrom env td' false n t assets.
Proof.
  revert n t. induction assets as [|a rest IH]; intros n t; [done|].
  cbn [placedFrom]. by rewrite fmap_cons, IH.
Qed.

End placed_clips.

(** X2. A timeline returned by either assembly path keeps its name and
    frame rate and has exactly one track, of type ["video"], holding one
    clip per asset in placement order; each clip names its asset, uses the
    whole source ([inPoint = 0], [outPoint = clipDuration]), ends
    [clipDuration] after it starts and has no [out] transition. *)
Theorem assembly_places_one_clip_per_asset env tl (assets : list Asset) opts tl'
    (Hrun : autoAssembleTimeline env tl assets opts = Ok tl' \/
            autoAssemble env tl assets opts = Ok tl') :
  exists placed track,
    placed ≡ₚ assets /\
    tracks tl' = Some [track] /\
    track_type track = "video" /\
    tl_name tl' = tl_name tl /\
    framerate tl' = framerate tl /\
    Forall2 clipOfAsset (clips track) placed.
Proof.
  invert_assembly Hrun placed Hperm;
    (exists placed; eexists; split; [done|]; split; [reflexivity|];
     split_and!; [done..|];
     cbn [clips]; rewrite placeClips_unfold; apply placedFrom_shape).
Qed.

Lemma assembly_places_one_clip_per_asset_witness :
  exists tl',
    autoAssemble sampleEnv emptyTimeline twoAssets (options None None true)
    = Ok tl' /\
    exists placed track,
      placed ≡ₚ twoAssets /\
      tracks tl' = Some [track] /\
      track_type track = "video" /\
      tl_name tl' = tl_name emptyTimeline /\
      framerate tl' = framerate emptyTimeline /\
      Forall2 clipOfAsset (clips track) placed.
Proof.
  eexists. split; [vm_compute; reflexivity|].
  apply (assembly_places_one_clip_per_asset sampleEnv emptyTimeline twoAssets
           (options None None true)).
  right. vm_compute. reflexivity.
Defined.

(** X3. In a timeline returned by either assembly path the clips leave no
    gap: the first clip starts at 0, every other clip starts at the very
    [endTime] of the clip before it, and the last [endTime] is the duration
    of the timeline.  This needs no assumption on the durations. *)
Theorem assembled_clips_are_contiguous env tl (assets : list Asset) opts tl'
    (Hrun : autoAssembleTimeline env tl assets opts = Ok tl' \/
            autoAssemble env tl assets opts = Ok tl') :
  (forall c, head (allClips tl') = Some c -> startTime c = Fin 0) /\
  (forall k c1 c2, allClips tl' !! k = Some c1 -> allClips tl' !! S k = Some c2 ->
     startTime c2 = endTime c1) /\
  lastEndTime (allClips tl') = Fin (tl_duration tl').
Proof.
  assert (assets <> []) as Hassets.
  { intros ->. by destruct Hrun. }
  assert (exists td b placed, placed <> [] /\
            tl' = applyAssembly env tl (placeClips env td b placed))
    as (td & b & placed & Hne & ->).
  { invert_assembly Hrun placed Hperm; eexists _, _, placed; (split; [|done]);
      intros ->; by apply Permutation_nil in Hperm. }
  rewrite allClips_applyAssembly, placeClips_unfold. cbn [fst snd tl_duration applyAssembly].
  split_and!.
  - apply placedFrom_head.
  - apply placedFrom_adjacent.
  - by apply lastEndTime_placedFrom.
Qed.

Lemma assembled_clips_are_contiguous_witness :
  exists tl',
    autoAssembleTimeline sampleEnv emptyTimeline twoAssets
      (options None None false) = Ok tl' /\
    forall k c1 c2, allClips tl' !! k = Some c1 -> allClips tl' !! S k = Some c2 ->
      startTime c2 = endTime c1.
Proof.
  eexists. split; [vm_compute; reflexivity|].
  apply (assembled_clips_are_contiguous sampleEnv emptyTimeline twoAssets
           (options None None false)).
  left. vm_compute. reflexivity.
Defined.

(** ** Transitions and timing *)

(** X4. Asking for transitions changes nothing but the transitions: on
    either path the result with [addTransitions = true], its transitions
    removed, is the result with [addTransitions = false] (same outcome,
    clips, times, duration), and that one holds no transition at all. *)
Theorem transitions_leave_timing_unchanged env tl (assets : list Asset) opts :
  mapO withoutTransitions
    (autoAssembleTimeline env tl assets (withAddTransitions true opts))
  = autoAssembleTimeline env tl assets (withAddTransitions false opts) /\
  mapO withoutTransitions
    (autoAssemble env tl assets (withAddTransitions true opts))
  = autoAssemble env tl assets (withAddTransitions false opts).
Proof.
  unfold autoAssembleTimeline, autoAssemble, withAddTransitions.
  cbn [strategy groupBy addTransitions default].
  case_bool_decide; [done|].
  split.
  - destruct (groupAssets cloudGroupKey _ _) as [placed| |]; cbn; [|done..].
    unfold applyAssembly, withoutTransitions. rewrite !placeClips_unfold. cbn.
    unfold plainCutTrack. cbn [clips track_id track_type].
    by rewrite (placedFrom_plainCut _ _ _ clampedTransition).
  - destruct (groupAssets clientGroupKey _ _) as [placed| |]; cbn; [|done..].
    unfold applyAssembly, withoutTransitions. rewrite !placeClips_unfold. cbn.
    unfold plainCutTrack. cbn [clips track_id track_type].
    by rewrite (placedFrom_plainCut _ _ _ flatTransition).
Qed.

Lemma clamped_dissolve_bounds env b n t (assets : list Asset) c tr :
  Forall wellFormedAsset assets ->
  c ∈ placedFrom env clampedTransition b n t assets ->
  tr_in (transitions c) = Some tr ->
  tr_type tr = "dissolve" /\
  (0 < tr_duration tr)%Q /\ (tr_duration tr <= 1)%Q /\
  exists o, outPoint c = Fin o /\ (4 * tr_duration tr <= o)%Q.
Proof.
  intros Hwf. revert n t. induction Hwf as [|a rest Ha _ IH]; intros n t Hin Htr;
    cbn [placedFrom] in Hin; [by apply elem_of_nil in Hin|].
  apply elem_of_cons in Hin as [->|Hin]; [|by eapply IH].
  cbn in Htr. destruct (b && _); [|done]. injection Htr as <-.
  cbn [tr_type tr_duration outPoint makeClip].
  pose proof (clipDuration_pos a Ha) as Hpos.
  unfold clampedTransition, Qdiv. change (/ 4)%Q with (1 # 4)%Q.
  destruct (Q.min_spec 1 (clipDuration a * (1 # 4))) as [[Hlt Hmin]|[Hle Hmin]];
    rewrite Hmin.
  - split_and!; [done|lra|lra|]. eexists. split; [done|]. lra.
  - split_and!; [done|lra|lra|]. eexists. split; [done|]. lra.
Qed.

(** X5. In a timeline assembled by the cloud function from assets with
    non-negative durations, every transition is an [in] dissolve that is
    longer than 0, at most 1 second and at most a quarter of its clip. *)
Theorem cloud_dissolve_is_bounded env tl (assets : list Asset) opts tl'
    (Hwf : Forall wellFormedAsset assets)
    (Hrun : autoAssembleTimeline env tl assets opts = Ok tl') :
  forall c, c ∈ allClips tl' ->
    tr_out (transitions c) = None /\
    forall tr, tr_in (transitions c) = Some tr ->
      tr_type tr = "dissolve" /\
      (0 < tr_duration tr)%Q /\ (tr_duration tr <= 1)%Q /\
      exists o, outPoint c = Fin o /\ (4 * tr_duration tr <= o)%Q.
Proof.
  apply autoAssembleTimeline_Ok in Hrun as (placed & Hperm & _ & ->).
  assert (Forall wellFormedAsset placed) as Hwf'.
  { eapply Permutation_Forall; [symmetry; exact Hperm|exact Hwf]. }
  rewrite allClips_applyAssembly, placeClips_unfold. cbn [fst].
  intros c Hc. split.
  - apply list_elem_of_lookup_1 in Hc as [k Hk].
    destruct (placed !! k) as [a|] eqn:Ha.
    + by destruct (placedFrom_lookup _ _ _ _ _ _ _ _ _ Hk Ha) as (_ & _ & ? & _).
    + apply lookup_ge_None in Ha. apply lookup_lt_Some in Hk.
      rewrite length_placedFrom in Hk. lia.
  - intros tr Htr. by eapply clamped_dissolve_bounds.
Qed.

Lemma cloud_dissolve_is_bounded_witness :
  Forall wellFormedAsset shortAssets /\
  exists tl',
    autoAssembleTimeline sampleEnv emptyTimeline shortAssets
      (options None None true) = Ok tl' /\
    forall c, c ∈ allClips tl' ->
      tr_out (transitions c) = None /\
      forall tr, tr_in (transitions c) = Some tr ->
        tr_type tr = "dissolve" /\
        (0 < tr_duration tr)%Q /\ (tr_duration tr <= 1)%Q /\
        exists o, outPoint c = Fin o /\ (4 * tr_duration tr <= o)%Q.
Proof.
  assert (Forall wellFormedAsset shortAssets) as Hwf.
  { constructor; [unfold wellFormedAsset; simpl; lra|].
    constructor; [unfold wellFormedAsset; simpl; lra|]. constructor. }
  split; [exact Hwf|].
  eexists. split; [vm_compute; reflexivity|].
  apply (cloud_dissolve_is_bounded sampleEnv emptyTimeline shortAssets
           (options None None true) _ Hwf).
  vm_compute. reflexivity.
Defined.

(** ** Assembly after manual edits *)

(** X6. Assembly replaces the tracks of the timeline: after a successful
    [addClip] both assembly paths return exactly what they return without
    it, so the clip added by hand is gone. *)
Theorem assembly_discards_added_clips env env0 tl (trackId : string) clipData
    tl1 clip (assets : list Asset) opts
    (Hadd : addClip env0 tl trackId clipData = Ok (tl1, clip)) :
  autoAssembleTimeline env tl1 assets opts
  = autoAssembleTimeline env tl assets opts /\
  autoAssemble env tl1 assets opts = autoAssemble env tl assets opts.
Proof.
  unfold addClip in Hadd.
  destruct (tracks tl) as [trs|]; [|done].
  destruct (findIndex trackId trs) as [i|]; [|done].
  injection Hadd as <- _. done.
Qed.

Lemma assembly_discards_added_clips_witness :
  exists tl1 clip,
    addClip sampleEnv oneClipTimeline "track-2" earlyClipData = Ok (tl1, clip) /\
    autoAssemble sampleEnv tl1 twoAssets (options None None false)
    = autoAssemble sampleEnv oneClipTimeline twoAssets (options None None false).
Proof.
  eexists _, _. split; [vm_compute; reflexivity|].
  exact (proj2 (assembly_discards_added_clips sampleEnv sampleEnv
                  oneClipTimeline "track-2" earlyClipData _ _ twoAssets
                  (options None None false) eq_refl)).
Defined.

(** ** Grouping: which inputs fail, and what a success looks like *)

Lemma ownProperty_Some_key {V} (k : string) (v : V) (o : list (string * V)) :
  ownProperty k o = Some v -> k ∈ o.*1.
Proof.
  induction o as [|[k' v'] o IH]; cbn [ownProperty]; [done|].
  destruct (String.eqb_spec k k') as [->|_].
  - intros _. rewrite fmap_cons. by left.
  - intros H. rewrite fmap_cons. right. by apply IH.
Qed.

Lemma setProperty_keys {V} (P : string -> Prop) (k : string) (v : V)
    (o : list (string * V)) :
  P k -> Forall P o.*1 -> Forall P (setProperty k v o).*1.
Proof.
  intros Hk. induction o as [|[k' v'] o IH]; cbn [setProperty].
  - intros _. by repeat constructor.
  - rewrite fmap_cons, Forall_cons. intros [Hk' Ho].
    destruct (String.eqb k k'); rewrite fmap_cons; constructor; auto.
Qed.

Lemma groupLoop_throws key (assets : list Asset) groups :
  Forall (fun k => inheritedKey k = false) groups.*1 ->
  Exists (fun a => inheritedKey (key a) = true) assets ->
  groupLoop key groups assets
  = Throw "TypeError" "groups[groupKey].push is not a function".
Proof.
  revert groups. induction assets as [|a rest IH]; intros groups Hown Hex.
  - by apply Exists_nil in Hex.
  - cbn [groupLoop].
    destruct (inheritedKey (key a)) eqn:Hkey.
    + destruct (ownProperty (key a) groups) as [members|] eqn:Hget; [|done].
      apply ownProperty_Some_key in Hget.
      rewrite Forall_forall in Hown. specialize (Hown _ Hget). congruence.
    + apply Exists_cons in Hex as [Hex|Hex]; [congruence|].
      destruct (ownProperty (key a) groups) as [members|];
        apply IH; try done; by apply setProperty_keys.
Qed.

Lemma groupAssets_succeeds_iff key groupBy (l : list Asset) :
  succeeded (groupAssets key groupBy l) = true <->
  forall g, groupBy = Some g -> g <> EmptyString ->
    forall a, a ∈ l -> inheritedKey (key g a) = false.
Proof.
  split.
  - intros Hok g -> Hg a Ha. unfold groupAssets in Hok.
    destruct (String.eqb_spec g EmptyString) as [?|_]; [done|].
    destruct (inheritedKey (key g a)) eqn:Hkey; [|done].
    rewrite groupLoop_throws in Hok; [done|by constructor|].
    apply Exists_exists. by exists a.
  - intros Hkeys. unfold groupAssets. destruct groupBy as [g|]; [|done].
    destruct (String.eqb_spec g EmptyString) as [?|Hg]; [done|].
    change (@nil (string * list Asset)) with (groupsOf (key g) []).
    by rewrite groupLoop_ordinary by (intros a Ha; by apply (Hkeys g)).
Qed.

(** X7. Assembly returns a timeline exactly when there is at least one
    asset and, if grouping is on, no asset's group key is a property name
    of [Object.prototype] (such as ["constructor"] or ["toString"]); the
    client method groups by ["scene"] when no key is given. *)
Theorem assembly_succeeds_iff env tl (assets : list Asset) opts :
  (succeeded (autoAssembleTimeline env tl assets opts) = true <->
   assets <> [] /\
   forall g, groupBy opts = Some g -> g <> EmptyString ->
     forall a, a ∈ assets -> inheritedKey (cloudGroupKey g a) = false) /\
  (succeeded (autoAssemble env tl assets opts) = true <->
   assets <> [] /\
   forall g, default "scene" (groupBy opts) = g -> g <> EmptyString ->
     forall a, a ∈ assets -> inheritedKey (clientGroupKey g a) = false).
Proof.
  unfold autoAssembleTimeline, autoAssemble. split.
  - destruct assets as [|a0 rest]; [by split; [|intros [? _]]|].
    rewrite bool_decide_eq_false_2 by done.
    pose proof (groupAssets_succeeds_iff cloudGroupKey (groupBy opts)
                  (sortAssets cloudTime (strategy opts) (a0 :: rest))) as Hiff.
    set (r := groupAssets cloudGroupKey _ _) in *.
    assert (succeeded (catchInternal (bindO r (fun groupedAssets =>
              Ok (applyAssembly env tl (placeClips env clampedTransition
                    (default false (addTransitions opts)) groupedAssets)))))
            = succeeded r) as -> by (by destruct r).
    rewrite Hiff. split.
    + intros H. split; [done|]. intros g Hg Hne a Ha.
      apply (H g Hg Hne). by rewrite sortAssets_perm.
    + intros [_ H] g Hg Hne a Ha. apply (H g Hg Hne).
      by rewrite sortAssets_perm in Ha.
  - destruct assets as [|a0 rest]; [by split; [|intros [? _]]|].
    rewrite bool_decide_eq_false_2 by done.
    pose proof (groupAssets_succeeds_iff clientGroupKey
                  (Some (default "scene" (groupBy opts)))
                  (sortAssets clientTime
                     (Some (default "chronological" (strategy opts)))
                     (a0 :: rest))) as Hiff.
    set (r := groupAssets clientGroupKey _ _) in *.
    assert (succeeded (bindO r (fun groupedAssets =>
              Ok (applyAssembly env tl (placeClips env flatTransition
                    (default false (addTransitions opts)) groupedAssets))))
            = succeeded r) as -> by (by destruct r).
    rewrite Hiff. split.
    + intros H. split; [done|]. intros g Hg Hne a Ha.
      apply (H g (f_equal Some Hg) Hne). by rewrite sortAssets_perm.
    + intros [_ H] g [= Hg] Hne a Ha. apply (H g Hg Hne).
      by rewrite sortAssets_perm in Ha.
Qed.

Lemma insertIndexed_perm {V} (i : N) (v : V) (l : list (N * V)) :
  (insertIndexed i v l).*2 ≡ₚ v :: l.*2.
Proof.
  induction l as [|[j w] l IH]; cbn [insertIndexed]; [done|].
  destruct (i <? j)%N; [done|].
  rewrite !fmap_cons, IH. cbn [snd]. apply Permutation_swap.
Qed.

Lemma objectValues_perm {V} (o : list (string * V)) : objectValues o ≡ₚ o.*2.
Proof.
  unfold objectValues, indexedEntries, namedEntries.
  induction o as [|[k v] o IH]; [done|].
  rewrite filter_cons. cbn [foldr fst snd].
  destruct (arrayIndex k) as [i|] eqn:Hk.
  - rewrite decide_False by done.
    rewrite insertIndexed_perm, fmap_cons. cbn [app snd]. by rewrite IH.
  - rewrite decide_True by done.
    rewrite !fmap_cons. cbn [snd]. rewrite <- Permutation_middle. by rewrite IH.
Qed.

Lemma fmap_Permutation_inv {A B} (f : A -> B) (l1 : list B) (l2 : list A) :
  l1 ≡ₚ f <$> l2 -> exists l3, l1 = f <$> l3 /\ l2 ≡ₚ l3.
Proof.
  assert (forall l : list A, f <$> l = map f l) as Hmap.
  { induction l as [|x l IH]; [done|]. by rewrite fmap_cons, IH. }
  rewrite Hmap. intros H.
  destruct (Permutation_map_inv _ _ H) as (l3 & -> & Hperm).
  exists l3. split; [symmetry; apply Hmap|done].
Qed.

(** X8. Whenever the grouping step succeeds with a key, its output is the
    groups laid end to end in some order of the group keys: the members of
    a group are adjacent and keep their input order, whatever the order in
    which the groups come out. *)
Theorem grouping_keeps_groups_together key (g : string) (l out : list Asset)
    (Hg : g <> EmptyString)
    (Hrun : groupAssets key (Some g) l = Ok out) :
  exists ks,
    ks ≡ₚ firstAppearances (key g <$> l) /\
    out = concat ((fun k => filter (fun a => key g a = k) l) <$> ks).
Proof.
  assert (succeeded (groupAssets key (Some g) l) = true) as Hok
    by (by rewrite Hrun).
  rewrite groupAssets_succeeds_iff in Hok. specialize (Hok g eq_refl Hg).
  unfold groupAssets in Hrun.
  destruct (String.eqb_spec g EmptyString) as [?|_]; [done|].
  change (@nil (string * list Asset)) with (groupsOf (key g) []) in Hrun.
  rewrite groupLoop_ordinary in Hrun by done.
  cbn [bindO app] in Hrun. injection Hrun as <-.
  pose proof (objectValues_perm (groupsOf (key g) l)) as Hperm.
  unfold groupsOf in Hperm at 2. rewrite <- list_fmap_compose in Hperm.
  apply fmap_Permutation_inv in Hperm as (ks & Hks & Hp).
  exists ks. split; [by symmetry|]. by rewrite Hks.
Qed.

Lemma grouping_keeps_groups_together_witness :
  "scene" <> EmptyString /\
  exists out,
    groupAssets clientGroupKey (Some "scene") numberedScenes = Ok out /\
    exists ks,
      ks ≡ₚ firstAppearances (clientGroupKey "scene" <$> numberedScenes) /\
      out = concat ((fun k =>
                       filter (fun a => clientGroupKey "scene" a = k)
                         numberedScenes) <$> ks).
Proof.
  assert ("scene" <> EmptyString) as Hg by discriminate.
  split; [exact Hg|].
  eexists. split; [vm_compute; reflexivity|].
  apply (grouping_keeps_groups_together clientGroupKey "scene" numberedScenes
           _ Hg).
  vm_compute. reflexivity.
Defined.

(** ** The text of an EDL *)

Lemma string_app_assoc (a b c : string) : (a +:+ b) +:+ c = a +:+ b +:+ c.
Proof.
  induction a as [|ch a IH]; [done|].
  change (String ch ((a +:+ b) +:+ c) = String ch (a +:+ b +:+ c)).
  by f_equal.
Qed.

Lemma string_app_nil_r (a : string) : a +:+ EmptyString = a.
Proof.
  induction a as [|ch a IH]; [done|].
  change (String ch (a +:+ EmptyString) = String ch a).
  by f_equal.
Qed.

Lemma eventBlocks_app fr n (cs1 cs2 : list Clip) :
  eventBlocks fr n (cs1 ++ cs2)
  = eventBlocks fr n cs1 +:+ eventBlocks fr (n + N.of_nat (length cs1))%N cs2.
Proof.
  revert n. induction cs1 as [|c cs1 IH]; intros n.
  - cbn. by rewrite N.add_0_r.
  - cbn [app eventBlocks length]. rewrite IH, string_app_assoc.
    do 3 f_equal. lia.
Qed.

Lemma fold_emitClip fr (cs : list Clip) (edl : string) (n : N) :
  fold_left (emitClip fr) cs (edl, n)
  = (edl +:+ eventBlocks fr n cs, (n + N.of_nat (length cs))%N).
Proof.
  revert edl n. induction cs as [|c cs IH]; intros edl n.
  - cbn. by rewrite string_app_nil_r, N.add_0_r.
  - cbn [fold_left].
    change (emitClip fr (edl, n) c) with (edl +:+ eventBlock fr n c, (n + 1)%N).
    rewrite IH, string_app_assoc. cbn [eventBlocks length]. f_equal. lia.
Qed.

Lemma fold_emitTrack fr (trs : list Track) (edl : string) (n : N) :
  fold_left (emitTrack fr) trs (edl, n)
  = (edl +:+ eventBlocks fr n (concat (clips <$> trs)),
     (n + N.of_nat (length (concat (clips <$> trs))))%N).
Proof.
  revert edl n. induction trs as [|t trs IH]; intros edl n.
  - cbn. by rewrite string_app_nil_r, N.add_0_r.
  - cbn [fold_left fmap list_fmap concat]. unfold emitTrack at 2.
    rewrite fold_emitClip, IH, eventBlocks_app, string_app_assoc, length_app.
    f_equal. lia.
Qed.

(** X9. Both generators write the header and then one event per clip,
    numbered 1, 2, 3, ... across all tracks in track-then-clip order; the
    text depends on the tracks only through that clip sequence, so where
    one track ends and the next begins leaves no trace in the EDL. *)
Theorem edl_is_header_and_numbered_events tl (trs : list Track) :
  generateCMX3600EDL tl trs
  = edlHeader (tl_name tl)
    +:+ eventBlocks (orDefault (Some (framerate tl)) 24) 1
          (concat (clips <$> trs)) /\
  _generateCMX3600EDL tl trs
  = edlHeader (tl_name tl)
    +:+ eventBlocks (framerate tl) 1 (concat (clips <$> trs)) /\
  forall trs' : list Track,
    concat (clips <$> trs') = concat (clips <$> trs) ->
    generateCMX3600EDL tl trs' = generateCMX3600EDL tl trs /\
    _generateCMX3600EDL tl trs' = _generateCMX3600EDL tl trs.
Proof.
  unfold generateCMX3600EDL, _generateCMX3600EDL, generateEDLWith.
  split_and!.
  - by rewrite fold_emitTrack.
  - by rewrite fold_emitTrack.
  - intros trs' Hsame. rewrite !fold_emitTrack. cbn [fst]. by rewrite Hsame.
Qed.

(** X10. For a timeline whose frame rate is not zero the cloud generator
    and the client generator write the same text, and the two exporters
    return the same EDL for the format ["CMX3600"]. *)
Theorem generators_agree tl (trs : list Track) (text : string)
    (Hfr : ~ (framerate tl == 0)%Q) :
  generateCMX3600EDL tl trs = _generateCMX3600EDL tl trs /\
  (exportTimelineEDL (Some "CMX3600") tl = Ok text
   <-> exportEDL (Some "CMX3600") tl = Ok text).
Proof.
  assert (orDefault (Some (framerate tl)) 24 = framerate tl) as Hor.
  { unfold orDefault. apply truthyQ_true in Hfr. by rewrite Hfr. }
  assert (forall trs0, generateCMX3600EDL tl trs0 = _generateCMX3600EDL tl trs0)
    as Hgen.
  { intros trs0. unfold generateCMX3600EDL, _generateCMX3600EDL. by rewrite Hor. }
  split; [apply Hgen|].
  unfold exportTimelineEDL, exportEDL.
  destruct (tracks tl) as [[|t trs0]|]; cbn; [done| |done].
  by rewrite Hgen.
Qed.

Lemma generators_agree_witness :
  ~ (framerate thirtyFpsTimeline == 0)%Q /\
  generateCMX3600EDL thirtyFpsTimeline
    (default [] (tracks thirtyFpsTimeline))
  = _generateCMX3600EDL thirtyFpsTimeline
      (default [] (tracks thirtyFpsTimeline)) /\
  _generateCMX3600EDL thirtyFpsTimeline (default [] (tracks thirtyFpsTimeline))
  = edlHeader "Demo"
    +:+ "001  AX       V     C        "
    +:+ "00:00:00:00 00:00:01:15 00:00:00:00 00:00:01:15" +:+ newline
    +:+ "* FROM CLIP NAME: asset-1" +:+ newline +:+ newline /\
  formatTC 24 (3 # 2) = "00:00:01:12".
Proof.
  assert (~ (framerate thirtyFpsTimeline == 0)%Q) as Hfr by (by vm_compute).
  split; [exact Hfr|]. split; [|split; vm_compute; reflexivity].
  exact (proj1 (generators_agree thirtyFpsTimeline
                  (default [] (tracks thirtyFpsTimeline)) EmptyString Hfr)).
Defined.


(** X12. A timeline returned by either assembly path can always be
    exported by the client exporter, and the EDL holds the header followed
    by exactly one event per asset, numbered from 1. *)
Theorem assembled_timeline_exports env tl (assets : list Asset) opts tl'
    (Hrun : autoAssembleTimeline env tl assets opts = Ok tl' \/
            autoAssemble env tl assets opts = Ok tl') :
  exists cs,
    length cs = length assets /\
    allClips tl' = cs /\
    exportEDL None tl'
    = Ok (edlHeader (tl_name tl) +:+ eventBlocks (framerate tl) 1 cs).
Proof.
  assert (exists td b placed, placed ≡ₚ assets /\
            tl' = applyAssembly env tl (placeClips env td b placed))
    as (td & b & placed & Hperm & ->).
  { invert_assembly Hrun placed Hp; by eexists _, _, placed. }
  eexists. split; [|split; [reflexivity|]].
  - rewrite allClips_applyAssembly, placeClips_unfold. cbn [fst].
    by rewrite length_placedFrom, Hperm.
  - unfold exportEDL, applyAssembly at 1. cbn [tracks default String.eqb].
    change (String.eqb "CMX3600" "CMX3600") with true. cbv iota.
    unfold _generateCMX3600EDL, generateEDLWith. rewrite fold_emitTrack.
    by cbn.
Qed.

Lemma assembled_timeline_exports_witness :
  exists tl',
    autoAssemble sampleEnv emptyTimeline twoAssets (options None None false)
    = Ok tl' /\
    exists cs,
      length cs = length twoAssets /\
      allClips tl' = cs /\
      exportEDL None tl'
      = Ok (edlHeader (tl_name emptyTimeline)
            +:+ eventBlocks (framerate emptyTimeline) 1 cs).
Proof.
  eexists. split; [vm_compute; reflexivity|].
  apply (assembled_timeline_exports sampleEnv emptyTimeline twoAssets
           (options None None false)).
  right. vm_compute. reflexivity.
Defined.

(** ** Timecodes read back *)

Lemma Qfloor_unique (x : Q) (z : Z) :
  (inject_Z z <= x)%Q -> (x < inject_Z z + 1)%Q -> Qfloor x = z.
Proof.
  intros Hlo Hhi. destruct (Qfloor_bounds x) as [Flo Fhi].
  assert (inject_Z (Qfloor x) < inject_Z (z + 1))%Q as H1
    by (rewrite inject_Z_plus; change (inject_Z 1) with 1%Q; lra).
  assert (inject_Z z < inject_Z (Qfloor x + 1))%Q as H2
    by (rewrite inject_Z_plus; change (inject_Z 1) with 1%Q; lra).
  rewrite <- Zlt_Qlt in H1, H2. lia.
Qed.

(** The whole seconds of a timecode are the whole seconds of the time. *)
Lemma timecode_whole_seconds (seconds : Q) :
  (0 <= seconds)%Q ->
  Qfloor (seconds / 1)
  = (3600 * Qfloor (seconds / 3600) + 60 * Qfloor (Qmod seconds 3600 / 60)
     + Qfloor (Qmod seconds 60))%Z.
Proof.
  intros Hsec.
  destruct (Qfloor_bounds (seconds / 3600)) as [Hh0 Hh1].
  destruct (Qfloor_bounds (Qmod seconds 3600 / 60)) as [Hm0 Hm1].
  destruct (Qfloor_bounds (Qmod seconds 60)) as [Hs0 Hs1].
  destruct (Qfloor_bounds (seconds / 60)) as [Hq0 Hq1].
  unfold Qmod in *.
  set (H := Qfloor (seconds / 3600)) in *.
  set (M := Qfloor ((seconds - 3600 * inject_Z H) / 60)) in *.
  assert (Qfloor (seconds / 60) = 60 * H + M)%Z as Hq.
  { apply Qfloor_unique; rewrite inject_Z_plus, inject_Z_mult;
      change (inject_Z 60) with 60%Q;
      unfold Qdiv in *; change (/ 60)%Q with (1 # 60)%Q in *;
      change (/ 3600)%Q with (1 # 3600)%Q in *; lra. }
  rewrite Hq in Hs0, Hs1 |- *.
  set (S := Qfloor (seconds - 60 * inject_Z (60 * H + M))) in *.
  rewrite inject_Z_plus, inject_Z_mult in Hs0, Hs1.
  change (inject_Z 60) with 60%Q in *.
  apply Qfloor_unique;
    rewrite !inject_Z_plus, !inject_Z_mult;
    change (inject_Z 60) with 60%Q; change (inject_Z 3600) with 3600%Q;
    unfold Qdiv in *; change (/ 1)%Q with 1%Q; lra.
Qed.

(** The time shown by the fields the formatters compute: it is less than a
    frame below the time and less than [2^-53] seconds above it. *)
Lemma rounded_timecode_reads_back (seconds : Q) (fps : positive) :
  isDouble seconds -> (0 <= seconds)%Q -> (seconds < pow2 52)%Q ->
  (Zpos fps < 2 ^ 53)%Z ->
  let fr := inject_Z (Zpos fps) in
  let hh := Qfloor (seconds / 3600) in
  let mm := Qfloor (Qmod seconds 3600 / 60) in
  let ss := Qfloor (Qmod seconds 60) in
  let ff := Qfloor (round64 (Qmod seconds 1 * fr)) in
  (0 <= hh)%Z /\ (0 <= mm < 60)%Z /\ (0 <= ss < 60)%Z /\
  (0 <= ff < Zpos fps)%Z /\
  (timecodeSeconds (hh, mm, ss, ff) fr - pow2 (-53) < seconds)%Q /\
  (seconds < timecodeSeconds (hh, mm, ss, ff) fr + 1 / fr)%Q.
Proof.
  intros Hdbl Hsec Hmax Hfps fr hh mm ss ff.
  pose proof (timecodeFields_ranges seconds fps Hsec) as Hranges.
  unfold timecodeFields in Hranges. fold fr hh mm ss in Hranges.
  destruct Hranges as (Hh & Hm & Hs & _).
  destruct (rounded_whole_fields seconds Hdbl Hsec Hmax) as (_ & _ & _ & _ & Hfrac).
  destruct (Qmod_range seconds 1 ltac:(lra)) as [Hf0 Hf1].
  destruct (frame_field (Qmod seconds 1) (Zpos fps) Hfrac Hf0 Hf1 ltac:(lia))
    as (Hnear & Hexact0 & Hbelow & Hover & _).
  fold fr in Hnear, Hexact0, Hbelow, Hover. fold ff in Hnear, Hbelow, Hover.
  destruct (Qfloor_bounds (Qmod seconds 1 * fr)) as [_ Hhi].
  assert (inject_Z (Qfloor (Qmod seconds 1 * fr)) <= inject_Z ff)%Q as Hle
    by (rewrite <- Zle_Qle; lia).
  assert (0 < fr)%Q as Hfr by (unfold fr, Qlt; simpl; lia).
  split_and!; [done|lia|lia|lia|lia|lia|lia| |].
  - unfold timecodeSeconds, hh, mm, ss.
    rewrite <- (timecode_whole_seconds seconds Hsec).
    unfold Qmod in Hf0, Hf1, Hover. set (T := inject_Z (Qfloor (seconds / 1))) in *.
    assert (inject_Z ff / fr * fr == inject_Z ff)%Q as Hq by (field; lra).
    set (q := (inject_Z ff / fr)%Q) in *.
    change (pow2 (-53)) with (1 # 9007199254740992)%Q in *.
    set (frac := (seconds - 1 * T)%Q) in *.
    assert (q <= frac + frac * (1 # 9007199254740992))%Q as H1 by nra.
    unfold frac in *. lra.
  - unfold timecodeSeconds, hh, mm, ss.
    rewrite <- (timecode_whole_seconds seconds Hsec).
    unfold Qmod in Hf0, Hf1, Hhi, Hle. set (T := inject_Z (Qfloor (seconds / 1))) in *.
    assert (inject_Z ff / fr * fr == inject_Z ff)%Q as Hq by (field; lra).
    assert (1 / fr * fr == 1)%Q as Hr by (field; lra).
    set (q := (inject_Z ff / fr)%Q) in *. set (r := (1 / fr)%Q) in *.
    set (frac := (seconds - 1 * T)%Q) in *.
    assert (frac < q + r)%Q as H1 by nra.
    unfold frac in *. lra.
Qed.

(** X13. For a binary64 value [0 <= seconds < 2^52] and an integer frame
    rate below [2^53], the timecode that [formatTC] prints has minutes and
    seconds below 60 and a frame count below the frame rate, and read back
    as a time it lies less than one frame below [seconds] and less than
    [2^-53] seconds above it: the frame can be rounded up, and then by a
    rounding error only. *)
Theorem formatTC_reads_back (seconds : Q) (fps : positive)
    (Hdbl : isDouble seconds) (Hsec : (0 <= seconds)%Q)
    (Hmax : (seconds < pow2 52)%Q) (Hfps : (Zpos fps < 2 ^ 53)%Z) :
  let fr := inject_Z (Zpos fps) in
  exists hh mm ss ff,
    formatTC fr seconds = renderTimecode (hh, mm, ss, ff) /\
    (0 <= hh)%Z /\ (0 <= mm < 60)%Z /\ (0 <= ss < 60)%Z /\
    (0 <= ff < Zpos fps)%Z /\
    (timecodeSeconds (hh, mm, ss, ff) fr - pow2 (-53) < seconds)%Q /\
    (seconds < timecodeSeconds (hh, mm, ss, ff) fr + 1 / fr)%Q.
Proof.
  intros fr.
  exists (Qfloor (seconds / 3600)), (Qfloor (Qmod seconds 3600 / 60)),
    (Qfloor (Qmod seconds 60)), (Qfloor (round64 (Qmod seconds 1 * fr))).
  split; [exact (formatTC_fields fr seconds Hdbl Hsec Hmax)|].
  exact (rounded_timecode_reads_back seconds fps Hdbl Hsec Hmax Hfps).
Qed.

Lemma formatTC_reads_back_witness :
  isDouble threeTenths /\ (0 <= threeTenths)%Q /\ (threeTenths < pow2 52)%Q /\
  (30 < 2 ^ 53)%Z /\
  formatTC (inject_Z 30) threeTenths = "00:00:00:09" /\
  exists hh mm ss ff,
    formatTC (inject_Z 30) threeTenths = renderTimecode (hh, mm, ss, ff) /\
    (0 <= hh)%Z /\ (0 <= mm < 60)%Z /\ (0 <= ss < 60)%Z /\
    (0 <= ff < 30)%Z /\
    (timecodeSeconds (hh, mm, ss, ff) (inject_Z 30) - pow2 (-53)
     < threeTenths)%Q /\
    (threeTenths < timecodeSeconds (hh, mm, ss, ff) (inject_Z 30)
                   + 1 / inject_Z 30)%Q.
Proof.
  assert (isDouble threeTenths) as Hdbl by (vm_compute; reflexivity).
  assert (0 <= threeTenths)%Q as Hsec by (by vm_compute).
  assert (threeTenths < pow2 52)%Q as Hmax by (by vm_compute).
  assert (30 < 2 ^ 53)%Z as Hfps by lia.
  refine (conj Hdbl (conj Hsec (conj Hmax (conj Hfps (conj _ _))))).
  - vm_compute. reflexivity.
  - exact (formatTC_reads_back threeTenths 30 Hdbl Hsec Hmax Hfps).
Defined.

Lemma formatTime_fields (x : Q) :
  isDouble x -> (0 <= x)%Q -> (x < pow2 52)%Q ->
  formatTime x
  = renderDisplayTime (Qfloor (x / 3600), Qfloor (Qmod x 3600 / 60),
                       Qfloor (Qmod x 60), Qfloor (round64 (Qmod x 1 * 100))).
Proof.
  intros Hd Hx Hmax.
  destruct (rounded_whole_fields x Hd Hx Hmax) as (Hh & Hm & Hs & Hf & _).
  unfold formatTime, renderDisplayTime. by rewrite Hh, Hm, Hs, Hf.
Qed.

(** X14. For a binary64 value [0 <= seconds < 2^52] the editor's
    [formatTime] prints minutes and seconds below 60 and hundredths below
    100, and the time it shows lies less than one hundredth of a second
    below [seconds] and less than [2^-53] seconds above it. *)
Theorem formatTime_reads_back (seconds : Q)
    (Hdbl : isDouble seconds) (Hsec : (0 <= seconds)%Q)
    (Hmax : (seconds < pow2 52)%Q) :
  exists hh mm ss cc,
    formatTime seconds = renderDisplayTime (hh, mm, ss, cc) /\
    (0 <= hh)%Z /\ (0 <= mm < 60)%Z /\ (0 <= ss < 60)%Z /\
    (0 <= cc < 100)%Z /\
    (timecodeSeconds (hh, mm, ss, cc) 100 - pow2 (-53) < seconds)%Q /\
    (seconds < timecodeSeconds (hh, mm, ss, cc) 100 + 1 / 100)%Q.
Proof.
  exists (Qfloor (seconds / 3600)), (Qfloor (Qmod seconds 3600 / 60)),
    (Qfloor (Qmod seconds 60)), (Qfloor (round64 (Qmod seconds 1 * 100))).
  split; [exact (formatTime_fields seconds Hdbl Hsec Hmax)|].
  exact (rounded_timecode_reads_back seconds 100 Hdbl Hsec Hmax ltac:(lia)).
Qed.

Lemma formatTime_reads_back_witness :
  isDouble threeHundredths /\ (0 <= threeHundredths)%Q /\
  (threeHundredths < pow2 52)%Q /\
  formatTime threeHundredths = "00:00:00.03" /\
  exists hh mm ss cc,
    formatTime threeHundredths = renderDisplayTime (hh, mm, ss, cc) /\
    (0 <= hh)%Z /\ (0 <= mm < 60)%Z /\ (0 <= ss < 60)%Z /\
    (0 <= cc < 100)%Z /\
    (timecodeSeconds (hh, mm, ss, cc) 100 - pow2 (-53) < threeHundredths)%Q /\
    (threeHundredths < timecodeSeconds (hh, mm, ss, cc) 100 + 1 / 100)%Q.
Proof.
  assert (isDouble threeHundredths) as Hdbl by (vm_compute; reflexivity).
  assert (0 <= threeHundredths)%Q as Hsec by (by vm_compute).
  assert (threeHundredths < pow2 52)%Q as Hmax by (by vm_compute).
  refine (conj Hdbl (conj Hsec (conj Hmax (conj _ _)))).
  - vm_compute. reflexivity.
  - exact (formatTime_reads_back threeHundredths Hdbl Hsec Hmax).
Defined.

(** ** The file name of an export *)

Lemma sanitize_char (c : ascii) :
  let c' := toLowerCaseChar (if isAlnum c then c else "_"%char) in
  fileNameChar c' = true /\
  toLowerCaseChar (if isAlnum c' then c' else "_"%char) = c'.
Proof.
  destruct c as [b0 b1 b2 b3 b4 b5 b6 b7].
  destruct b0, b1, b2, b3, b4, b5, b6, b7; vm_compute; split; reflexivity.
Qed.

(** X15. The sanitised name of a timeline has the length of the name and
    consists of lower-case ASCII letters, digits and underscores only, so
    the name cannot bring a path separator or a dot into the file name;
    sanitising twice changes nothing more. *)
Theorem sanitizeName_is_safe (name : string) :
  String.length (sanitizeName name) = String.length name /\
  allChars fileNameChar (sanitizeName name) = true /\
  sanitizeName (sanitizeName name) = sanitizeName name.
Proof.
  unfold sanitizeName. induction name as [|c name (IHlen & IHsafe & IHidem)].
  - by split_and!.
  - destruct (sanitize_char c) as [Hsafe Hidem]. cbv zeta in Hsafe, Hidem.
    cbn [mapChars String.length allChars].
    rewrite IHlen, IHsafe, Hsafe, Hidem, IHidem. by split_and!.
Qed.

(** ** What [addClip] touches *)

Lemma findIndex_Some (trackId : string) (trs : list Track) (i : nat) :
  findIndex trackId trs = Some i ->
  (exists t, trs !! i = Some t /\ track_id t = trackId) /\
  forall j t, (j < i)%nat -> trs !! j = Some t -> track_id t <> trackId.
Proof.
  revert i. induction trs as [|t0 trs IH]; intros i; cbn [findIndex]; [done|].
  destruct (String.eqb_spec (track_id t0) trackId) as [Heq|Hne].
  - intros [= <-]. split; [by exists t0|]. intros j t Hj. lia.
  - destruct (findIndex trackId trs) as [i'|]; [|done].
    intros [= <-]. destruct (IH i' eq_refl) as [Hfound Hfirst].
    split; [done|]. intros [|j] t Hj Ht.
    + by injection Ht as <-.
    + apply (Hfirst j t); [lia|done].
Qed.

(** X16. A successful [addClip] changes one track only: the first track
    whose id is the given one gets the new clip appended after the clips it
    had, in whatever order their times are; every other track, the number
    of tracks, the name and the frame rate stay as they were. *)
Theorem addClip_changes_one_track env tl (trackId : string) clipData tl' clip
    (Hrun : addClip env tl trackId clipData = Ok (tl', clip)) :
  exists trs trs' i t,
    tracks tl = Some trs /\ tracks tl' = Some trs' /\
    trs !! i = Some t /\ track_id t = trackId /\
    (forall j t0, (j < i)%nat -> trs !! j = Some t0 -> track_id t0 <> trackId) /\
    trs' !! i = Some {| track_id := track_id t; track_type := track_type t;
                        clips := clips t ++ [clip] |} /\
    (forall j, j <> i -> trs' !! j = trs !! j) /\
    length trs' = length trs /\
    clip = clipOfData env clipData /\
    tl_name tl' = tl_name tl /\ framerate tl' = framerate tl.
Proof.
  unfold addClip in Hrun.
  destruct (tracks tl) as [trs|] eqn:Htrs; [|done].
  destruct (findIndex trackId trs) as [i|] eqn:Hidx; [|done].
  injection Hrun as <- <-.
  destruct (findIndex_Some _ _ _ Hidx) as [(t & Ht & Hid) Hfirst].
  exists trs, (alter (pushClip (clipOfData env clipData)) i trs), i, t.
  split_and!; try done.
  - by rewrite list_lookup_alter_eq, Ht.
  - intros j Hj. by rewrite list_lookup_alter_ne.
  - by rewrite length_alter.
Qed.

Lemma addClip_changes_one_track_witness :
  exists tl' clip,
    addClip sampleEnv oneClipTimeline "track-1" earlyClipData = Ok (tl', clip) /\
    exists trs trs' i t,
      tracks oneClipTimeline = Some trs /\ tracks tl' = Some trs' /\
      trs !! i = Some t /\ track_id t = "track-1" /\
      (forall j t0, (j < i)%nat -> trs !! j = Some t0 ->
         track_id t0 <> "track-1") /\
      trs' !! i = Some {| track_id := track_id t; track_type := track_type t;
                          clips := clips t ++ [clip] |} /\
      (forall j, j <> i -> trs' !! j = trs !! j) /\
      length trs' = length trs /\
      clip = clipOfData sampleEnv earlyClipData /\
      tl_name tl' = tl_name oneClipTimeline /\
      framerate tl' = framerate oneClipTimeline.
Proof.
  eexists _, _. split; [vm_compute; reflexivity|].
  exact (addClip_changes_one_track sampleEnv oneClipTimeline "track-1"
           earlyClipData _ _ eq_refl).
Defined.

(** ** The duration after [addClip] *)

Lemma fold_maxStep_from (cs : list Clip) (m : Q) :
  (0 <= m)%Q ->
  (fold_left maxStep cs m == Qmax m (fold_left maxStep cs 0))%Q.
Proof.
  intros Hm.
  destruct (fold_maxStep cs m) as (Hge & Hub & Hatt).
  destruct (fold_maxStep cs 0%Q) as (Hge0 & Hub0 & Hatt0).
  destruct (Q.max_spec m (fold_left maxStep cs 0%Q)) as [[Hlt ->]|[Hle ->]];
    apply Qle_antisym.
  - destruct Hatt as [->|(c & Hc & He)]; [lra|]. by eapply Hub0.
  - destruct Hatt0 as [->|(c & Hc & He)]; [lra|]. by eapply Hub.
  - destruct Hatt as [->|(c & Hc & He)]; [lra|].
    specialize (Hub0 _ _ Hc He). lra.
  - done.
Qed.

(** X17. After a successful [addClip] of a clip whose end time is a number
    [e], the stored duration is the larger of [e] and the duration
    recomputed from the clips the timeline had (the greatest end time, at
    least 0); the duration stored before plays no part. *)
Theorem addClip_duration_is_max_of_old_and_new env tl (trackId : string)
    clipData tl' clip trs e
    (Hrun : addClip env tl trackId clipData = Ok (tl', clip))
    (Htrs : tracks tl = Some trs)
    (Hend : endTime clip = Fin e) :
  (tl_duration tl' == Qmax (recalcDuration trs) e)%Q.
Proof.
  unfold addClip in Hrun. rewrite Htrs in Hrun.
  destruct (findIndex trackId trs) as [i|] eqn:Hidx; [|done].
  injection Hrun as <- <-. apply findIndex_lt in Hidx.
  cbn [tl_duration]. rewrite !recalcDuration_concat.
  rewrite (fold_maxStep_perm _ _ _ (clips_after_push _ i trs Hidx)).
  cbn [fold_left]. set (clip := clipOfData env clipData) in *.
  destruct (fold_maxStep (concat (clips <$> trs)) 0%Q) as (Hge0 & _ & _).
  assert ((0 <= maxStep 0 clip)%Q /\ (maxStep 0 clip == Qmax 0 e)%Q)
    as [Hpos Hmax].
  { unfold maxStep, jsGt. rewrite Hend.
    destruct (Qle_bool e 0) eqn:Hle; cbn [negb].
    - apply Qle_bool_iff in Hle. split; [lra|].
      destruct (Q.max_spec 0 e) as [[? ->]|[? ->]]; lra.
    - assert (0 < e)%Q as Hlt.
      { apply Qnot_le_lt. intros H. apply Qle_bool_iff in H. congruence. }
      split; [lra|]. destruct (Q.max_spec 0 e) as [[? ->]|[? ->]]; lra. }
  rewrite (fold_maxStep_from _ _ Hpos).
  set (r := fold_left maxStep (concat (clips <$> trs)) 0%Q) in *.
  destruct (Q.max_spec (maxStep 0 clip) r) as [[? ->]|[? ->]];
    destruct (Q.max_spec r e) as [[? ->]|[? ->]];
    destruct (Q.max_spec 0 e) as [[? Hm]|[? Hm]]; rewrite Hm in Hmax; lra.
Qed.

Lemma addClip_duration_is_max_of_old_and_new_witness :
  exists tl' clip,
    addClip sampleEnv oneClipTimeline "track-2" earlyClipData = Ok (tl', clip) /\
    endTime clip = Fin 4 /\
    (tl_duration tl'
     == Qmax (recalcDuration (default [] (tracks oneClipTimeline))) 4)%Q.
Proof.
  eexists _, _. split; [vm_compute; reflexivity|]. split; [reflexivity|].
  exact (addClip_duration_is_max_of_old_and_new sampleEnv oneClipTimeline
           "track-2" earlyClipData _ _ _ 4 eq_refl eq_refl eq_refl).
Defined.

(** ** Adding a track *)

Lemma findIndex_app_found (trackId : string) (trs more : list Track) (i : nat) :
  findIndex trackId trs = Some i -> findIndex trackId (trs ++ more) = Some i.
Proof.
  revert i. induction trs as [|t trs IH]; intros i; cbn [findIndex app]; [done|].
  destruct (String.eqb (track_id t) trackId); [done|].
  destruct (findIndex trackId trs) as [j|]; [|done].
  intros [= <-]. by rewrite (IH j eq_refl).
Qed.

Lemma findIndex_app_fresh (trackId : string) (trs : list Track) (t : Track) :
  findIndex trackId trs = None -> track_id t = trackId ->
  findIndex trackId (trs ++ [t]) = Some (length trs).
Proof.
  intros Hnone Hid. induction trs as [|t0 trs IH]; cbn [findIndex app length].
  - rewrite Hid, String.eqb_refl. done.
  - cbn [findIndex] in Hnone.
    destruct (String.eqb (track_id t0) trackId); [done|].
    destruct (findIndex trackId trs) as [j|]; [done|].
    by rewrite IH.
Qed.

(** X18. [addTrack] appends one track without clips, of the given type or
    ["video"], under the id [track-<clock>], and leaves the tracks already
    there, the duration, the name and the frame rate as they were.  The id
    comes from the clock alone: the lookup that [addClip] makes resolves it
    to the new track when no earlier track has that id, and to the first
    earlier track with that id otherwise, as for a track made within the
    same millisecond. *)
Theorem addTrack_appends_one_track env type tl tl1 newTrack
    (Hadd : addTrack env type tl = (tl1, newTrack)) :
  tracks tl1 = Some (default [] (tracks tl) ++ [newTrack]) /\
  newTrack = {| track_id := "track-" +:+ pretty (now env);
               track_type := default "video" type; clips := [] |} /\
  tl_duration tl1 = tl_duration tl /\
  tl_name tl1 = tl_name tl /\ framerate tl1 = framerate tl /\
  exists i,
    findIndex (track_id newTrack) (default [] (tracks tl) ++ [newTrack])
    = Some i /\
    (findIndex (track_id newTrack) (default [] (tracks tl)) = None ->
     i = length (default [] (tracks tl))) /\
    (forall j, findIndex (track_id newTrack) (default [] (tracks tl)) = Some j ->
     i = j /\ (i < length (default [] (tracks tl)))%nat).
Proof.
  unfold addTrack in Hadd. injection Hadd as <- <-.
  set (trs := default [] (tracks tl)).
  set (tid := "track-" +:+ pretty (now env)).
  cbn [tracks clips track_type tl_duration tl_name framerate track_id].
  split_and!; try done.
  destruct (findIndex tid trs) as [j|] eqn:Hold.
  - rewrite (findIndex_app_found _ _ _ _ Hold).
    exists j. split_and!; [done|done|].
    intros j' [= <-]. split; [done|]. by eapply findIndex_lt.
  - rewrite (findIndex_app_fresh tid trs
               {| track_id := tid; track_type := default "video" type;
                  clips := [] |} Hold eq_refl).
    exists (length trs). by split_and!.
Qed.

Lemma addTrack_appends_one_track_witness :
  exists tl1 newTrack,
    addTrack sampleEnv None sameMillisecondTimeline = (tl1, newTrack) /\
    tracks tl1
    = Some (default [] (tracks sameMillisecondTimeline) ++ [newTrack]) /\
    track_id newTrack = "track-1700000000000" /\
    findIndex (track_id newTrack)
      (default [] (tracks sameMillisecondTimeline) ++ [newTrack])
    = Some 0%nat.
Proof.
  eexists _, _. split; [reflexivity|].
  destruct (addTrack_appends_one_track sampleEnv None sameMillisecondTimeline
              _ _ eq_refl)
    as (Htracks & Hnew & _ & _ & _ & i & Hidx & _ & Hold).
  split; [exact Htracks|]. split; [vm_compute; reflexivity|].
  destruct (Hold 0%nat ltac:(vm_compute; reflexivity)) as [-> _].
  exact Hidx.
Defined.

(** ** Which uploads are processed *)

Lemma splitOn_nonempty (sep : ascii) (s : string) : splitOn sep s <> [].
Proof.
  destruct s as [|c s]; cbn [splitOn]; [done|].
  destruct (Ascii.eqb c sep); [done|]. by destruct (splitOn sep s).
Qed.

Lemma splitOn_segment (a rest : string) :
  noSlash a = true ->
  splitOn "/" (a +:+ String "/" rest) = a :: splitOn "/" rest.
Proof.
  unfold noSlash. induction a as [|c a IH]; intros Ha; [done|].
  cbn [allChars] in Ha. apply andb_true_iff in Ha as [Hc Ha].
  change (String c a +:+ String "/" rest) with (String c (a +:+ String "/" rest)).
  cbn [splitOn]. apply negb_true_iff in Hc. rewrite Hc. by rewrite IH.
Qed.

Lemma splitOn_noSlash (a : string) : noSlash a = true -> splitOn "/" a = [a].
Proof.
  unfold noSlash. induction a as [|c a IH]; intros Ha; [done|].
  cbn [allChars] in Ha. apply andb_true_iff in Ha as [Hc Ha].
  cbn [splitOn]. apply negb_true_iff in Hc. rewrite Hc. by rewrite IH.
Qed.

Lemma splitOn_storagePath (p t folder rest : string) :
  noSlash p = true -> noSlash t = true -> noSlash folder = true ->
  splitOn "/" (storagePath p t folder rest)
  = "projects" :: p :: "timelines" :: t :: folder :: splitOn "/" rest.
Proof.
  intros Hp Ht Hf.
  change (storagePath p t folder rest)
    with ("projects" +:+ String "/" (p +:+ String "/" ("timelines" +:+ String "/"
            (t +:+ String "/" (folder +:+ String "/" rest))))).
  by rewrite !splitOn_segment.
Qed.

(** X19. [processMediaUpload] goes on exactly for media files stored as
    [projects/<p>/timelines/<t>/media/<file>], and then with these very ids
    and file name.  It returns at once for every object in another folder
    of a timeline, so the thumbnails and the exported EDLs that the
    functions themselves write are never taken for uploads, and for every
    content type that is neither video nor audio. *)
Theorem processMediaUpload_routes (contentType p t folder rest : string)
    (Hp : noSlash p = true) (Ht : noSlash t = true)
    (Hfolder : noSlash folder = true) :
  (String.prefix "video/" contentType || String.prefix "audio/" contentType
   = true ->
   noSlash rest = true ->
   processMediaUploadTarget contentType (storagePath p t "media" rest)
   = Some (p, t, rest)) /\
  (folder <> "media" ->
   processMediaUploadTarget contentType (storagePath p t folder rest) = None) /\
  (String.prefix "video/" contentType || String.prefix "audio/" contentType
   = false ->
   forall filePath, processMediaUploadTarget contentType filePath = None).
Proof.
  split_and!.
  - intros Hmedia Hrest. unfold processMediaUploadTarget.
    apply orb_true_iff in Hmedia.
    assert (negb (String.prefix "video/" contentType)
            && negb (String.prefix "audio/" contentType) = false) as ->.
    { destruct Hmedia as [-> | ->]; [done|]. by rewrite andb_false_r. }
    rewrite splitOn_storagePath, splitOn_noSlash by done. by vm_compute.
  - intros Hne. unfold processMediaUploadTarget.
    destruct (negb _ && negb _); [done|].
    rewrite splitOn_storagePath by done. cbv zeta.
    cbn [lookup list_lookup].
    rewrite (bool_decide_eq_false_2 (Some folder = Some "media"))
      by (by intros [= ?]).
    by rewrite !orb_true_r.
  - intros Hother filePath. unfold processMediaUploadTarget.
    apply orb_false_iff in Hother as [-> ->]. done.
Qed.

Lemma processMediaUpload_routes_witness :
  noSlash "project-123" = true /\ noSlash "tl-1" = true /\
  noSlash "exports" = true /\ "exports" <> "media" /\
  processMediaUploadTarget "video/mp4"
    (storagePath "project-123" "tl-1" "exports" "demo_1700000000000.edl") = None.
Proof.
  assert ("exports" <> "media") as Hne by discriminate.
  split_and!; [reflexivity..|exact Hne|].
  exact (proj1 (proj2 (processMediaUpload_routes "video/mp4" "project-123" "tl-1"
                         "exports" "demo_1700000000000.edl"
                         eq_refl eq_refl eq_refl)) Hne).
Defined.

(** ** Zooming *)

Lemma zoomOut_floor (pps : Q) : (10 <= zoomOut pps)%Q.
Proof. unfold zoomOut. apply Q.le_max_l. Qed.

(** X20. Whatever zoom buttons are pressed, starting from the initial 50
    pixels per second, the scale never falls below 10 pixels per second. *)
Theorem zoom_never_below_ten (buttons : list ZoomButton) :
  (10 <= fold_left pressZoom buttons 50)%Q.
Proof.
  assert (forall pps, (10 <= pps)%Q -> (10 <= fold_left pressZoom buttons pps)%Q)
    as Hinv.
  { induction buttons as [|button buttons IH]; intros pps Hpps; [done|].
    cbn [fold_left]. apply IH. destruct button; cbn [pressZoom].
    - unfold zoomIn. lra.
    - apply zoomOut_floor. }
  apply Hinv. lra.
Qed.

(** ** The time ruler *)




(** ** The files of a cloud export *)

Lemma tempPath_not_empty (dir name : string) :
  String.eqb (dir +:+ "/" +:+ name) EmptyString = false.
Proof. by destruct dir. Qed.

Lemma storeExport_uploads xenv projectId timelineId format destination tl text w :
  let fileName := edlFileName (clock xenv) (tl_name tl) in
  let edlFilePath :=
    "projects/" +:+ projectId +:+ "/timelines/" +:+ timelineId +:+ "/exports/"
    +:+ fileName in
  let tempFilePath := tmpdir xenv +:+ "/" +:+ fileName in
  let url := signedUrl xenv edlFilePath in
  let w3 := afterUpload tempFilePath edlFilePath text w in
  storeExport xenv projectId timelineId format destination tl text w
  = match wantsDrive destination with
    | Some folderId =>
        let w4 :=
          {| tempFiles := tempFiles w3; bucket := bucket w3;
             driveRequests := driveRequests w ++ [(folderId, fileName, None)];
             exportHistory := exportHistory w |} in
        match driveAnswer xenv fileName folderId None with
        | Ok id => (recordExport format url (Some id) w4, Ok (url, Some id))
        | Failure m => (w4, Failure m)
        | Throw k m => (w4, Throw k m)
        end
    | None => (recordExport format url None w3, Ok (url, None))
    end.
Proof.
  intros fileName edlFilePath tempFilePath url w3.
  unfold storeExport. fold fileName. fold edlFilePath. fold tempFilePath.
  fold url.
  unfold bucketUpload, writeFileSync. cbn [tempFiles bucket].
  rewrite lookup_insert_eq.
  unfold unlinkSync at 1. cbn [tempFiles bucket driveRequests exportHistory].
  rewrite lookup_insert_eq. fold (afterUpload tempFilePath edlFilePath text w).
  fold w3.
  destruct (wantsDrive destination) as [folderId|]; [|done].
  unfold saveToGoogleDrive. subst tempFilePath.
  rewrite (tempPath_not_empty (tmpdir xenv) fileName).
  unfold driveCreate.
  assert (tempFiles w3 !! (tmpdir xenv +:+ "/" +:+ fileName) = None) as ->
    by apply lookup_delete_eq.
  cbn [andb driveRequests exportHistory w3 afterUpload].
  by destruct (driveAnswer xenv fileName folderId None).
Qed.

(** X22. Whenever the cloud function [exportTimelineEDL] has generated an
    EDL, it stores that text in the bucket under
    [projects/<p>/timelines/<t>/exports/<file name>] and leaves no temporary
    file behind.  Without a Google Drive destination it makes no Drive
    request, records the export and returns the URL.  With one, the single
    Drive request it makes reads the temporary file after that file has
    been deleted: Drive is never given the EDL text, the result is whatever
    Drive answers to a missing file, and when that answer is an error the
    function throws 'internal' and writes no history entry, although the
    EDL is already in the bucket. *)
Theorem cloud_export_files xenv (projectId timelineId : string)
    (format : option string) (destination : option Destination) tl w
    (text : string)
    (Hgen : exportTimelineEDL format tl = Ok text) :
  let fileName := edlFileName (clock xenv) (tl_name tl) in
  let edlFilePath :=
    "projects/" +:+ projectId +:+ "/timelines/" +:+ timelineId +:+ "/exports/"
    +:+ fileName in
  let url := signedUrl xenv edlFilePath in
  let run := exportTimelineEDLRun xenv projectId timelineId format destination
               tl w in
  bucket run.1 !! edlFilePath = Some text /\
  tempFiles run.1 !! (tmpdir xenv +:+ "/" +:+ fileName) = None /\
  (wantsDrive destination = None ->
   run.2 = Ok (url, None) /\
   driveRequests run.1 = driveRequests w /\
   exportHistory run.1
   = exportHistory w ++ [(default EmptyString format, url, None)]) /\
  (forall folderId, wantsDrive destination = Some folderId ->
   let answer := driveAnswer xenv fileName folderId None in
   driveRequests run.1 = driveRequests w ++ [(folderId, fileName, None)] /\
   run.2 = catchInternal (mapO (fun id => (url, Some id)) answer) /\
   (forall kind message, answer = Throw kind message ->
    run.2 = Throw "internal" message /\
    exportHistory run.1 = exportHistory w)).
Proof.
  intros fileName edlFilePath url run. subst run.
  unfold exportTimelineEDLRun. rewrite Hgen.
  rewrite storeExport_uploads. fold fileName. fold edlFilePath. fold url.
  destruct (wantsDrive destination) as [folderId|].
  - cbn zeta.
    destruct (driveAnswer xenv fileName folderId None) as [id|m|k m] eqn:Hans;
      cbn [fst snd catchInternal recordExport afterUpload tempFiles
           bucket driveRequests exportHistory];
      rewrite lookup_insert_eq, lookup_delete_eq;
      (split_and!; [done|done|done|]);
      intros f [= <-]; rewrite Hans; cbn [mapO catchInternal];
      (split_and!; [done|done|]); intros kind message Hthrow;
      by inversion Hthrow.
  - cbn [fst snd catchInternal recordExport afterUpload tempFiles bucket
         driveRequests exportHistory].
    rewrite lookup_insert_eq, lookup_delete_eq.
    split_and!; [done|done|by intros _|by intros ? [=]].
Qed.

Lemma cloud_export_files_witness :
  let xenv := {| clock := sampleEnv; tmpdir := "/tmp";
                 signedUrl := fun path => "https://storage/" +:+ path;
                 driveAnswer := fun _ _ body =>
                   match body with
                   | Some _ => Ok "drive-1"
                   | None => Throw "Error" noSuchFile
                   end |} in
  let w := {| tempFiles := ∅; bucket := ∅; driveRequests := [];
              exportHistory := [] |} in
  let destination := Some {| dest_type := "googleDrive";
                             dest_folderId := "folder-1" |} in
  exportTimelineEDL (Some "CMX3600") cliplessTimeline = Ok (edlHeader "Demo") /\
  (exportTimelineEDLRun xenv "project-123" "tl-1" (Some "CMX3600") destination
     cliplessTimeline w).2
  = Throw "internal" noSuchFile.
Proof.
  intros xenv w destination.
  assert (exportTimelineEDL (Some "CMX3600") cliplessTimeline
          = Ok (edlHeader "Demo")) as Hgen by (vm_compute; reflexivity).
  split; [exact Hgen|].
  destruct (cloud_export_files xenv "project-123" "tl-1" (Some "CMX3600")
              destination cliplessTimeline w _ Hgen)
    as (_ & _ & _ & Hdrive).
  destruct (Hdrive "folder-1" eq_refl) as (_ & _ & Hthrow).
  exact (proj1 (Hthrow "Error" noSuchFile eq_refl)).
Defined.
